(** * Nest: config resolver, union-merge, completion checker and type matcher

    A shallow embedding of [nest/parser.py] and [nest/utils.py].

    The resolver mutates the document in place and stores references to
    shared [dict] and [list] objects, so Python's object store is explicit:
    a value is a scalar, a reference to a [list] or [dict] object of the
    store, or an opaque instance.  Functions that recurse through the store
    take fuel; running out of it is a separate outcome, never an exception
    of the program. *)

From Stdlib Require Import ZArith String Ascii List Lia Bool.
From stdpp Require Import base list strings sets.

Set Warnings "-register-all,-clear-no-such-hyp".

Local Open Scope string_scope.
Local Open Scope list_scope.

(** ** Exceptions and outcomes *)

Inductive exn :=
| TypeError (msg : string)
| RuntimeError (msg : string)
| NotImplementedError (msg : string)
| AttributeError (msg : string)
| IndexError (msg : string)
| ValueError (msg : string)
| ModuleNotFoundError (name : string).

Inductive res (A : Type) :=
| Ok (a : A)
| Raise (e : exn)
| OutOfFuel.
Arguments Ok {A} a.
Arguments Raise {A} e.
Arguments OutOfFuel {A}.

(** ** Classes, annotations and signatures *)

(** The classes of the values below.  [C_empty] is [inspect._empty], the
    marker of a missing annotation or default. *)
Inductive pyclass :=
| C_object | C_NoneType | C_bool | C_int | C_float | C_str
| C_list | C_tuple | C_set | C_dict
| C_function | C_NestModule | C_empty
| C_other (name : string).

(** An annotation object.  [AClass c] is a class whose own type is [type];
    the generic aliases of [typing] carry their [__args__], [None] for a
    bare alias; [AOther] is any other object, given with the text
    [inspect.formatannotation] prints for it. *)
Inductive Annotation :=
| ANone
| AClass (c : pyclass)
| AAny
| AList (args : option (list Annotation))
| ASet (args : option (list Annotation))
| AIterable (args : option (list Annotation))
| AIterator (args : option (list Annotation))
| ATuple (args : option (list Annotation))
| ADict (args : option (list Annotation))
| AUnion (args : option (list Annotation))
| ACallable (args : option (list Annotation))
| AOther (formatted : string).

(** [inspect.Parameter] and [inspect.Signature] *)
Record parameter := {
  p_name : string;
  p_annotation : Annotation;
  p_has_default : bool
}.

Record signature := {
  parameters : list parameter;
  return_annotation : Annotation
}.

(** ** Values and the object store *)

Abbreviation addr := nat.

(** Python values.  [VRef a] is the [list], [set] or [dict] object stored
    at address [a]; two occurrences of the same address are the same
    object.  [VCallable sig] is an ordinary callable with the signature
    [inspect.signature] reports.  [VModule name sig params] is an instance
    of the class [NestModule]: the identifier, the signature [sig] and the
    keyword arguments [params] bound so far.  [VObject] is any other
    instance; it is neither callable nor iterable. *)
Inductive value :=
| VNone
| VBool (b : bool)
| VInt (z : Z)
| VFloat (mantissa exponent : Z)
| VStr (s : string)
| VTuple (items : list value)
| VRef (a : addr)
| VCallable (sig : signature)
| VModule (name : string) (sig : signature) (params : list (string * value))
| VObject (label : string).

Inductive obj :=
| OList (items : list value)
| OSet (items : list value)
| ODict (entries : list (string * value)).

Abbreviation heap := (list obj).

(** *** Insertion-ordered dictionaries *)

Fixpoint dict_get {V} (d : list (string * V)) (k : string) : option V :=
  match d with
  | [] => None
  | (k', v) :: d' => if String.eqb k' k then Some v else dict_get d' k
  end.

(** [d[k] = v]: an existing key keeps its position, a new key goes last. *)
Fixpoint dict_set {V} (d : list (string * V)) (k : string) (v : V)
  : list (string * V) :=
  match d with
  | [] => [(k, v)]
  | (k', v') :: d' =>
      if String.eqb k' k then (k', v) :: d' else (k', v') :: dict_set d' k v
  end.

Fixpoint dict_del {V} (d : list (string * V)) (k : string)
  : list (string * V) :=
  match d with
  | [] => []
  | (k', v') :: d' =>
      if String.eqb k' k then d' else (k', v') :: dict_del d' k
  end.

Definition dict_keys {V} (d : list (string * V)) : list string := map fst d.

Definition has_key {V} (d : list (string * V)) (k : string) : bool :=
  match dict_get d k with Some _ => true | None => false end.

(** ** A state and exception monad over the store *)

Definition M (A : Type) : Type := heap -> res (A * heap).

Definition ret {A} (a : A) : M A := fun h => Ok (a, h).

Definition bind {A B} (m : M A) (f : A -> M B) : M B :=
  fun h =>
    match m h with
    | Ok (a, h') => f a h'
    | Raise e => Raise e
    | OutOfFuel => OutOfFuel
    end.

Definition raise {A} (e : exn) : M A := fun _ => Raise e.
Definition out_of_fuel {A} : M A := fun _ => OutOfFuel.
Definition get_heap : M heap := fun h => Ok (h, h).

Notation "'let*' x ':=' m 'in' f" := (bind m (fun x => f))
  (at level 10, x name, m at level 100, f at level 200).

(** [for x in xs: body(x)] *)
Fixpoint for_each {X} (body : X -> M unit) (xs : list X) : M unit :=
  match xs with
  | [] => ret tt
  | x :: xs' => let* _ := body x in for_each body xs'
  end.

Definition alloc (o : obj) : M addr :=
  fun h => Ok (length h, h ++ [o]).

Definition is_list (h : heap) (v : value) : bool :=
  match v with
  | VRef a => match h !! a with Some (OList _) => true | _ => false end
  | _ => false
  end.

Definition is_dict (h : heap) (v : value) : bool :=
  match v with
  | VRef a => match h !! a with Some (ODict _) => true | _ => false end
  | _ => false
  end.

(** The entries of the dict object at [a]; anything else has no mapping
    interface. *)
Definition read_dict (a : addr) : M (list (string * value)) :=
  fun h =>
    match h !! a with
    | Some (ODict d) => Ok (d, h)
    | _ => Raise (AttributeError "object is not a dict")
    end.

Definition read_list (a : addr) : M (list value) :=
  fun h =>
    match h !! a with
    | Some (OList l) => Ok (l, h)
    | _ => Raise (AttributeError "object is not a list")
    end.

(** [obj[idx] = v] on the list object at [a] *)
Definition list_setitem (a : addr) (idx : nat) (v : value) : M unit :=
  let* l := read_list a in
  if decide (idx < length l)
  then fun h => Ok (tt, <[a := OList (<[idx := v]> l)]> h)
  else raise (IndexError "list assignment index out of range").

(** [obj[k] = v] on the dict object at [a] *)
Definition dict_setitem (a : addr) (k : string) (v : value) : M unit :=
  let* d := read_dict a in
  fun h => Ok (tt, <[a := ODict (dict_set d k v)]> h).

(** [obj.pop(k, None)] on the dict object at [a] *)
Definition dict_pop (a : addr) (k : string) : M value :=
  let* d := read_dict a in
  match dict_get d k with
  | Some v => fun h => Ok (v, <[a := ODict (dict_del d k)]> h)
  | None => ret VNone
  end.

(** Iterating a dict while its size changes raises; the check is made
    before every item is fetched and once more when the iterator is
    exhausted. *)
Definition check_size (a : addr) (n : nat) : M unit :=
  let* d := read_dict a in
  if decide (length d = n) then ret tt
  else raise (RuntimeError "dictionary changed size during iteration").

(** [for key, val in obj.items(): body(key, val)]: the keys are visited in
    the order they have when the loop starts, each value is fetched when its
    key is reached. *)
Definition for_items (a : addr) (body : string -> value -> M unit) : M unit :=
  let* d0 := read_dict a in
  let* _ :=
    for_each (fun k =>
                let* _ := check_size a (length d0) in
                let* d := read_dict a in
                match dict_get d k with
                | Some v => body k v
                | None => raise (RuntimeError "dictionary keys changed during iteration")
                end) (dict_keys d0) in
  check_size a (length d0).

(** [for idx, val in enumerate(obj): body(idx, val)]: no operation of the
    program changes the length of a list, each item is fetched when its
    index is reached. *)
Definition for_enumerate (a : addr) (body : nat -> value -> M unit) : M unit :=
  let* l0 := read_list a in
  for_each (fun idx =>
              let* l := read_list a in
              match l !! idx with
              | Some v => body idx v
              | None => ret tt
              end) (seq 0 (length l0)).

(** Truth value of an object, as [if x:] tests it. *)
Definition truthy (h : heap) (v : value) : bool :=
  match v with
  | VNone => false
  | VBool b => b
  | VInt z => negb (Z.eqb z 0)
  | VFloat m _ => negb (Z.eqb m 0)
  | VStr s => negb (String.eqb s "")
  | VRef a =>
      match h !! a with
      | Some (OList l) => negb (Nat.eqb (length l) 0)
      | Some (OSet l) => negb (Nat.eqb (length l) 0)
      | Some (ODict d) => negb (Nat.eqb (length d) 0)
      | None => true
      end
  | VTuple items => negb (Nat.eqb (length items) 0)
  | VCallable _ => true
  | VModule _ _ _ => true
  | VObject _ => true
  end.

Definition lift {A} (r : res A) : M A :=
  fun h =>
    match r with
    | Ok a => Ok (a, h)
    | Raise e => Raise e
    | OutOfFuel => OutOfFuel
    end.

(** [isinstance(v, list)] and [isinstance(v, dict)], with the address of
    the object when the test succeeds. *)
Definition list_addr (h : heap) (v : value) : option addr :=
  match v with
  | VRef a => match h !! a with Some (OList _) => Some a | _ => None end
  | _ => None
  end.

Definition dict_addr (h : heap) (v : value) : option addr :=
  match v with
  | VRef a => match h !! a with Some (ODict _) => Some a | _ => None end
  | _ => None
  end.

(** ** Text helpers of [nest/utils.py] *)

Definition dquote : string := String (ascii_of_nat 34) EmptyString.
Definition newline_char : ascii := ascii_of_nat 10.
Definition newline : string := String newline_char EmptyString.

(** [text.split('\n')] *)
Fixpoint split_lines (text : string) : list string :=
  match text with
  | EmptyString => [EmptyString]
  | String c rest =>
      if Ascii.eqb c newline_char then EmptyString :: split_lines rest
      else match split_lines rest with
           | line :: lines => String c line :: lines
           | [] => [String c EmptyString]
           end
  end.

(** [' ' * indent] *)
Fixpoint spaces (indent : nat) : string :=
  match indent with
  | 0 => EmptyString
  | S n => String " "%char (spaces n)
  end.

(** [indent_text]: ['\n'.join([' ' * indent + v for v in text.split('\n')])] *)
Definition indent_text (text : string) (indent : nat) : string :=
  String.concat newline (map (fun v => spaces indent +:+ v) (split_lines text)).

(** ** [merge_dict] of [nest/utils.py] *)

(** What arrives in the parameter [union]: it is declared [union: bool],
    and the recursive call passes [_path+[str(key)]] in its position. *)
Inductive union_arg :=
| UBool (b : bool)
| UPath (path : list string).

Definition union_truthy (union : union_arg) : bool :=
  match union with
  | UBool b => b
  | UPath path => negb (Nat.eqb (length path) 0)
  end.

(** The body of [for key in diff], with [dval] the value of [diff[key]].
    [_path] is [[]] in every call, since no call passes it. *)
Definition merge_item (rec : value -> value -> union_arg -> M value)
    (src : addr) (union : union_arg) (key : string) (dval : value) : M unit :=
  let* s := read_dict src in
  match dict_get s key with
  | Some sval =>
      let* h := get_heap in
      if is_dict h sval && is_dict h dval
      then let* _ := rec sval dval (UPath ([] ++ [key])) in ret tt
      else dict_setitem src key dval
  | None =>
      if union_truthy union then dict_setitem src key dval else ret tt
  end.

(** [merge_dict(src, diff, union)].  Both [src] and [diff] are declared
    [dict]; for anything else the model raises. *)
Fixpoint merge_dict (fuel : nat) (src diff : value) (union : union_arg)
  : M value :=
  match fuel with
  | 0 => out_of_fuel
  | S fuel' =>
      match src, diff with
      | VRef s, VRef d =>
          let* _ := for_items d (merge_item (merge_dict fuel') s union) in
          ret src
      | _, _ => raise (TypeError "merge_dict expects two dicts")
      end
  end.

(** ** The module registry *)

(** Modelled from the spec: [nest/modules.py], which defines the registry
    [module_manager] and the class [NestModule] with its call protocol, is
    not among the sources.  The spec gives the registry as
    [lookup(id) -> Descriptor | NotFound] and a descriptor as
    [construct(boundArgs) -> instance]. *)
Record NestModule := {
  sig : signature;
  construct : list (string * value) -> res value
}.

Definition registry := list (string * NestModule).

Fixpoint find_module (reg : registry) (id : string) : option NestModule :=
  match reg with
  | [] => None
  | (id', m) :: reg' => if String.eqb id' id then Some m else find_module reg' id
  end.

(** Modelled from the spec: [module_manager[name]], the lookup of an
    identifier, which fails with [ModuleNotFoundError] when nothing is
    registered under it. *)
Definition lookup_module (reg : registry) (name : value)
  : M (string * NestModule) :=
  match name with
  | VStr id =>
      match find_module reg id with
      | Some m => ret (id, m)
      | None => raise (ModuleNotFoundError id)
      end
  | _ => raise (ModuleNotFoundError "")
  end.

(** Modelled from the spec: the call of a registered module on keyword
    arguments [kwargs].  A call flagged [delay_resolve=True] constructs a Deferred Module
    Instance carrying the other arguments; any other call runs the
    descriptor's constructor on the arguments. *)
Definition call_module (id : string) (m : NestModule)
    (kwargs : list (string * value)) : M value :=
  match dict_get kwargs "delay_resolve" with
  | Some (VBool true) =>
      ret (VModule id (sig m) (dict_del kwargs "delay_resolve"))
  | _ => lift (construct m kwargs)
  end.

(** ** [parse_config] of [nest/parser.py] *)

Record Settings := { VARIABLE_PREFIX : string; PARSER_STRICT : bool }.

(** The defaults of [nest/settings.py]. *)
Definition default_settings : Settings :=
  {| VARIABLE_PREFIX := "@"; PARSER_STRICT := false |}.

(** [name[1:]] *)
Definition drop_first (name : string) : string :=
  match name with
  | EmptyString => EmptyString
  | String _ rest => rest
  end.

Definition str_of (v : value) : string :=
  match v with VStr s => s | _ => EmptyString end.

Section Resolver.
Variable settings : Settings.
Variable module_manager : registry.

Definition is_variable (name : value) : bool :=
  match name with
  | VStr s => String.prefix (VARIABLE_PREFIX settings) s
  | _ => false
  end.

Definition unresolved_message (name : string) : string :=
  "Could not resolve variable " +:+ dquote +:+ name +:+ dquote +:+ ".".

Definition resolve_variable (env_vars global_vars : addr) (name : string)
  : M value :=
  let* g := read_dict global_vars in
  match dict_get g (drop_first name) with
  | Some v => ret v
  | None =>
      let* e := read_dict env_vars in
      match dict_get e (drop_first name) with
      | Some v => ret v
      | None => raise (TypeError (unresolved_message name))
      end
  end.

(** The body of the two loops over a list: [for idx, val in
    enumerate(config)] and [for sub_idx, sub_val in enumerate(val)]. *)
Definition resolve_item (rec : value -> M value)
    (env_vars global_vars : addr) (container : addr)
    (idx : nat) (val : value) : M unit :=
  let* h := get_heap in
  if is_variable val then
    let* v := resolve_variable env_vars global_vars (str_of val) in
    list_setitem container idx v
  else if is_dict h val then
    let* v := rec val in
    list_setitem container idx v
  else ret tt.

(** The body of [for key, val in config.items()].  In the last branch
    [config[key]], read back for the merge, is the value just stored. *)
Definition resolve_entry (fuel : nat) (rec : value -> M value)
    (env_vars global_vars : addr) (config : addr)
    (key : string) (val : value) : M unit :=
  let* h := get_heap in
  if is_variable val then
    let* v := resolve_variable env_vars global_vars (str_of val) in
    dict_setitem config key v
  else match list_addr h val with
  | Some l => for_enumerate l (resolve_item rec env_vars global_vars l)
  | None =>
      if is_dict h val then
        let* v := rec val in
        let* _ := dict_setitem config key v in
        if String.eqb key "_var"
        then let* _ := merge_dict fuel (VRef global_vars) v (UBool true) in
             ret tt
        else ret tt
      else ret tt
  end.

(** Lines 64-72: the module identifier is popped and, when it is truthy,
    the module is looked up and called with the remaining entries. *)
Definition instantiate (config : addr) : M value :=
  let* nest_module_name := dict_pop config "_name" in
  let* h := get_heap in
  if truthy h nest_module_name then
    let* found := lookup_module module_manager nest_module_name in
    let* kwargs := read_dict config in
    if PARSER_STRICT settings then call_module (fst found) (snd found) kwargs
    else match dict_get kwargs "delay_resolve" with
         | Some _ =>
             raise (TypeError
               "got multiple values for keyword argument 'delay_resolve'")
         | None =>
             call_module (fst found) (snd found)
               (kwargs ++ [("delay_resolve", VBool true)])
         end
  else ret (VRef config).

Fixpoint parse_config (fuel : nat) (config : value)
    (env_vars global_vars : addr) : M value :=
  match fuel with
  | 0 => out_of_fuel
  | S fuel' =>
      let rec := fun val => parse_config fuel' val env_vars global_vars in
      let* h := get_heap in
      match list_addr h config with
      | Some a =>
          let* _ := for_enumerate a
                      (resolve_item rec env_vars global_vars a) in
          ret config
      | None =>
          match dict_addr h config with
          | Some a =>
              let* _ := for_items a
                          (resolve_entry fuel' rec env_vars global_vars a) in
              instantiate a
          | None => ret config
          end
      end
  end.

End Resolver.

(** ** [is_annotation_matched] of [nest/utils.py] *)

(** [type(var)] *)
Definition type_of (h : heap) (var : value) : pyclass :=
  match var with
  | VNone => C_NoneType
  | VBool _ => C_bool
  | VInt _ => C_int
  | VFloat _ _ => C_float
  | VStr _ => C_str
  | VTuple _ => C_tuple
  | VRef a =>
      match h !! a with
      | Some (OList _) => C_list
      | Some (OSet _) => C_set
      | Some (ODict _) => C_dict
      | None => C_other "dangling"
      end
  | VCallable _ => C_function
  | VModule _ _ _ => C_NestModule
  | VObject label => C_other label
  end.

Definition pyclass_eqb (c1 c2 : pyclass) : bool :=
  match c1, c2 with
  | C_object, C_object | C_NoneType, C_NoneType | C_bool, C_bool
  | C_int, C_int | C_float, C_float | C_str, C_str | C_list, C_list
  | C_tuple, C_tuple | C_set, C_set | C_dict, C_dict
  | C_function, C_function | C_NestModule, C_NestModule
  | C_empty, C_empty => true
  | C_other n1, C_other n2 => String.eqb n1 n2
  | _, _ => false
  end.

(** [issubclass(c1, c2)]: every class derives from [object], [bool] from
    [int]. *)
Definition issubclass (c1 c2 : pyclass) : bool :=
  match c2 with
  | C_object => true
  | C_int => match c1 with C_int | C_bool => true | _ => false end
  | _ => pyclass_eqb c1 c2
  end.

(** [issubclass(c, collections.abc.Iterable)] and [... Iterator)] *)
Definition is_iterable_class (c : pyclass) : bool :=
  match c with
  | C_str | C_list | C_tuple | C_set | C_dict => true
  | _ => false
  end.

Definition is_iterator_class (c : pyclass) : bool := false.

(** [callable(var)] *)
Definition callable (var : value) : bool :=
  match var with
  | VCallable _ | VModule _ _ _ => true
  | _ => false
  end.

(** Equality of tuples and of optional tuples, item by item. *)
Section ArgsEqb.
Context {A : Type}.
Variable eqb : A -> A -> bool.

Fixpoint list_eqb (xs ys : list A) : bool :=
  match xs, ys with
  | [], [] => true
  | x :: xs', y :: ys' => eqb x y && list_eqb xs' ys'
  | _, _ => false
  end.

Definition args_eqb (ox oy : option (list A)) : bool :=
  match ox, oy with
  | None, None => true
  | Some xs, Some ys => list_eqb xs ys
  | _, _ => false
  end.

(** Equality of the arguments of two [Union]s: every argument of either is
    equal to one of the other, whatever the order. *)
Definition set_eqb (xs ys : list A) : bool :=
  forallb (fun x => existsb (fun y => eqb x y) ys) xs
  && forallb (fun y => existsb (fun x => eqb x y) xs) ys.

Definition union_args_eqb (ox oy : option (list A)) : bool :=
  match ox, oy with
  | None, None => true
  | Some xs, Some ys => set_eqb xs ys
  | _, _ => false
  end.

End ArgsEqb.

(** [x == y] on annotation objects: classes by identity, generic aliases
    by their origin and arguments, in order, except for [Union], whose
    arguments [typing] compares as a set. *)
Fixpoint annotation_eqb (x y : Annotation) {struct x} : bool :=
  let eqb := args_eqb (fun x' y' => annotation_eqb x' y') in
  match x, y with
  | ANone, ANone => true
  | AClass c1, AClass c2 => pyclass_eqb c1 c2
  | AAny, AAny => true
  | AList ox, AList oy => eqb ox oy
  | ASet ox, ASet oy => eqb ox oy
  | AIterable ox, AIterable oy => eqb ox oy
  | AIterator ox, AIterator oy => eqb ox oy
  | ATuple ox, ATuple oy => eqb ox oy
  | ADict ox, ADict oy => eqb ox oy
  | AUnion ox, AUnion oy =>
      union_args_eqb (fun x' y' => annotation_eqb x' y') ox oy
  | ACallable ox, ACallable oy => eqb ox oy
  | AOther s1, AOther s2 => String.eqb s1 s2
  | _, _ => false
  end.

(** [all(map(f, xs))] and [any(map(f, xs))]: evaluation stops at the first
    item that decides the result, and at the first exception. *)
Section Quantifiers.
Context {X Y : Type}.
Variable f : X -> res bool.
Variable f2 : X -> Y -> res bool.

Fixpoint all_map (xs : list X) : res bool :=
  match xs with
  | [] => Ok true
  | x :: xs' =>
      match f x with
      | Ok true => all_map xs'
      | r => r
      end
  end.

Fixpoint any_map (xs : list X) : res bool :=
  match xs with
  | [] => Ok false
  | x :: xs' =>
      match f x with
      | Ok false => any_map xs'
      | r => r
      end
  end.

(** [all(map(f2, xs, ys))]: [map] stops with the shorter sequence. *)
Fixpoint all_map2 (xs : list X) (ys : list Y) : res bool :=
  match xs, ys with
  | x :: xs', y :: ys' =>
      match f2 x y with
      | Ok true => all_map2 xs' ys'
      | r => r
      end
  | _, _ => Ok true
  end.

End Quantifiers.

(** [all(map(lambda x, y: x == y, func_annos, sub_annotation))]: [map]
    stops with the shorter sequence. *)
Fixpoint all_eq (xs ys : list Annotation) : bool :=
  match xs, ys with
  | x :: xs', y :: ys' => annotation_eqb x y && all_eq xs' ys'
  | _, _ => true
  end.

(** [x and y] on two checks *)
Definition and_then (x : res bool) (y : res bool) : res bool :=
  match x with
  | Ok true => y
  | r => r
  end.

(** The annotations a callable is compared by: for a Nest module those of
    the parameters that are neither bound nor optional, for any other
    callable those of all parameters. *)
Definition func_annos (var : value) : list Annotation :=
  match var with
  | VModule _ sig params =>
      map p_annotation
        (filter (fun p => negb (has_key params (p_name p))
                          && negb (p_has_default p)) (parameters sig))
  | VCallable sig => map p_annotation (parameters sig)
  | _ => []
  end.

Definition sig_of (var : value) : signature :=
  match var with
  | VModule _ sig _ => sig
  | VCallable sig => sig
  | _ => {| parameters := []; return_annotation := AClass C_empty |}
  end.

(** The text of [inspect.formatannotation] for the annotations that reach
    the final [raise]. *)
Definition formatannotation (a : Annotation) : string :=
  match a with
  | ANone => "None"
  | AOther text => text
  | _ => "typing"
  end.

Definition unsupported (a : Annotation) : exn :=
  NotImplementedError
    ("The annotation type " +:+ formatannotation a +:+ " is not supported").

Fixpoint is_annotation_matched (h : heap) (var : value)
    (annotation : Annotation) {struct annotation} : res bool :=
  let var_type := type_of h var in
  match annotation with
  | ANone =>
      match var with
      | VNone => Ok true
      | _ => Raise (unsupported annotation)
      end
  | AClass c => Ok (issubclass var_type c)
  | AAny => Ok true
  | AList sub_annotation =>
      match var with
      | VRef a =>
          match h !! a with
          | Some (OList items) =>
              match sub_annotation with
              | None => Ok true
              | Some [] => Raise (IndexError "tuple index out of range")
              | Some (elem :: _) =>
                  all_map (fun x => is_annotation_matched h x elem) items
              end
          | _ => Ok false
          end
      | _ => Ok false
      end
  | ASet sub_annotation =>
      match var with
      | VRef a =>
          match h !! a with
          | Some (OSet items) =>
              match sub_annotation with
              | None => Ok true
              | Some [] => Raise (IndexError "tuple index out of range")
              | Some (elem :: _) =>
                  all_map (fun x => is_annotation_matched h x elem) items
              end
          | _ => Ok false
          end
      | _ => Ok false
      end
  | AIterable _ => Ok (is_iterable_class var_type)
  | AIterator _ => Ok (is_iterator_class var_type)
  | ATuple sub_annotation =>
      match var with
      | VTuple items =>
          match sub_annotation with
          | None => Ok true
          | Some elems =>
              if negb (Nat.eqb (length elems) (length items)) then Ok false
              else
                all_map2 (fun y x => is_annotation_matched h x y) elems items
          end
      | _ => Ok false
      end
  | ADict sub_annotation =>
      match var with
      | VRef a =>
          match h !! a with
          | Some (ODict entries) =>
              match sub_annotation with
              | None => Ok true
              | Some [key_anno; val_anno] =>
                  all_map (fun x : string * value =>
                             and_then
                               (is_annotation_matched h (VStr (fst x)) key_anno)
                               (is_annotation_matched h (snd x) val_anno))
                          entries
              | Some _ => Raise (ValueError "wrong number of values to unpack")
              end
          | _ => Ok false
          end
      | _ => Ok false
      end
  | AUnion sub_annotation =>
      match sub_annotation with
      | None => Ok false
      | Some alts =>
          any_map (fun y => is_annotation_matched h var y) alts
      end
  | ACallable sub_annotation =>
      if callable var then
        match sub_annotation with
        | None => Ok true
        | Some args =>
            let sig := sig_of var in
            if Nat.eqb (length (func_annos var) + 1) (length args) then
              Ok (all_eq (func_annos var) args
                  && (let ret_anno := List.last args AAny in
                      annotation_eqb ret_anno AAny
                      || annotation_eqb ret_anno (AClass C_object)
                      || annotation_eqb (return_annotation sig) ret_anno
                      || (annotation_eqb (return_annotation sig) ANone
                          && annotation_eqb ret_anno (AClass C_NoneType))))
            else Ok false
        end
      else Ok false
  | AOther _ => Raise (unsupported annotation)
  end.

(** ** [run_tasks] of [nest/parser.py] *)

(** [type(v).__name__] *)
Definition class_name (c : pyclass) : string :=
  match c with
  | C_object => "object" | C_NoneType => "NoneType" | C_bool => "bool"
  | C_int => "int" | C_float => "float" | C_str => "str"
  | C_list => "list" | C_tuple => "tuple" | C_set => "set"
  | C_dict => "dict" | C_function => "function"
  | C_NestModule => "NestModule" | C_empty => "_empty"
  | C_other name => name
  end.

Definition store (a : addr) (o : obj) : M unit :=
  fun h => Ok (tt, <[a := o]> h).

Fixpoint memo_get (memo : list (addr * addr)) (a : addr) : option addr :=
  match memo with
  | [] => None
  | (a', b) :: memo' => if Nat.eqb a' a then Some b else memo_get memo' a
  end.

(** Copies of the items of a container, left to right, the memo threaded
    through. *)
Fixpoint copy_items
    (copy : value -> list (addr * addr) -> M (value * list (addr * addr)))
    (items : list value) (memo : list (addr * addr))
  : M (list value * list (addr * addr)) :=
  match items with
  | [] => ret ([], memo)
  | x :: items' =>
      let* r := copy x memo in
      let* rs := copy_items copy items' (snd r) in
      ret (fst r :: fst rs, snd rs)
  end.

(** [copy.deepcopy]: a container is copied once, its copy recorded in the
    memo before its items are copied, so that sharing is kept.  Scalars are
    atomic; instances do not occur in a loaded document and are returned as
    they are. *)
Fixpoint deepcopy (fuel : nat) (x : value) (memo : list (addr * addr))
  : M (value * list (addr * addr)) :=
  match fuel with
  | 0 => out_of_fuel
  | S fuel' =>
      match x with
      | VRef a =>
          match memo_get memo a with
          | Some b => ret (VRef b, memo)
          | None =>
              let* h := get_heap in
              match h !! a with
              | Some (OList items) =>
                  let* b := alloc (OList []) in
                  let* r := copy_items (deepcopy fuel') items ((a, b) :: memo) in
                  let* _ := store b (OList (fst r)) in
                  ret (VRef b, snd r)
              | Some (OSet items) =>
                  let* b := alloc (OSet []) in
                  let* r := copy_items (deepcopy fuel') items ((a, b) :: memo) in
                  let* _ := store b (OSet (fst r)) in
                  ret (VRef b, snd r)
              | Some (ODict entries) =>
                  let* b := alloc (ODict []) in
                  let* r := copy_items (deepcopy fuel') (map snd entries)
                              ((a, b) :: memo) in
                  let* _ := store b (ODict (combine (map fst entries) (fst r))) in
                  ret (VRef b, snd r)
              | None => ret (x, memo)
              end
          end
      | VTuple items =>
          let* r := copy_items (deepcopy fuel') items memo in
          ret (VTuple (fst r), snd r)
      | _ => ret (x, memo)
      end
  end.

Section RunTasks.
Variable settings : Settings.
Variable module_manager : registry.
(** [str(v)] and [yaml.dump(v, default_flow_style=False)], which are
    library code. *)
Variable py_str : heap -> value -> string.
Variable yaml_format : heap -> value -> string.

Definition unresolved_module_message (h : heap) (v : value) : string :=
  "Unresolved Nest module found in the result." +:+ newline
    +:+ indent_text (py_str h v) 4.

Fixpoint check_all_resolved (fuel : nat) (resolved_config : value)
  : M unit :=
  match fuel with
  | 0 => out_of_fuel
  | S fuel' =>
      let* h := get_heap in
      match list_addr h resolved_config with
      | Some a =>
          let* l := read_list a in
          for_each (check_all_resolved fuel') l
      | None =>
          match dict_addr h resolved_config with
          | Some a =>
              let* d := read_dict a in
              for_each (check_all_resolved fuel') (map snd d)
          | None =>
              if String.eqb (class_name (type_of h resolved_config))
                   "NestModule"
              then raise (RuntimeError
                            (unresolved_module_message h resolved_config))
              else ret tt
          end
      end
  end.

Definition bad_parameter_message (h : heap) (param : value) : string :=
  "Parameter file should define a list of Dict[str, Any]. Got "
    +:+ dquote +:+ py_str h param +:+ dquote +:+ " in it.".

(** The exception of line 125.  The operator [%] takes a tuple on its right
    as the sequence of its arguments: a tuple of one item is formatted as
    that item, and any other tuple does not fit the one [%s] of the format,
    for which [%] itself raises [TypeError]. *)
Definition bad_parameter_error (h : heap) (param : value) : exn :=
  match param with
  | VTuple [] => TypeError "not enough arguments for format string"
  | VTuple [item] => TypeError (bad_parameter_message h item)
  | VTuple _ =>
      TypeError "not all arguments converted during string formatting"
  | _ => TypeError (bad_parameter_message h param)
  end.

(** Lines 122-127: the parameters are merged into the global variables
    and recorded in the environment. *)
Definition sweep_prepare (fuel : nat) (env_vars global_vars : addr)
    (param : value) : M unit :=
  let* h := get_heap in
  let* _ := if is_dict h param
            then merge_dict fuel (VRef global_vars) param (UBool true)
            else raise (bad_parameter_error h param) in
  let* h' := get_heap in
  dict_setitem env_vars "PARAMS" (VStr (yaml_format h' (VRef global_vars))).

(** Lines 131-132: a deep copy of the config is parsed and checked. *)
Definition sweep_resolve (fuel : nat) (config : value)
    (env_vars global_vars : addr) : M value :=
  let* copy := deepcopy fuel config [] in
  let* resolved_config :=
    parse_config settings module_manager fuel (fst copy)
      env_vars global_vars in
  let* _ := check_all_resolved fuel resolved_config in
  ret resolved_config.

(** The body of [for idx, param in enumerate(param_list)]. *)
Definition sweep_iteration (fuel : nat) (config : value)
    (env_vars global_vars : addr) (idx : nat) (param : value) : M unit :=
  let* _ := sweep_prepare fuel env_vars global_vars param in
  let* _ := sweep_resolve fuel config env_vars global_vars in
  ret tt.

(** [run_tasks] from the point where the config, the environment and the
    parameters are loaded.  [default_global_vars] is the dict that the
    default value of the parameter [global_vars] of [parse_config]
    denotes. *)
Definition run_tasks (fuel : nat) (config : value) (env_vars : addr)
    (default_global_vars : addr) (param_file : option value) : M unit :=
  match param_file with
  | Some loaded =>
      let* global_vars := alloc (ODict []) in
      let* h := get_heap in
      let* param_list :=
        match list_addr h loaded with
        | Some a => ret a
        | None => alloc (OList [loaded])
        end in
      for_enumerate param_list
        (sweep_iteration fuel config env_vars global_vars)
  | None =>
      let* resolved_config :=
        parse_config settings module_manager fuel config
          env_vars default_global_vars in
      check_all_resolved fuel resolved_config
  end.

End RunTasks.

(** ** Notions used in the statements *)

(** The annotations [is_annotation_matched] interprets, as [typing] builds
    them: a class, [Any], or one of the generic aliases, bare or with the
    number of arguments the alias takes.  [typing] turns a [None] that is
    given as an argument into the class [NoneType], so a bare [None] is
    never nested. *)
Fixpoint supported (a : Annotation) : bool :=
  match a with
  | ANone => false
  | AClass _ => true
  | AAny => true
  | AList None | ASet None | ATuple None | ADict None | AUnion None => true
  | AList (Some [elem]) => supported elem
  | ASet (Some [elem]) => supported elem
  | ATuple (Some elems) => forallb supported elems
  | ADict (Some [key_anno; val_anno]) =>
      supported key_anno && supported val_anno
  | AUnion (Some alts) => forallb supported alts
  | AIterable _ | AIterator _ | ACallable _ => true
  | _ => false
  end.

(** Induction over annotations that reaches the arguments of an alias. *)
Section AnnotationInduction.
Variable P : Annotation -> Prop.

Definition args_all (o : option (list Annotation)) : Prop :=
  match o with
  | None => True
  | Some xs => Forall P xs
  end.

Hypothesis HNone : P ANone.
Hypothesis HClass : forall c, P (AClass c).
Hypothesis HAny : P AAny.
Hypothesis HList : forall o, args_all o -> P (AList o).
Hypothesis HSet : forall o, args_all o -> P (ASet o).
Hypothesis HIterable : forall o, args_all o -> P (AIterable o).
Hypothesis HIterator : forall o, args_all o -> P (AIterator o).
Hypothesis HTuple : forall o, args_all o -> P (ATuple o).
Hypothesis HDict : forall o, args_all o -> P (ADict o).
Hypothesis HUnion : forall o, args_all o -> P (AUnion o).
Hypothesis HCallable : forall o, args_all o -> P (ACallable o).
Hypothesis HOther : forall s, P (AOther s).

Fixpoint Annotation_nested_ind (a : Annotation) : P a :=
  let all_args (o : option (list Annotation)) : args_all o :=
    match o return args_all o with
    | None => I
    | Some xs =>
        (fix all_list (xs : list Annotation) : Forall P xs :=
           match xs return Forall P xs with
           | [] => @List.Forall_nil _ P
           | x :: xs' =>
               @List.Forall_cons _ P x xs' (Annotation_nested_ind x) (all_list xs')
           end) xs
    end in
  match a with
  | ANone => HNone
  | AClass c => HClass c
  | AAny => HAny
  | AList o => HList o (all_args o)
  | ASet o => HSet o (all_args o)
  | AIterable o => HIterable o (all_args o)
  | AIterator o => HIterator o (all_args o)
  | ATuple o => HTuple o (all_args o)
  | ADict o => HDict o (all_args o)
  | AUnion o => HUnion o (all_args o)
  | ACallable o => HCallable o (all_args o)
  | AOther s => HOther s
  end.

End AnnotationInduction.

(** The values of the matcher's table: [[1, 2, 3]] at address 0,
    [[1, "a"]] at address 1 and [{}] at address 2. *)
Definition table_heap : heap :=
  [OList [VInt 1; VInt 2; VInt 3]; OList [VInt 1; VStr "a"]; ODict []].

(** A function without parameters declared to return [int]. *)
Definition returns_int : value :=
  VCallable {| parameters := []; return_annotation := AClass C_int |}.

(** A function without parameters and without a return annotation:
    [inspect] gives [Signature.empty] for it. *)
Definition unannotated : value :=
  VCallable {| parameters := []; return_annotation := AClass C_empty |}.

(** A function [f(x: Union[int, str]) -> bool]. *)
Definition takes_union : value :=
  VCallable
    {| parameters :=
         [{| p_name := "x";
             p_annotation := AUnion (Some [AClass C_int; AClass C_str]);
             p_has_default := false |}];
       return_annotation := AClass C_bool |}.

(** The equality of annotations that the [Callable] rule compares by. *)
Definition type_equal (x y : Annotation) : Prop := annotation_eqb x y = true.

(** No [Union] occurs in the annotation. *)
Fixpoint union_free (a : Annotation) : bool :=
  let all_free (o : option (list Annotation)) :=
    match o with
    | None => true
    | Some xs => forallb union_free xs
    end in
  match a with
  | AUnion _ => false
  | AList o | ASet o | AIterable o | AIterator o | ATuple o | ADict o
  | ACallable o => all_free o
  | ANone | AClass _ | AAny | AOther _ => true
  end.

(** The graph of a value: what is reached from it through lists and dicts.
    A value that is neither is a leaf. *)
Inductive tree :=
| TLeaf (v : value)
| TList (items : list tree)
| TDict (entries : list (string * tree)).

Fixpoint reify_all (rec : value -> option tree) (vs : list value)
  : option (list tree) :=
  match vs with
  | [] => Some []
  | v :: vs' =>
      match rec v, reify_all rec vs' with
      | Some t, Some ts => Some (t :: ts)
      | _, _ => None
      end
  end.

Fixpoint reify (fuel : nat) (h : heap) (v : value) : option tree :=
  match fuel with
  | 0 => None
  | S fuel' =>
      match v with
      | VRef a =>
          match h !! a with
          | Some (OList l) =>
              option_map TList (reify_all (reify fuel' h) l)
          | Some (ODict d) =>
              option_map (fun ts => TDict (combine (map fst d) ts))
                (reify_all (reify fuel' h) (map snd d))
          | _ => Some (TLeaf v)
          end
      | _ => Some (TLeaf v)
      end
  end.

(** An instance of a class named [NestModule]. *)
Definition is_nest_module (v : value) : bool :=
  match v with
  | VModule _ _ _ => true
  | VObject label => String.eqb label "NestModule"
  | _ => false
  end.

Section FirstIn.
Context {X : Type}.
Variable first : X -> option value.

Fixpoint first_in (xs : list X) : option value :=
  match xs with
  | [] => None
  | x :: xs' =>
      match first x with
      | Some m => Some m
      | None => first_in xs'
      end
  end.

End FirstIn.

(** The first Nest module of a graph, items and values taken in order. *)
Fixpoint first_unresolved (t : tree) : option value :=
  match t with
  | TLeaf v => if is_nest_module v then Some v else None
  | TList items => first_in (fun t' => first_unresolved t') items
  | TDict entries =>
      first_in (fun e : string * tree => first_unresolved (snd e)) entries
  end.

(** The document
    [{"_var": {"a": {"x": 1}}, "c": {"_var": {"a": {"y": 2}}}}] at address
    7, with an empty environment at 0 and empty global variables at 1. *)
Definition shared_doc : heap :=
  [ ODict []; ODict [];
    ODict [("x", VInt 1)]; ODict [("a", VRef 2)];
    ODict [("y", VInt 2)]; ODict [("a", VRef 4)];
    ODict [("_var", VRef 5)];
    ODict [("_var", VRef 3); ("c", VRef 6)] ].

(** The store after resolving [shared_doc]: the dict at address 2 has
    gained the key [y]. *)
Definition shared_doc_after : heap :=
  [ ODict []; ODict [("a", VRef 2)];
    ODict [("x", VInt 1); ("y", VInt 2)]; ODict [("a", VRef 2)];
    ODict [("y", VInt 2)]; ODict [("a", VRef 4)];
    ODict [("_var", VRef 5)];
    ODict [("_var", VRef 3); ("c", VRef 6)] ].

Definition shared_doc_tree : tree :=
  TDict [("_var", TDict [("a", TDict [("x", TLeaf (VInt 1))])]);
         ("c", TDict [("_var", TDict [("a", TDict [("y", TLeaf (VInt 2))])])])].

Definition shared_doc_resolved : tree :=
  TDict [("_var", TDict [("a", TDict [("x", TLeaf (VInt 1));
                                      ("y", TLeaf (VInt 2))])]);
         ("c", TDict [("_var", TDict [("a", TDict [("y", TLeaf (VInt 2))])])])].

Definition empty_signature : signature :=
  {| parameters := []; return_annotation := AClass C_empty |}.

(** The graph [[1, <module m>]] at address 0. *)
Definition unresolved_graph : heap :=
  [OList [VInt 1; VModule "m" empty_signature []]].

(** *** Invariants of the store

    [P] tells which values may be stored as an item of a container and [K]
    which keys a dict may have.  [heap_ok] says that every object of the
    store respects both; [grows h h'] that every dict at an address the
    items may not refer to keeps, in [h'], the keys it has in [h]. *)
Section StoreInvariant.
Variable P : value -> Prop.
Variable K : string -> Prop.

Definition entry_ok (kv : string * value) : Prop := K (fst kv) /\ P (snd kv).

Definition obj_ok (o : obj) : Prop :=
  match o with
  | OList l => Forall P l
  | OSet l => Forall P l
  | ODict d => Forall entry_ok d
  end.

Definition heap_ok (h : heap) : Prop := Forall obj_ok h.

Definition keeps_keys (g : addr) (h h' : heap) : Prop :=
  forall d, h !! g = Some (ODict d) ->
    exists d', h' !! g = Some (ODict d')
               /\ forall k, has_key d k = true -> has_key d' k = true.

Definition grows (h h' : heap) : Prop :=
  forall g, ~ P (VRef g) -> keeps_keys g h h'.

(** A computation that, when it returns, has kept the invariant, let the
    protected dicts grow, and returned a result in [Q]. *)
Definition preserves {A} (m : M A) (Q : A -> Prop) : Prop :=
  forall h a h', heap_ok h -> m h = Ok (a, h') ->
    heap_ok h' /\ grows h h' /\ Q a.

End StoreInvariant.

(** A Deferred Module Instance. *)
Definition is_deferred (v : value) : bool :=
  match v with
  | VModule _ _ _ => true
  | _ => false
  end.

(** No container of the store holds a Deferred Module Instance, and no
    dict has the key [delay_resolve]. *)
Definition plain_store (h : heap) : Prop :=
  heap_ok (fun v => is_deferred v = false) (fun k => k <> "delay_resolve") h.

(** The constructors of the registry return a terminal value when none of
    their arguments is deferred. *)
Definition terminal_constructors (reg : registry) : Prop :=
  forall id m kwargs v,
    find_module reg id = Some m ->
    Forall (fun kv : string * value => is_deferred (snd kv) = false) kwargs ->
    construct m kwargs = Ok v ->
    is_deferred v = false.

Definition strict_settings : Settings :=
  {| VARIABLE_PREFIX := "@"; PARSER_STRICT := true |}.

(** A registry with one module, [m], whose constructor returns an opaque
    instance. *)
Definition one_module : registry :=
  [("m", {| sig := empty_signature;
            construct := fun _ => Ok (VObject "instance") |})].

(** The document [[[{"_name": "m"}]]] at address 4: the module reference
    at address 2 is an item of the list at 3, itself an item of the list at
    4.  The environment is at 0 and the global variables at 1. *)
Definition nested_list_doc : heap :=
  [ODict []; ODict []; ODict [("_name", VStr "m")];
   OList [VRef 2]; OList [VRef 3]].

(** The document [{"_name": "m", "delay_resolve": true}] at address 2. *)
Definition flagged_doc : heap :=
  [ODict []; ODict [];
   ODict [("_name", VStr "m"); ("delay_resolve", VBool true)]].

(** The document [{"_name": "m", "k": 1}] at address 2. *)
Definition module_doc : heap :=
  [ODict []; ODict []; ODict [("_name", VStr "m"); ("k", VInt 1)]].

(** The iterations [idxs] of the loop of [run_tasks] over the list of
    parameters at [param_list]. *)
Definition sweep_iterations (settings : Settings) (module_manager : registry)
    (py_str yaml_format : heap -> value -> string) (fuel : nat)
    (config : value) (env_vars global_vars : addr) (param_list : addr)
    (idxs : list nat) : M unit :=
  for_each (fun idx =>
              let* l := read_list param_list in
              match l !! idx with
              | Some param =>
                  sweep_iteration settings module_manager py_str yaml_format
                    fuel config env_vars global_vars idx param
              | None => ret tt
              end) idxs.

(** No container of the store holds a reference to the object at [g]. *)
Definition unreferenced (g : addr) (h : heap) : Prop :=
  heap_ok (fun v => v <> VRef g) (fun _ => True) h.

(** The documents of a sweep over the learning rate: the environment at 0,
    the config [{"lr": "@lr"}] at 1, the parameters
    [[{"lr": 1}, {"seed": 2}]] at 4 and the global variables at 5. *)
Definition sweep_store : heap :=
  [ODict []; ODict [("lr", VStr "@lr")];
   ODict [("lr", VInt 1)]; ODict [("seed", VInt 2)];
   OList [VRef 2; VRef 3]; ODict []].

(** What the completion checker returns on a graph whose first Nest
    module, if any, is [found]. *)
Definition check_outcome (py_str : heap -> value -> string) (h : heap)
    (found : option value) : res (unit * heap) :=
  match found with
  | Some m =>
      Raise (RuntimeError
               ("Unresolved Nest module found in the result." +:+ newline
                  +:+ indent_text (py_str h m) 4))
  | None => Ok (tt, h)
  end.

(** The global variables of a sweep are a dict at [G]; [guarded] is
    [preserves] for computations that rely on it, with no container
    holding a reference to [G]. *)
Definition scope_at (G : addr) (h : heap) : Prop :=
  exists d, h !! G = Some (ODict d).

Definition guarded (G : addr) {A} (m : M A) (Q : A -> Prop) : Prop :=
  forall h a h', unreferenced G h -> scope_at G h -> m h = Ok (a, h') ->
    unreferenced G h' /\ grows (fun v => v <> VRef G) h h' /\ Q a.

(** No copy recorded in the memo of [deepcopy] is the object at [G]. *)
Definition memo_ok (G : addr) (memo : list (addr * addr)) : Prop :=
  forall a b, memo_get memo a = Some b -> b <> G.

(** [sweep_store] after the first iteration and after the second: each
    iteration has appended its resolved copy of the config. *)
Definition sweep_store_1 : heap :=
  [ODict [("PARAMS", VStr "")]; ODict [("lr", VStr "@lr")];
   ODict [("lr", VInt 1)]; ODict [("seed", VInt 2)];
   OList [VRef 2; VRef 3]; ODict [("lr", VInt 1)];
   ODict [("lr", VInt 1)]].

Definition sweep_store_2 : heap :=
  [ODict [("PARAMS", VStr "")]; ODict [("lr", VStr "@lr")];
   ODict [("lr", VInt 1)]; ODict [("seed", VInt 2)];
   OList [VRef 2; VRef 3]; ODict [("lr", VInt 1); ("seed", VInt 2)];
   ODict [("lr", VInt 1)]; ODict [("lr", VInt 1)]].

Definition no_text : heap -> value -> string := fun _ _ => EmptyString.

(** What a variable reference stands for in the tiers [g] (global) and [e]
    (environment). *)
Definition lookup_variable (g e : list (string * value)) (name : string)
  : option value :=
  match dict_get g (drop_first name) with
  | Some v => Some v
  | None => dict_get e (drop_first name)
  end.

(** A value after substitution: a variable reference is replaced by what
    it stands for, anything else stays. *)
Definition substituted (settings : Settings) (g e : list (string * value))
    (v : value) : value :=
  if is_variable settings v
  then match lookup_variable g e (str_of v) with
       | Some w => w
       | None => v
       end
  else v.

Definition substituted_entry (settings : Settings)
    (g e : list (string * value)) (kv : string * value) : string * value :=
  (fst kv, substituted settings g e (snd kv)).

(** An item of a flat container: a variable reference that the tiers
    resolve, or a value that is neither a list nor a dict. *)
Definition flat_item (settings : Settings) (h : heap)
    (g e : list (string * value)) (v : value) : Prop :=
  if is_variable settings v
  then lookup_variable g e (str_of v) <> None
  else list_addr h v = None /\ is_dict h v = false.

(** The document [{"a": "@net", "b": "@loop"}] at address 3, the global
    variables [{"net": {"_name": "m"}, "loop": "@loop"}] at 1, whose entry
    [net] is the dict at address 2, and an empty environment at 0. *)
Definition substitution_doc : heap :=
  [ODict [];
   ODict [("net", VRef 2); ("loop", VStr "@loop")];
   ODict [("_name", VStr "m")];
   ODict [("a", VStr "@net"); ("b", VStr "@loop")]].

(** *** Mappings as [merge_dict] sees them

    A dict with its values; a value that is not a dict is a leaf, taken as
    it is (a list is replaced as a whole, never merged). *)
Inductive mapping :=
| Leaf (v : value)
| Mapping (entries : list (string * mapping)).

Section MergeEntries.
Variable merge_value : mapping -> mapping -> mapping.

(** The entries of the difference are taken in order; each is stored
    under its key, merged with the value the key has so far if any. *)
Fixpoint merge_entries (diff acc : list (string * mapping))
  : list (string * mapping) :=
  match diff with
  | [] => acc
  | (k, dv) :: diff' =>
      merge_entries diff'
        (dict_set acc k
           (match dict_get acc k with
            | Some sv => merge_value dv sv
            | None => dv
            end))
  end.

End MergeEntries.

(** The union-merge of a difference into a source: two mappings merge key
    by key; in every other case the value of the difference stands. *)
Fixpoint union_merge (diff src : mapping) {struct diff} : mapping :=
  match diff, src with
  | Mapping dd, Mapping ss =>
      Mapping (merge_entries (fun dv sv => union_merge dv sv) dd ss)
  | _, _ => diff
  end.

(** No dict of the mapping has a key twice. *)
Fixpoint keys_unique (t : mapping) : bool :=
  match t with
  | Leaf _ => true
  | Mapping es =>
      bool_decide (NoDup (dict_keys es))
      && forallb (fun kv : string * mapping => keys_unique (snd kv)) es
  end.

(** The mapping a value stands for in the store, with the addresses of the
    dicts it is made of, parents before children, left to right. *)
Fixpoint reify_entries (rec : value -> option (mapping * list addr))
    (d : list (string * value))
  : option (list (string * mapping) * list addr) :=
  match d with
  | [] => Some ([], [])
  | (k, v) :: d' =>
      match rec v, reify_entries rec d' with
      | Some (t, f), Some (ts, fs) => Some ((k, t) :: ts, f ++ fs)
      | _, _ => None
      end
  end.

Fixpoint reify_mapping (fuel : nat) (h : heap) (v : value)
  : option (mapping * list addr) :=
  match fuel with
  | 0 => None
  | S fuel' =>
      match v with
      | VRef a =>
          match h !! a with
          | Some (ODict d) =>
              match reify_entries (reify_mapping fuel' h) d with
              | Some (ts, fs) => Some (Mapping ts, a :: fs)
              | None => None
              end
          | _ => Some (Leaf v, [])
          end
      | _ => Some (Leaf v, [])
      end
  end.

(** [h'] differs from [h] at most at the addresses [w]. *)
Definition changed_only_in (w : list addr) (h h' : heap) : Prop :=
  forall a, a ∈ w \/ h' !! a = h !! a.

(** The source [{"a": 1}] at address 0 and the difference [{"a": 2}] at
    address 1. *)
Definition collision_store : heap :=
  [ODict [("a", VInt 1)]; ODict [("a", VInt 2)]].

(** The source [{"opt": {"lr": 1, "wd": 0}, "seed": 7}] at address 1 and
    the difference [{"opt": {"lr": 2}, "tag": "x"}] at address 3. *)
Definition merge_store : heap :=
  [ODict [("lr", VInt 1); ("wd", VInt 0)];
   ODict [("opt", VRef 0); ("seed", VInt 7)];
   ODict [("lr", VInt 2)];
   ODict [("opt", VRef 2); ("tag", VStr "x")]].


(** The document [{"x": "@missing"}] at address 2, with an empty
    environment at 0 and empty global variables at 1. *)
Definition missing_doc : heap :=
  [ODict []; ODict []; ODict [("x", VStr "@missing")]].

(** ** Unique ids of [nest/utils.py] *)

(** The two settings that [encode_id] and [decode_id] read. *)
Record NamespaceSettings := {
  NAMESPACE_SEP : string;
  NAMESPACE_ORDER_REVERSE : bool
}.

(** The defaults of [nest/settings.py]. *)
Definition default_namespace_settings : NamespaceSettings :=
  {| NAMESPACE_SEP := "."; NAMESPACE_ORDER_REVERSE := false |}.

(** [s.split(sep)] for a non-empty [sep]: [s] is scanned from the left and
    every occurrence of [sep] that does not overlap the one before it ends a
    piece.  [skip] counts the characters of the separator just matched that
    are still to be passed over. *)
Fixpoint split_from (sep : string) (skip : nat) (s : string) : list string :=
  match s with
  | EmptyString => [EmptyString]
  | String c s' =>
      match skip with
      | S n => split_from sep n s'
      | 0 =>
          if String.prefix sep s
          then EmptyString :: split_from sep (String.length sep - 1) s'
          else match split_from sep 0 s' with
               | piece :: pieces => String c piece :: pieces
               | [] => [String c EmptyString]
               end
      end
  end.

(** [s.split(sep)]; an empty separator is refused. *)
Definition str_split (s sep : string) : res (list string) :=
  if String.eqb sep EmptyString then Raise (ValueError "empty separator")
  else Ok (split_from sep 0 s).

Definition encode_id (st : NamespaceSettings) (namespace key : string)
  : string :=
  if NAMESPACE_ORDER_REVERSE st
  then (key +:+ NAMESPACE_SEP st) +:+ namespace
  else (namespace +:+ NAMESPACE_SEP st) +:+ key.

(** [decode_id]: the pieces of the id, in reverse when the namespace is
    written behind the key. *)
Definition decode_id (st : NamespaceSettings) (unique_id : string)
  : res (list string) :=
  match str_split unique_id (NAMESPACE_SEP st) with
  | Ok parts => Ok (if NAMESPACE_ORDER_REVERSE st then rev parts else parts)
  | Raise e => Raise e
  | OutOfFuel => OutOfFuel
  end.

(** [sep in t] *)
Fixpoint occursb (sep t : string) : bool :=
  String.prefix sep t
  || match t with
     | EmptyString => false
     | String _ t' => occursb sep t'
     end.

(** [s[:-1]] *)
Fixpoint drop_last (s : string) : string :=
  match s with
  | EmptyString => EmptyString
  | String c EmptyString => EmptyString
  | String c s' => String c (drop_last s')
  end.

(** The character [c] is one of the characters of [s]. *)
Definition has_char (c : ascii) (s : string) : Prop :=
  In c (list_ascii_of_string s).

(** ** [merge_dict] without [union] *)

(** The entries of the difference taken in order: the value of a key that
    the accumulated entries have is merged into theirs by [union_merge]; a
    key they do not have is passed over. *)
Fixpoint update_entries (diff acc : list (string * mapping))
  : list (string * mapping) :=
  match diff with
  | [] => acc
  | (k, dv) :: diff' =>
      update_entries diff'
        (match dict_get acc k with
         | Some sv => dict_set acc k (union_merge dv sv)
         | None => acc
         end)
  end.

(** The document [{"_name": "", "lr": "@lr"}] at address 2, with an empty
    environment at 0 and the global variables [{"lr": 3}] at 1. *)
Definition unnamed_doc : heap :=
  [ODict []; ODict [("lr", VInt 3)];
   ODict [("_name", VStr EmptyString); ("lr", VStr "@lr")]].

(** The document [{"a": "@lr", "b": "@x", "c": "@y"}] at address 2, with an
    empty environment at 0 and the global variables [{"lr": 3}] at 1. *)
Definition two_missing_doc : heap :=
  [ODict []; ODict [("lr", VInt 3)];
   ODict [("a", VStr "@lr"); ("b", VStr "@x"); ("c", VStr "@y")]].


(** ** [indent_text] with the indent as an [int] *)

(** [indent_text] for any integer: [' ' * indent] is the empty string when
    [indent] is negative. *)
Definition indent_text_int (text : string) (indent : Z) : string :=
  indent_text text (Z.to_nat indent).

(** * Properties *)

(** ** Variable resolution *)

(** C1. A variable reference resolves to the value the global variables
    hold for the name without its first character; failing that, to the
    value the environment holds for it; failing both, [TypeError] is raised
    with a message that quotes the reference.  Resolving
    [{"x": "@missing"}] against empty tiers raises it, quoting
    ["@missing"]. *)
Theorem resolve_variable_tiers :
  forall (h : heap) (env_vars global_vars : addr)
         (g e : list (string * value)) (name : string),
    h !! global_vars = Some (ODict g) ->
    h !! env_vars = Some (ODict e) ->
    (forall v, dict_get g (drop_first name) = Some v ->
       resolve_variable env_vars global_vars name h = Ok (v, h))
    /\ (forall v, dict_get g (drop_first name) = None ->
          dict_get e (drop_first name) = Some v ->
          resolve_variable env_vars global_vars name h = Ok (v, h))
    /\ (dict_get g (drop_first name) = None ->
        dict_get e (drop_first name) = None ->
        resolve_variable env_vars global_vars name h
        = Raise (TypeError
                   ("Could not resolve variable " +:+ dquote +:+ name
                      +:+ dquote +:+ ".")))
    /\ (forall reg fuel,
          drop_first "@missing" = "missing"
          /\ parse_config default_settings reg (S fuel) (VRef 2) 0 1 missing_doc
             = Raise (TypeError
                        ("Could not resolve variable " +:+ dquote
                           +:+ "@missing" +:+ dquote +:+ "."))).
Proof.
  intros h env_vars global_vars g e name Hg He.
  unfold resolve_variable, bind, read_dict, ret, raise.
  rewrite Hg.
  split; [| split; [| split]].
  - intros v Hv. now rewrite Hv.
  - intros v Hn Hv. now rewrite Hn, He, Hv.
  - intros Hn1 Hn2. now rewrite Hn1, He, Hn2.
  - intros reg fuel. split; [reflexivity |].
    destruct fuel; reflexivity.
Qed.

Lemma resolve_variable_tiers_witness :
  resolve_variable 0 1 "@lr"
    [ODict [("lr", VInt 1)]; ODict [("lr", VInt 2)]]
  = Ok (VInt 2, [ODict [("lr", VInt 1)]; ODict [("lr", VInt 2)]]).
Proof.
  apply (proj1 (resolve_variable_tiers
                  [ODict [("lr", VInt 1)]; ODict [("lr", VInt 2)]] 0 1
                  [("lr", VInt 2)] [("lr", VInt 1)] "@lr"
                  eq_refl eq_refl)).
  reflexivity.
Defined.

(** ** The type matcher *)

Section QuantifierFacts.
Context {X Y : Type}.
Variable f : X -> res bool.
Variable f2 : X -> Y -> res bool.

Lemma all_map_true (xs : list X) :
  all_map f xs = Ok true <-> Forall (fun x => f x = Ok true) xs.
Proof.
  induction xs as [|x xs IH]; simpl.
  - split; [constructor | reflexivity].
  - destruct (f x) as [[|]| |] eqn:E.
    + rewrite IH. split.
      * intros H. now constructor.
      * intros H. now inversion H.
    + split; [discriminate | intros H; inversion H; congruence].
    + split; [discriminate | intros H; inversion H; congruence].
    + split; [discriminate | intros H; inversion H; congruence].
Qed.

Lemma all_map_total (xs : list X) :
  Forall (fun x => exists b, f x = Ok b) xs -> exists b, all_map f xs = Ok b.
Proof.
  induction 1 as [|x xs [b Hb] _ IH]; simpl.
  - now exists true.
  - rewrite Hb. destruct b; [exact IH | now exists false].
Qed.

Lemma any_map_true (xs : list X) :
  Forall (fun x => exists b, f x = Ok b) xs ->
  (any_map f xs = Ok true <-> Exists (fun x => f x = Ok true) xs).
Proof.
  induction 1 as [|x xs [b Hb] _ IH]; simpl.
  - split; [discriminate | intros H; inversion H].
  - rewrite Hb. destruct b.
    + split; [intros _; now left | reflexivity].
    + rewrite IH. split.
      * intros H. now right.
      * intros H. inversion H; subst; [congruence | assumption].
Qed.

Lemma any_map_total (xs : list X) :
  Forall (fun x => exists b, f x = Ok b) xs -> exists b, any_map f xs = Ok b.
Proof.
  induction 1 as [|x xs [b Hb] _ IH]; simpl.
  - now exists false.
  - rewrite Hb. destruct b; [now exists true | exact IH].
Qed.

Lemma all_map2_true (xs : list X) (ys : list Y) :
  length xs = length ys ->
  (all_map2 f2 xs ys = Ok true
   <-> Forall2 (fun x y => f2 x y = Ok true) xs ys).
Proof.
  revert ys. induction xs as [|x xs IH]; intros [|y ys] Hlen;
    simpl in *; try discriminate.
  - split; [constructor | reflexivity].
  - injection Hlen as Hlen.
    destruct (f2 x y) as [[|]| |] eqn:E.
    + rewrite (IH ys Hlen). split.
      * intros H. now constructor.
      * intros H. now inversion H.
    + split; [discriminate | intros H; inversion H; congruence].
    + split; [discriminate | intros H; inversion H; congruence].
    + split; [discriminate | intros H; inversion H; congruence].
Qed.

Lemma all_map2_total (xs : list X) (ys : list Y) :
  Forall (fun x => forall y, exists b, f2 x y = Ok b) xs ->
  exists b, all_map2 f2 xs ys = Ok b.
Proof.
  intros H. revert ys.
  induction H as [|x xs Hx _ IH]; intros ys; simpl.
  - now exists true.
  - destruct ys as [|y ys]; [now exists true |].
    destruct (Hx y) as [b Hb]. rewrite Hb.
    destruct b; [apply IH | now exists false].
Qed.

End QuantifierFacts.

Lemma pyclass_eqb_eq (c1 c2 : pyclass) : pyclass_eqb c1 c2 = true <-> c1 = c2.
Proof.
  destruct c1, c2; simpl; try (split; [discriminate | discriminate]);
    try (split; reflexivity).
  rewrite String.eqb_eq. split; congruence.
Qed.

Lemma list_eqb_eq {A} (eqb : A -> A -> bool) (xs : list A) :
  Forall (fun x => forall y, eqb x y = true <-> x = y) xs ->
  forall ys, list_eqb eqb xs ys = true <-> xs = ys.
Proof.
  induction 1 as [|x xs Hx _ IH]; intros [|y ys]; simpl;
    try (split; [discriminate | discriminate]).
  - split; reflexivity.
  - rewrite andb_true_iff, Hx, IH. split.
    + intros [-> ->]. reflexivity.
    + intros H. now injection H.
Qed.

Lemma args_eqb_eq {A} (eqb : A -> A -> bool) (ox oy : option (list A)) :
  match ox with
  | None => True
  | Some xs => Forall (fun x => forall y, eqb x y = true <-> x = y) xs
  end ->
  args_eqb eqb ox oy = true <-> ox = oy.
Proof.
  destruct ox as [xs|], oy as [ys|]; simpl; intros H;
    try (split; [discriminate | discriminate]).
  - rewrite (list_eqb_eq eqb xs H ys). split; congruence.
  - split; reflexivity.
Qed.

Lemma forallb_free_Forall (xs : list Annotation) :
  forallb union_free xs = true -> Forall (fun x => union_free x = true) xs.
Proof.
  intros H. apply List.Forall_forall. intros x Hx.
  now apply (proj1 (List.forallb_forall union_free xs) H).
Qed.

(** Without a [Union] inside, equal annotations are the same annotation. *)
Lemma annotation_eqb_plain (x : Annotation) :
  union_free x = true -> forall y, annotation_eqb x y = true <-> x = y.
Proof.
  assert (Hargs : forall o : option (list Annotation),
             args_all (fun x => union_free x = true ->
                         forall y, annotation_eqb x y = true <-> x = y) o ->
             match o with
             | None => true
             | Some xs => forallb union_free xs
             end = true ->
             forall o', args_eqb annotation_eqb o o' = true <-> o = o').
  { intros o IH Hfree o'. apply args_eqb_eq.
    destruct o as [xs|]; [| exact I]. simpl in IH.
    apply forallb_free_Forall in Hfree.
    rewrite List.Forall_forall in *. intros a Ha. auto. }
  induction x using Annotation_nested_ind; intros Hfree y; destruct y;
    try (simpl; split; [discriminate | discriminate]);
    try (simpl; split; reflexivity);
    try discriminate.
  - simpl. rewrite pyclass_eqb_eq. split; congruence.
  - change (args_eqb annotation_eqb o args = true <-> AList o = AList args).
    rewrite (Hargs o H Hfree). split; congruence.
  - change (args_eqb annotation_eqb o args = true <-> ASet o = ASet args).
    rewrite (Hargs o H Hfree). split; congruence.
  - change (args_eqb annotation_eqb o args = true
            <-> AIterable o = AIterable args).
    rewrite (Hargs o H Hfree). split; congruence.
  - change (args_eqb annotation_eqb o args = true
            <-> AIterator o = AIterator args).
    rewrite (Hargs o H Hfree). split; congruence.
  - change (args_eqb annotation_eqb o args = true <-> ATuple o = ATuple args).
    rewrite (Hargs o H Hfree). split; congruence.
  - change (args_eqb annotation_eqb o args = true <-> ADict o = ADict args).
    rewrite (Hargs o H Hfree). split; congruence.
  - change (args_eqb annotation_eqb o args = true
            <-> ACallable o = ACallable args).
    rewrite (Hargs o H Hfree). split; congruence.
  - simpl. rewrite String.eqb_eq. split; congruence.
Qed.

(** Two [Union]s are equal when each alternative of either is equal to one
    of the other. *)
Lemma annotation_eqb_union (xs ys : list Annotation) :
  annotation_eqb (AUnion (Some xs)) (AUnion (Some ys)) = true
  <-> (forall a, In a xs -> exists b, In b ys /\ annotation_eqb a b = true)
      /\ (forall b, In b ys -> exists a, In a xs /\ annotation_eqb a b = true).
Proof.
  change (annotation_eqb (AUnion (Some xs)) (AUnion (Some ys)))
    with (set_eqb annotation_eqb xs ys).
  unfold set_eqb. rewrite andb_true_iff, !List.forallb_forall.
  split; intros [H1 H2]; split; intros a Ha.
  - apply List.existsb_exists. now apply H1.
  - apply List.existsb_exists. now apply H2.
  - apply List.existsb_exists. now apply H1.
  - apply List.existsb_exists. now apply H2.
Qed.

Lemma annotation_eqb_constant (x c : Annotation) :
  c = AAny \/ c = ANone \/ (exists k, c = AClass k) ->
  (annotation_eqb x c = true <-> x = c).
Proof.
  intros [-> | [-> | [k ->]]]; destruct x; simpl;
    try (split; [discriminate | discriminate]);
    try (split; reflexivity).
  rewrite pyclass_eqb_eq. split; congruence.
Qed.

Lemma all_eq_prefix (xs params : list Annotation) (ret : Annotation) :
  length xs = length params ->
  (all_eq xs (params ++ [ret]) = true <-> Forall2 type_equal xs params).
Proof.
  revert params. induction xs as [|x xs IH]; intros [|p params] Hlen;
    simpl in *; try discriminate.
  - split; [constructor | reflexivity].
  - injection Hlen as Hlen.
    rewrite andb_true_iff, (IH params Hlen). split.
    + intros [Hx Hxs]. now constructor.
    + intros H. inversion H; subst. now split.
Qed.

Lemma and_then_true (x y : res bool) :
  and_then x y = Ok true <-> x = Ok true /\ y = Ok true.
Proof.
  destruct x as [[|]| |]; simpl; split; try tauto; try discriminate;
    intros [? ?]; try discriminate; assumption.
Qed.

(** C3. The container and union rules of the matcher.  A value matches
    [List[elem]] (resp. [Set[elem]]) iff it is a list (resp. a set) and
    every member matches [elem]; it matches the bare alias iff it is of the
    container kind.  It matches [Tuple[elems]] iff it is a tuple of the same
    length whose items match position by position.  It matches
    [Dict[key, val]] iff it is a dict each of whose keys matches [key] and
    values [val].  Where every alternative evaluates to a boolean, it
    matches [Union[alts]] iff it matches some alternative.  The four rows
    of the table evaluate as stated. *)
Theorem container_and_union_rules :
  forall (h : heap) (v : value),
    (forall elem,
        is_annotation_matched h v (AList (Some [elem])) = Ok true
        <-> exists a items, v = VRef a /\ h !! a = Some (OList items)
              /\ Forall (fun x => is_annotation_matched h x elem = Ok true)
                   items)
    /\ (is_annotation_matched h v (AList None) = Ok true
        <-> exists a items, v = VRef a /\ h !! a = Some (OList items))
    /\ (forall elem,
        is_annotation_matched h v (ASet (Some [elem])) = Ok true
        <-> exists a items, v = VRef a /\ h !! a = Some (OSet items)
              /\ Forall (fun x => is_annotation_matched h x elem = Ok true)
                   items)
    /\ (is_annotation_matched h v (ASet None) = Ok true
        <-> exists a items, v = VRef a /\ h !! a = Some (OSet items))
    /\ (forall elems,
        is_annotation_matched h v (ATuple (Some elems)) = Ok true
        <-> exists items, v = VTuple items /\ length items = length elems
              /\ Forall2 (fun x y => is_annotation_matched h x y = Ok true)
                   items elems)
    /\ (forall key_anno val_anno,
        is_annotation_matched h v (ADict (Some [key_anno; val_anno])) = Ok true
        <-> exists a entries, v = VRef a /\ h !! a = Some (ODict entries)
              /\ Forall (fun kv : string * value =>
                           is_annotation_matched h (VStr (fst kv)) key_anno
                           = Ok true
                           /\ is_annotation_matched h (snd kv) val_anno
                              = Ok true) entries)
    /\ (forall alts,
        Forall (fun y => exists b, is_annotation_matched h v y = Ok b) alts ->
        (is_annotation_matched h v (AUnion (Some alts)) = Ok true
         <-> Exists (fun y => is_annotation_matched h v y = Ok true) alts))
    /\ is_annotation_matched table_heap (VRef 0) (AList (Some [AClass C_int]))
       = Ok true
    /\ is_annotation_matched table_heap (VRef 1) (AList (Some [AClass C_int]))
       = Ok false
    /\ is_annotation_matched table_heap (VRef 2)
         (ADict (Some [AClass C_str; AClass C_int])) = Ok true
    /\ is_annotation_matched table_heap (VInt 3)
         (AUnion (Some [AClass C_int; AClass C_str])) = Ok true.
Proof.
  intros h v.
  repeat match goal with |- _ /\ _ => split end; try reflexivity.
  - intros elem. simpl.
    destruct v; try (split; [discriminate | intros (? & ? & ? & _); discriminate]).
    destruct (h !! a) as [[l|l|d]|] eqn:Ha;
      try (split; [discriminate
                  | intros (? & ? & E & Hl & _); injection E as <-; congruence]).
    rewrite all_map_true. split.
    + intros H. exists a, l. auto.
    + intros (a' & l' & E & Hl & H). injection E as <-. congruence.
  - simpl.
    destruct v; try (split; [discriminate | intros (? & ? & ? & _); discriminate]).
    destruct (h !! a) as [[l|l|d]|] eqn:Ha;
      try (split; [discriminate
                  | intros (? & ? & E & Hl); injection E as <-; congruence]).
    split; [intros _; exists a, l; auto | reflexivity].
  - intros elem. simpl.
    destruct v; try (split; [discriminate | intros (? & ? & ? & _); discriminate]).
    destruct (h !! a) as [[l|l|d]|] eqn:Ha;
      try (split; [discriminate
                  | intros (? & ? & E & Hl & _); injection E as <-; congruence]).
    rewrite all_map_true. split.
    + intros H. exists a, l. auto.
    + intros (a' & l' & E & Hl & H). injection E as <-. congruence.
  - simpl.
    destruct v; try (split; [discriminate | intros (? & ? & ? & _); discriminate]).
    destruct (h !! a) as [[l|l|d]|] eqn:Ha;
      try (split; [discriminate
                  | intros (? & ? & E & Hl); injection E as <-; congruence]).
    split; [intros _; exists a, l; auto | reflexivity].
  - intros elems. simpl.
    destruct v; try (split; [discriminate | intros (? & ? & _); discriminate]).
    destruct (Nat.eqb (length elems) (length items)) eqn:Hlen; simpl.
    + apply Nat.eqb_eq in Hlen.
      rewrite (all_map2_true _ elems items Hlen). split.
      * intros H. exists items. repeat split; auto.
        now apply Forall2_flip.
      * intros (items' & E & _ & H). injection E as <-.
        now apply Forall2_flip.
    + apply Nat.eqb_neq in Hlen. split; [discriminate |].
      intros (items' & E & Hl & _). injection E as <-. congruence.
  - intros key_anno val_anno. simpl.
    destruct v; try (split; [discriminate | intros (? & ? & ? & _); discriminate]).
    destruct (h !! a) as [[l|l|d]|] eqn:Ha;
      try (split; [discriminate
                  | intros (? & ? & E & Hl & _); injection E as <-; congruence]).
    rewrite all_map_true. split.
    + intros H. exists a, d. repeat split; auto.
      eapply Forall_impl; [exact H |].
      intros kv Hkv. now apply and_then_true.
    + intros (a' & d' & E & Hl & H). injection E as <-.
      assert (d' = d) as -> by congruence.
      eapply Forall_impl; [exact H |].
      intros kv Hkv. now apply and_then_true.
  - intros alts Halts. simpl. now apply any_map_true.
Qed.

Lemma container_and_union_rules_witness :
  Exists (fun y => is_annotation_matched [] (VInt 3) y = Ok true)
    [AClass C_str; AClass C_int].
Proof.
  destruct (container_and_union_rules [] (VInt 3))
    as (_ & _ & _ & _ & _ & _ & HU & _).
  apply (HU [AClass C_str; AClass C_int]).
  - repeat constructor; eexists; reflexivity.
  - reflexivity.
Defined.

(** C4, as the code has it.  A value matches [Callable[params, ret]] iff it
    is callable, the annotations of its effective parameters are as many as
    [params] and equal to them position by position, and [ret] is [Any], or
    [ret] is [object], or [ret] is equal to the declared return annotation,
    or the declared return annotation is [None] and [ret] is [NoneType].
    Equal is what [==] makes of two annotations: the same annotation where
    no [Union] is involved, and for two [Union]s that each alternative of
    either is equal to one of the other, so that [f(x: Union[int, str]) ->
    bool] matches [Callable[[Union[str, int]], bool]].  The effective
    parameters of a Nest module are those of its signature that are neither
    bound nor optional; those of any other callable are all of its
    signature. *)
Theorem callable_rule :
  forall (h : heap) (var : value) (params : list Annotation) (ret : Annotation),
    (is_annotation_matched h var (ACallable (Some (params ++ [ret]))) = Ok true
     <-> callable var = true
         /\ Forall2 type_equal (func_annos var) params
         /\ (ret = AAny
             \/ ret = AClass C_object
             \/ type_equal (return_annotation (sig_of var)) ret
             \/ (return_annotation (sig_of var) = ANone
                 /\ ret = AClass C_NoneType)))
    /\ (forall x y, union_free x = true -> (type_equal x y <-> x = y))
    /\ (forall xs ys,
          type_equal (AUnion (Some xs)) (AUnion (Some ys))
          <-> (forall a, In a xs -> exists b, In b ys /\ type_equal a b)
              /\ (forall b, In b ys -> exists a, In a xs /\ type_equal a b))
    /\ is_annotation_matched h takes_union
         (ACallable (Some ([AUnion (Some [AClass C_str; AClass C_int])]
                             ++ [AClass C_bool]))) = Ok true
    /\ (forall name sig bound,
          func_annos (VModule name sig bound)
          = map p_annotation
              (filter (fun p => negb (has_key bound (p_name p))
                                && negb (p_has_default p)) (parameters sig)))
    /\ (forall sig, func_annos (VCallable sig)
                    = map p_annotation (parameters sig)).
Proof.
  intros h var params ret.
  split; [| split; [| split; [| split; [| split]]]];
    [| intros x y Hx; now apply annotation_eqb_plain
     | intros xs ys; apply annotation_eqb_union
     | reflexivity | reflexivity | reflexivity].
  simpl. destruct (callable var) eqn:Hc.
  2: { split; [discriminate | intros [? _]; discriminate]. }
  rewrite length_app. simpl.
  destruct (Nat.eqb (length (func_annos var) + 1) (length params + 1)) eqn:Hlen.
  - apply Nat.eqb_eq in Hlen.
    assert (Hl : length (func_annos var) = length params) by lia.
    rewrite last_last.
    assert (Hany : annotation_eqb ret AAny = true <-> ret = AAny).
    { apply annotation_eqb_constant. now left. }
    assert (Hobj : annotation_eqb ret (AClass C_object) = true
                   <-> ret = AClass C_object).
    { apply annotation_eqb_constant. right. right. now eexists. }
    assert (Hnone : annotation_eqb (return_annotation (sig_of var)) ANone = true
                    <-> return_annotation (sig_of var) = ANone).
    { apply annotation_eqb_constant. right. now left. }
    assert (Hnt : annotation_eqb ret (AClass C_NoneType) = true
                  <-> ret = AClass C_NoneType).
    { apply annotation_eqb_constant. right. right. now eexists. }
    unfold type_equal at 2.
    split.
    + intros H. injection H as H.
      apply andb_true_iff in H as [Hall Hret].
      apply (all_eq_prefix _ _ ret Hl) in Hall.
      repeat split; auto.
      repeat rewrite orb_true_iff in Hret.
      rewrite andb_true_iff in Hret. tauto.
    + intros (_ & Hall & Hret).
      f_equal. apply andb_true_iff. split.
      * now apply (all_eq_prefix _ _ ret Hl).
      * repeat rewrite orb_true_iff. rewrite andb_true_iff. tauto.
  - apply Nat.eqb_neq in Hlen. split; [discriminate |].
    intros (_ & Hall & _). apply Forall2_length in Hall. lia.
Qed.

(** C4 as stated fails twice.  A function declared to return [int] matches
    [Callable[[], object]], while [object] is neither [Any] nor the declared
    return annotation, and the declared annotation is not unset.  And a
    function without a return annotation does not match [Callable[[], None]],
    whose last argument [typing] makes [NoneType], although its return type
    is unset and [ret] is [None]: the code asks for a return annotation that
    is [None], not for a missing one. *)
Lemma callable_rule_counterexample :
  (is_annotation_matched [] returns_int
     (ACallable (Some ([] ++ [AClass C_object]))) = Ok true
   /\ ~ (callable returns_int = true
         /\ func_annos returns_int = []
         /\ (AClass C_object = AAny
             \/ return_annotation (sig_of returns_int) = AClass C_object
             \/ ((return_annotation (sig_of returns_int) = ANone
                  \/ return_annotation (sig_of returns_int) = AClass C_empty)
                 /\ (AClass C_object = ANone
                     \/ AClass C_object = AClass C_NoneType)))))
  /\ (is_annotation_matched [] unannotated
        (ACallable (Some ([] ++ [AClass C_NoneType]))) = Ok false
      /\ callable unannotated = true
      /\ func_annos unannotated = []
      /\ return_annotation (sig_of unannotated) = AClass C_empty).
Proof.
  split.
  - split; [reflexivity |].
    intros (_ & _ & [H | [H | [[H | H] _]]]); discriminate.
  - repeat split.
Qed.

Lemma supported_total (a : Annotation) :
  supported a = true ->
  forall h var, exists b, is_annotation_matched h var a = Ok b.
Proof.
  induction a using Annotation_nested_ind; intros Hs h var;
    try discriminate; try (simpl; eauto; fail).
  - (* List *)
    destruct o as [[|elem [|]]|]; try discriminate; simpl in *.
    + destruct var; eauto. destruct (h !! a) as [[l|l|d]|]; eauto.
      apply all_map_total. apply List.Forall_forall. intros x _.
      inversion H; subst. auto.
    + destruct var; eauto. destruct (h !! a) as [[l|l|d]|]; eauto.
  - (* Set *)
    destruct o as [[|elem [|]]|]; try discriminate; simpl in *.
    + destruct var; eauto. destruct (h !! a) as [[l|l|d]|]; eauto.
      apply all_map_total. apply List.Forall_forall. intros x _.
      inversion H; subst. auto.
    + destruct var; eauto. destruct (h !! a) as [[l|l|d]|]; eauto.
  - (* Tuple *)
    destruct o as [elems|]; simpl in *.
    + destruct var; eauto.
      destruct (negb (Nat.eqb (length elems) (length items))); eauto.
      apply all_map2_total.
      rewrite List.forallb_forall in Hs.
      rewrite List.Forall_forall in H. apply List.Forall_forall.
      intros y Hy x. apply H; auto.
    + destruct var; eauto.
  - (* Dict *)
    destruct o as [[|key_anno [|val_anno [|]]]|]; try discriminate;
      simpl in *.
    + destruct var; eauto. destruct (h !! a) as [[l|l|d]|]; eauto.
      apply andb_true_iff in Hs as [Hk Hv].
      inversion H as [|? ? Pk H']; subst. inversion H' as [|? ? Pv _]; subst.
      apply all_map_total. apply List.Forall_forall. intros x _.
      destruct (Pk Hk h (VStr (fst x))) as [bk Ek].
      destruct (Pv Hv h (snd x)) as [bv Ev].
      rewrite Ek, Ev. destruct bk; simpl; eauto.
    + destruct var; eauto. destruct (h !! a) as [[l|l|d]|]; eauto.
  - (* Union *)
    destruct o as [alts|]; simpl in *; eauto.
    apply any_map_total.
    rewrite List.forallb_forall in Hs.
    rewrite List.Forall_forall in H. apply List.Forall_forall.
    intros y Hy. apply H; auto.
  - (* Callable *)
    simpl. destruct (callable var); eauto.
    destruct o; eauto.
    destruct (Nat.eqb _ _); eauto.
Qed.

(** C5, at the input where the code departs from it, with what holds
    around it.  For an annotation the matcher interprets the result is a
    boolean; for an object that is no such annotation
    [NotImplementedError] is raised; and for the annotation [None] with a
    value other than [None] the code raises [NotImplementedError] too,
    where the claim asks for [False]. *)
Theorem none_annotation_raises :
  (forall h var a,
      supported a = true -> exists b, is_annotation_matched h var a = Ok b)
  /\ (forall h var text,
        is_annotation_matched h var (AOther text)
        = Raise (NotImplementedError
                   ("The annotation type " +:+ text +:+ " is not supported")))
  /\ (forall h, is_annotation_matched h VNone ANone = Ok true)
  /\ (forall h var,
        var <> VNone ->
        is_annotation_matched h var ANone
        = Raise (NotImplementedError
                   "The annotation type None is not supported"))
  /\ is_annotation_matched [] (VInt 3) ANone
     = Raise (NotImplementedError "The annotation type None is not supported").
Proof.
  split; [| split; [| split; [| split]]].
  - intros h var a Hs. now apply supported_total.
  - reflexivity.
  - reflexivity.
  - intros h var Hv. destruct var; try reflexivity. congruence.
  - reflexivity.
Qed.

Lemma none_annotation_raises_witness :
  is_annotation_matched [] (VStr "a") ANone
  = Raise (NotImplementedError "The annotation type None is not supported")
  /\ exists b, is_annotation_matched table_heap (VRef 0)
                 (AList (Some [AClass C_int])) = Ok b.
Proof.
  destruct none_annotation_raises as (Ht & _ & _ & Hn & _).
  split.
  - apply Hn. discriminate.
  - apply Ht. reflexivity.
Defined.

(** ** Identity on documents without modules and variables *)

(** C8, at an input where the code departs from it.  The document
    [{"_var": {"a": {"x": 1}}, "c": {"_var": {"a": {"y": 2}}}}] has no
    [_name] and no variable reference; resolved against empty tiers, in
    either mode and with any registry, its first [_var] mapping comes back
    with the key [y] added under [a]: the global variable [a] is the very
    dict of the document, and the second declaration is merged into it. *)
Theorem identity_broken_by_shared_globals :
  forall (reg : registry) (strict : bool) (fuel : nat),
    reify 5 shared_doc (VRef 7) = Some shared_doc_tree
    /\ parse_config {| VARIABLE_PREFIX := "@"; PARSER_STRICT := strict |}
         reg (4 + fuel) (VRef 7) 0 1 shared_doc
       = Ok (VRef 7, shared_doc_after)
    /\ reify 5 shared_doc_after (VRef 7) = Some shared_doc_resolved
    /\ shared_doc_resolved <> shared_doc_tree.
Proof.
  intros reg strict fuel.
  split; [reflexivity |]. split; [| split; [reflexivity | discriminate]].
  vm_compute. reflexivity.
Qed.

(** ** The completion checker *)

Lemma class_name_nest_module (h : heap) (v : value) :
  String.eqb (class_name (type_of h v)) "NestModule" = is_nest_module v.
Proof.
  destruct v; try reflexivity.
  simpl. destruct (h !! a) as [[l|l|d]|]; reflexivity.
Qed.

Lemma first_in_combine (keys : list string) (ts : list tree) :
  length keys = length ts ->
  first_in (fun e : string * tree => first_unresolved (snd e)) (combine keys ts)
  = first_in (fun t => first_unresolved t) ts.
Proof.
  revert ts. induction keys as [|k keys IH]; intros [|t ts] Hlen;
    simpl in *; try discriminate; try reflexivity.
  injection Hlen as Hlen. now rewrite (IH ts Hlen).
Qed.

Lemma reify_all_length (rec : value -> option tree) (vs : list value)
    (ts : list tree) :
  reify_all rec vs = Some ts -> length ts = length vs.
Proof.
  revert ts. induction vs as [|v vs IH]; intros ts; simpl.
  - intros [= <-]. reflexivity.
  - destruct (rec v); [| discriminate].
    destruct (reify_all rec vs) as [ts'|]; [| discriminate].
    intros [= <-]. simpl. now rewrite (IH ts').
Qed.

Section CheckerFacts.
Variable py_str : heap -> value -> string.

Local Abbreviation check_outcome := (check_outcome py_str).

Lemma check_each (fuel : nat) (h : heap) :
  (forall v t, reify fuel h v = Some t ->
     check_all_resolved py_str fuel v h
     = check_outcome h (first_unresolved t)) ->
  forall vs ts,
    reify_all (reify fuel h) vs = Some ts ->
    for_each (check_all_resolved py_str fuel) vs h
    = check_outcome h (first_in (fun t => first_unresolved t) ts).
Proof.
  intros IH vs. induction vs as [|v vs IHvs]; intros ts; simpl.
  - intros [= <-]. reflexivity.
  - destruct (reify fuel h v) as [t|] eqn:Hv; [| discriminate].
    destruct (reify_all (reify fuel h) vs) as [ts'|] eqn:Hvs; [| discriminate].
    intros [= <-]. simpl.
    unfold bind. rewrite (IH v t Hv).
    destruct (first_unresolved t); simpl; [reflexivity |].
    now apply IHvs.
Qed.

Lemma check_all_resolved_reified (fuel : nat) :
  forall h v t,
    reify fuel h v = Some t ->
    check_all_resolved py_str fuel v h = check_outcome h (first_unresolved t).
Proof.
  induction fuel as [|fuel IH]; intros h v t; [discriminate |].
  assert (Hleaf : forall v,
             list_addr h v = None -> dict_addr h v = None ->
             check_all_resolved py_str (S fuel) v h
             = check_outcome h (first_unresolved (TLeaf v))).
  { intros w Hl Hd. simpl. unfold bind, get_heap. rewrite Hl, Hd.
    unfold unresolved_module_message.
    rewrite class_name_nest_module. simpl.
    destruct (is_nest_module w); reflexivity. }
  destruct v; try (intros [= <-]; now apply Hleaf).
  simpl reify.
  destruct (h !! a) as [[l|l|d]|] eqn:Ha.
  - destruct (reify_all (reify fuel h) l) as [ts|] eqn:Hts; [| discriminate].
    intros [= <-].
    simpl. unfold bind, get_heap, read_list. rewrite Ha. simpl. rewrite Ha.
    apply check_each; [exact (IH h) | exact Hts].
  - intros [= <-]. apply Hleaf; simpl; now rewrite Ha.
  - destruct (reify_all (reify fuel h) (map snd d)) as [ts|] eqn:Hts;
      [| discriminate].
    intros [= <-].
    simpl. unfold bind, get_heap, read_dict. rewrite Ha. simpl. rewrite Ha.
    rewrite first_in_combine.
    + apply check_each; [exact (IH h) | exact Hts].
    + apply reify_all_length in Hts.
      rewrite !length_map in *. congruence.
  - intros [= <-]. apply Hleaf; simpl; now rewrite Ha.
Qed.

End CheckerFacts.



(** ** Dictionaries *)

Lemma dict_get_set_eq {V} (d : list (string * V)) k v :
  dict_get (dict_set d k v) k = Some v.
Proof.
  induction d as [|[k' v'] d IH]; simpl.
  - now rewrite String.eqb_refl.
  - destruct (String.eqb k' k) eqn:E; simpl; rewrite E; auto.
Qed.

Lemma dict_get_set_ne {V} (d : list (string * V)) k k' v :
  k <> k' -> dict_get (dict_set d k v) k' = dict_get d k'.
Proof.
  intros Hne. induction d as [|[k0 v0] d IH]; simpl.
  - destruct (String.eqb k k') eqn:E; [| reflexivity].
    apply String.eqb_eq in E. contradiction.
  - destruct (String.eqb k0 k) eqn:E; simpl.
    + apply String.eqb_eq in E. subst k0.
      destruct (String.eqb k k') eqn:E'; [| reflexivity].
      apply String.eqb_eq in E'. contradiction.
    + now rewrite IH.
Qed.

Lemma has_key_set {V} (d : list (string * V)) k v k' :
  has_key d k' = true -> has_key (dict_set d k v) k' = true.
Proof.
  unfold has_key. destruct (String.eqb k k') eqn:E.
  - apply String.eqb_eq in E. subst. now rewrite dict_get_set_eq.
  - apply String.eqb_neq in E. now rewrite dict_get_set_ne.
Qed.

Lemma dict_set_length_has (d : list (string * value)) k v :
  has_key d k = true -> length (dict_set d k v) = length d.
Proof.
  unfold has_key. induction d as [|[k' v'] d IH]; simpl; [discriminate |].
  destruct (String.eqb k' k) eqn:E; simpl; auto.
Qed.

Lemma dict_set_keys_has (d : list (string * value)) k v :
  has_key d k = true -> dict_keys (dict_set d k v) = dict_keys d.
Proof.
  unfold has_key, dict_keys. induction d as [|[k' v'] d IH]; simpl;
    [discriminate |].
  destruct (String.eqb k' k) eqn:E; simpl; [reflexivity |].
  intros H. now rewrite IH.
Qed.

(** ** Invariants of the store *)

Section InvariantFacts.
Variable P : value -> Prop.
Variable K : string -> Prop.
Hypothesis P_None : P VNone.

Local Abbreviation heap_ok := (heap_ok P K).
Local Abbreviation grows := (grows P).
Local Abbreviation preserves := (preserves P K).
Local Abbreviation entry_ok := (entry_ok P K).

Lemma grows_refl h : grows h h.
Proof. intros g _ d Hd. exists d. auto. Qed.

Lemma grows_trans h1 h2 h3 : grows h1 h2 -> grows h2 h3 -> grows h1 h3.
Proof.
  intros H12 H23 g Hg d Hd.
  destruct (H12 g Hg d Hd) as (d2 & Hd2 & Hk2).
  destruct (H23 g Hg d2 Hd2) as (d3 & Hd3 & Hk3).
  exists d3. split; auto.
Qed.

Lemma preserves_ret {A} (a : A) (Q : A -> Prop) : Q a -> preserves (ret a) Q.
Proof.
  intros HQ h a' h' Hok [= <- <-]. split; [| split]; auto using grows_refl.
Qed.

Lemma preserves_raise {A} (e : exn) (Q : A -> Prop) : preserves (raise e) Q.
Proof. intros h a h' _ H. discriminate. Qed.

Lemma preserves_out_of_fuel {A} (Q : A -> Prop) : preserves out_of_fuel Q.
Proof. intros h a h' _ H. discriminate. Qed.

Lemma preserves_lift {A} (r : res A) (Q : A -> Prop) :
  (forall a, r = Ok a -> Q a) -> preserves (lift r) Q.
Proof.
  intros HQ h a h' Hok H. unfold lift in H.
  destruct r; try discriminate. injection H as <- <-.
  split; [| split]; auto using grows_refl.
Qed.

Lemma preserves_bind {A B} (m : M A) (f : A -> M B) (Q1 : A -> Prop)
    (Q2 : B -> Prop) :
  preserves m Q1 -> (forall a, Q1 a -> preserves (f a) Q2) ->
  preserves (bind m f) Q2.
Proof.
  intros Hm Hf h b h' Hok H. unfold bind in H.
  destruct (m h) as [[a h1]| |] eqn:Em; try discriminate.
  destruct (Hm h a h1 Hok Em) as (Hok1 & Hg1 & Ha).
  destruct (Hf a Ha h1 b h' Hok1 H) as (Hok2 & Hg2 & Hb).
  split; [| split]; eauto using grows_trans.
Qed.

Lemma preserves_weaken {A} (m : M A) (Q1 Q2 : A -> Prop) :
  preserves m Q1 -> (forall a, Q1 a -> Q2 a) -> preserves m Q2.
Proof.
  intros Hm HQ h a h' Hok H.
  destruct (Hm h a h' Hok H) as (? & ? & ?). auto.
Qed.

Lemma preserves_get_heap : preserves get_heap (fun _ => True).
Proof.
  intros h a h' Hok [= <- <-]. split; [| split]; auto using grows_refl.
Qed.

Lemma preserves_read_dict a : preserves (read_dict a) (Forall entry_ok).
Proof.
  intros h d h' Hok H. unfold read_dict in H.
  destruct (h !! a) as [[l|l|d0]|] eqn:Ha; try discriminate.
  injection H as <- <-.
  split; [| split]; auto using grows_refl.
  exact (Forall_lookup_1 _ _ _ _ Hok Ha).
Qed.

Lemma preserves_read_list a : preserves (read_list a) (Forall P).
Proof.
  intros h l h' Hok H. unfold read_list in H.
  destruct (h !! a) as [[l0|l0|d0]|] eqn:Ha; try discriminate.
  injection H as <- <-.
  split; [| split]; auto using grows_refl.
  exact (Forall_lookup_1 _ _ _ _ Hok Ha).
Qed.

Lemma grows_insert_other h a o : P (VRef a) -> grows h (<[a := o]> h).
Proof.
  intros Pa g Hg d Hd. exists d. split; auto.
  rewrite list_lookup_insert_ne; auto.
  intros ->. contradiction.
Qed.

Lemma preserves_list_setitem a idx v :
  P v -> P (VRef a) -> preserves (list_setitem a idx v) (fun _ => True).
Proof.
  intros Pv Pa h u h' Hok H. unfold list_setitem, bind, read_list in H.
  destruct (h !! a) as [[l|l|d]|] eqn:Ha; try discriminate.
  destruct (decide (idx < length l)); try discriminate.
  injection H as H. subst h'.
  split; [| split]; auto using grows_insert_other.
  apply Forall_insert; auto. simpl.
  apply Forall_insert; auto.
  exact (Forall_lookup_1 _ _ _ _ Hok Ha).
Qed.

Lemma entry_ok_set d k v :
  Forall entry_ok d -> K k -> P v -> Forall entry_ok (dict_set d k v).
Proof.
  intros Hd Hk Hv. induction Hd as [|[k' v'] d Hkv Hd IH]; simpl.
  - repeat constructor; auto.
  - destruct (String.eqb k' k) eqn:E.
    + constructor; auto. destruct Hkv. split; auto.
    + constructor; auto.
Qed.

Lemma entry_ok_del d k : Forall entry_ok d -> Forall entry_ok (dict_del d k).
Proof.
  intros Hd. induction Hd as [|[k' v'] d Hkv Hd IH]; simpl; auto.
  destruct (String.eqb k' k); auto.
Qed.

Lemma entry_ok_get d k v : Forall entry_ok d -> dict_get d k = Some v -> P v.
Proof.
  intros Hd. induction Hd as [|[k' v'] d Hkv Hd IH]; simpl; [discriminate |].
  destruct (String.eqb k' k); auto.
  intros [= <-]. apply Hkv.
Qed.

Lemma entry_ok_key d k : Forall entry_ok d -> In k (dict_keys d) -> K k.
Proof.
  intros Hd. induction Hd as [|[k' v'] d Hkv Hd IH]; simpl; [tauto |].
  intros [<- | H]; auto. apply Hkv.
Qed.

Lemma preserves_dict_setitem a k v :
  K k -> P v -> preserves (dict_setitem a k v) (fun _ => True).
Proof.
  intros Hk Pv h u h' Hok H. unfold dict_setitem, bind, read_dict in H.
  destruct (h !! a) as [[l|l|d]|] eqn:Ha; try discriminate.
  injection H as H. subst h'.
  split; [| split]; auto.
  - apply Forall_insert; auto. simpl.
    apply entry_ok_set; auto.
    exact (Forall_lookup_1 _ _ _ _ Hok Ha).
  - intros g Hg d0 Hd0. destruct (decide (g = a)) as [-> | Hne].
    + rewrite Ha in Hd0. injection Hd0 as <-.
      exists (dict_set d k v). split.
      * apply list_lookup_insert_eq. eapply lookup_lt_Some; eauto.
      * intros k'. apply has_key_set.
    + exists d0. rewrite list_lookup_insert_ne; auto.
Qed.

Lemma preserves_dict_pop a k : P (VRef a) -> preserves (dict_pop a k) P.
Proof.
  intros Pa h v h' Hok H. unfold dict_pop, bind, read_dict in H.
  destruct (h !! a) as [[l|l|d]|] eqn:Ha; try discriminate.
  pose proof (Forall_lookup_1 _ _ _ _ Hok Ha) as Hd. simpl in Hd.
  destruct (dict_get d k) as [v0|] eqn:Hk.
  - injection H as <- <-.
    split; [| split]; eauto using grows_insert_other, entry_ok_get.
    apply Forall_insert; auto. simpl. now apply entry_ok_del.
  - injection H as <- <-. split; [| split]; auto using grows_refl.
Qed.

Lemma preserves_check_size a n : preserves (check_size a n) (fun _ => True).
Proof.
  unfold check_size.
  eapply preserves_bind; [apply preserves_read_dict |].
  intros d _. destruct (decide (length d = n)).
  - now apply preserves_ret.
  - apply preserves_raise.
Qed.

Lemma preserves_for_each {X} (body : X -> M unit) (xs : list X) :
  (forall x, In x xs -> preserves (body x) (fun _ => True)) ->
  preserves (for_each body xs) (fun _ => True).
Proof.
  induction xs as [|x xs IH]; intros Hbody; simpl.
  - now apply preserves_ret.
  - eapply preserves_bind.
    + apply Hbody. now left.
    + intros _ _. apply IH. intros y Hy. apply Hbody. now right.
Qed.

Lemma preserves_for_items a (body : string -> value -> M unit) :
  (forall k v, K k -> P v -> preserves (body k v) (fun _ => True)) ->
  preserves (for_items a body) (fun _ => True).
Proof.
  intros Hbody. unfold for_items.
  eapply preserves_bind; [apply preserves_read_dict |].
  intros d0 Hd0.
  eapply preserves_bind; [| intros _ _; apply preserves_check_size].
  apply preserves_for_each. intros k Hk.
  eapply preserves_bind; [apply preserves_check_size |].
  intros _ _.
  eapply preserves_bind; [apply preserves_read_dict |].
  intros d Hd.
  destruct (dict_get d k) as [v|] eqn:Hv.
  - apply Hbody; eauto using entry_ok_key, entry_ok_get.
  - apply preserves_raise.
Qed.

Lemma preserves_for_enumerate a (body : nat -> value -> M unit) :
  (forall idx v, P v -> preserves (body idx v) (fun _ => True)) ->
  preserves (for_enumerate a body) (fun _ => True).
Proof.
  intros Hbody. unfold for_enumerate.
  eapply preserves_bind; [apply preserves_read_list |].
  intros l0 _.
  apply preserves_for_each. intros idx _.
  eapply preserves_bind; [apply preserves_read_list |].
  intros l Hl.
  destruct (l !! idx) as [v|] eqn:Hv.
  - apply Hbody. exact (Forall_lookup_1 _ _ _ _ Hl Hv).
  - now apply preserves_ret.
Qed.

End InvariantFacts.

Lemma is_dict_ref h v : is_dict h v = true -> exists a, v = VRef a.
Proof. destruct v; try discriminate. eauto. Qed.

Lemma list_addr_ref h v a : list_addr h v = Some a -> v = VRef a.
Proof.
  destruct v; try discriminate. simpl.
  destruct (h !! a0) as [[l|l|d]|]; try discriminate. now intros [= ->].
Qed.

Lemma dict_addr_ref h v a : dict_addr h v = Some a -> v = VRef a.
Proof.
  destruct v; try discriminate. simpl.
  destruct (h !! a0) as [[l|l|d]|]; try discriminate. now intros [= ->].
Qed.

Lemma dict_get_app_none (d : list (string * value)) k v :
  dict_get d k = None -> dict_get (d ++ [(k, v)]) k = Some v.
Proof.
  induction d as [|[k' v'] d IH]; simpl.
  - now rewrite String.eqb_refl.
  - destruct (String.eqb k' k); [discriminate | exact IH].
Qed.

Lemma call_module_heap id m kwargs h v h' :
  call_module id m kwargs h = Ok (v, h') -> h' = h.
Proof.
  unfold call_module.
  destruct (dict_get kwargs "delay_resolve") as [[ | [|] | | | | | | | | ]|];
    unfold ret, lift; try (destruct (construct m kwargs); congruence);
    congruence.
Qed.

Section ResolverInvariant.
Variable P : value -> Prop.
Variable K : string -> Prop.
Hypothesis P_None : P VNone.
Variable settings : Settings.
Variable reg : registry.
Hypothesis strict_calls :
  PARSER_STRICT settings = true ->
  forall id m kwargs h v h',
    find_module reg id = Some m -> Forall (entry_ok P K) kwargs ->
    call_module id m kwargs h = Ok (v, h') -> P v.
Hypothesis lazy_calls :
  PARSER_STRICT settings = false ->
  forall name sig params, P (VModule name sig params).

Local Abbreviation preserves := (preserves P K).

Lemma preserves_merge_dict fuel :
  forall src diff union,
    preserves (merge_dict fuel src diff union) (fun v => v = src).
Proof.
  induction fuel as [|fuel IH]; intros src diff union; simpl.
  - apply preserves_out_of_fuel.
  - destruct src; try apply preserves_raise.
    destruct diff; try apply preserves_raise.
    eapply preserves_bind; [| intros _ _; now apply preserves_ret].
    apply preserves_for_items. intros k v Hk Pv.
    unfold merge_item.
    eapply preserves_bind; [apply preserves_read_dict |].
    intros s Hs. destruct (dict_get s k) as [sval|].
    + eapply preserves_bind; [apply preserves_get_heap |].
      intros h _. destruct (is_dict h sval && is_dict h v).
      * eapply preserves_bind; [apply IH |].
        intros _ _. now apply preserves_ret.
      * now apply preserves_dict_setitem.
    + destruct (union_truthy union).
      * now apply preserves_dict_setitem.
      * now apply preserves_ret.
Qed.

Lemma preserves_resolve_variable env_vars global_vars name :
  preserves (resolve_variable env_vars global_vars name) P.
Proof.
  unfold resolve_variable.
  eapply preserves_bind; [apply preserves_read_dict |].
  intros g Hg. destruct (dict_get g (drop_first name)) as [v|] eqn:Hv.
  - apply preserves_ret. eapply entry_ok_get; eauto.
  - eapply preserves_bind; [apply preserves_read_dict |].
    intros e He. destruct (dict_get e (drop_first name)) as [v|] eqn:Hv'.
    + apply preserves_ret. eapply entry_ok_get; eauto.
    + apply preserves_raise.
Qed.

Lemma preserves_lookup_module name :
  preserves (lookup_module reg name)
    (fun found => find_module reg (fst found) = Some (snd found)).
Proof.
  unfold lookup_module. destruct name; try apply preserves_raise.
  destruct (find_module reg s) eqn:E.
  - now apply preserves_ret.
  - apply preserves_raise.
Qed.

Lemma preserves_instantiate a :
  P (VRef a) -> preserves (instantiate settings reg a) P.
Proof.
  intros Pa. unfold instantiate.
  eapply preserves_bind; [now apply preserves_dict_pop |].
  intros name _.
  eapply preserves_bind; [apply preserves_get_heap |].
  intros h0 _. destruct (truthy h0 name); [| now apply preserves_ret].
  eapply preserves_bind; [apply preserves_lookup_module |].
  intros [id m] Hfound. simpl in Hfound.
  eapply preserves_bind; [apply preserves_read_dict |].
  intros kwargs Hkw. simpl.
  destruct (PARSER_STRICT settings) eqn:Hs.
  - intros h v h' Hok Hcall.
    pose proof (call_module_heap _ _ _ _ _ _ Hcall) as ->.
    split; [| split]; eauto using grows_refl.
  - destruct (dict_get kwargs "delay_resolve") eqn:Hd.
    + apply preserves_raise.
    + intros h v h' Hok Hcall.
      pose proof (call_module_heap _ _ _ _ _ _ Hcall) as ->.
      split; [| split]; auto using grows_refl.
      unfold call_module in Hcall.
      rewrite (dict_get_app_none _ _ _ Hd) in Hcall.
      injection Hcall as <-. now apply lazy_calls.
Qed.

Lemma preserves_resolve_item (rec : value -> M value) env_vars global_vars
    container idx val :
  (forall v, P v -> preserves (rec v) P) ->
  P (VRef container) -> P val ->
  preserves (resolve_item settings rec env_vars global_vars container idx val)
    (fun _ => True).
Proof.
  intros Hrec Pc Pval. unfold resolve_item.
  eapply preserves_bind; [apply preserves_get_heap |].
  intros h _. destruct (is_variable settings val).
  - eapply preserves_bind; [apply preserves_resolve_variable |].
    intros v Pv. now apply preserves_list_setitem.
  - destruct (is_dict h val).
    + eapply preserves_bind; [now apply Hrec |].
      intros v Pv. now apply preserves_list_setitem.
    + now apply preserves_ret.
Qed.

Lemma preserves_resolve_entry fuel (rec : value -> M value) env_vars
    global_vars config key val :
  (forall v, P v -> preserves (rec v) P) ->
  K key -> P val ->
  preserves
    (resolve_entry settings fuel rec env_vars global_vars config key val)
    (fun _ => True).
Proof.
  intros Hrec Kk Pval. unfold resolve_entry.
  eapply preserves_bind; [apply preserves_get_heap |].
  intros h _. destruct (is_variable settings val).
  - eapply preserves_bind; [apply preserves_resolve_variable |].
    intros v Pv. now apply preserves_dict_setitem.
  - destruct (list_addr h val) as [l|] eqn:Hl.
    + apply list_addr_ref in Hl. subst val.
      apply preserves_for_enumerate; auto.
      intros idx v Pv. now apply preserves_resolve_item.
    + destruct (is_dict h val).
      * eapply preserves_bind; [now apply Hrec |].
        intros v Pv.
        eapply preserves_bind; [now apply preserves_dict_setitem |].
        intros _ _. destruct (String.eqb key "_var").
        -- eapply preserves_bind; [apply preserves_merge_dict |].
           intros _ _. now apply preserves_ret.
        -- now apply preserves_ret.
      * now apply preserves_ret.
Qed.

Lemma preserves_parse_config fuel env_vars global_vars :
  forall config,
    P config ->
    preserves (parse_config settings reg fuel config env_vars global_vars) P.
Proof.
  induction fuel as [|fuel IH]; intros config Pc; simpl.
  - apply preserves_out_of_fuel.
  - eapply preserves_bind; [apply preserves_get_heap |].
    intros h _. destruct (list_addr h config) as [a|] eqn:Hl.
    + apply list_addr_ref in Hl. subst config.
      eapply preserves_bind; [| intros _ _; now apply preserves_ret].
      apply preserves_for_enumerate; auto.
      intros idx v Pv. now apply preserves_resolve_item.
    + destruct (dict_addr h config) as [a|] eqn:Hd.
      * apply dict_addr_ref in Hd. subst config.
        eapply preserves_bind; [| intros _ _; now apply preserves_instantiate].
        apply preserves_for_items; auto.
        intros k v Kk Pv. now apply preserves_resolve_entry.
      * now apply preserves_ret.
Qed.

End ResolverInvariant.

(** ** Strict and lazy instantiation *)

Lemma dict_get_del_ne (d : list (string * value)) k k' :
  k <> k' -> dict_get (dict_del d k) k' = dict_get d k'.
Proof.
  intros Hne. induction d as [|[k0 v0] d IH]; simpl; [reflexivity |].
  destruct (String.eqb k0 k) eqn:E; simpl.
  - apply String.eqb_eq in E. subst k0.
    destruct (String.eqb k k') eqn:E'; [| reflexivity].
    apply String.eqb_eq in E'. contradiction.
  - now rewrite IH.
Qed.

Lemma dict_del_app_none (d : list (string * value)) k v :
  dict_get d k = None -> dict_del (d ++ [(k, v)]) k = d.
Proof.
  induction d as [|[k' v'] d IH]; simpl.
  - now rewrite String.eqb_refl.
  - destruct (String.eqb k' k); [discriminate |].
    intros H. now rewrite IH.
Qed.

Lemma dict_get_absent (K : string -> Prop) (P : value -> Prop)
    (d : list (string * value)) k :
  Forall (entry_ok P K) d -> ~ K k -> dict_get d k = None.
Proof.
  intros Hd Hk. induction Hd as [|[k' v'] d [Hk' _] _ IH]; simpl; auto.
  destruct (String.eqb k' k) eqn:E; auto.
  apply String.eqb_eq in E. subst. contradiction.
Qed.

Lemma bind_eq {A B} (m : M A) (f : A -> M B) (h : heap) :
  bind m f h
  = match m h with
    | Ok (a, h') => f a h'
    | Raise e => Raise e
    | OutOfFuel => OutOfFuel
    end.
Proof. reflexivity. Qed.

Lemma read_dict_eq a (h : heap) d :
  h !! a = Some (ODict d) -> read_dict a h = Ok (d, h).
Proof. intros H. unfold read_dict. now rewrite H. Qed.

Lemma read_list_eq a (h : heap) l :
  h !! a = Some (OList l) -> read_list a h = Ok (l, h).
Proof. intros H. unfold read_list. now rewrite H. Qed.

Lemma dict_pop_some a k (h : heap) d v :
  h !! a = Some (ODict d) -> dict_get d k = Some v ->
  dict_pop a k h = Ok (v, <[a := ODict (dict_del d k)]> h).
Proof.
  intros Ha Hk. unfold dict_pop. rewrite bind_eq, (read_dict_eq _ _ _ Ha).
  now rewrite Hk.
Qed.

Lemma dict_pop_none a k (h : heap) d :
  h !! a = Some (ODict d) -> dict_get d k = None ->
  dict_pop a k h = Ok (VNone, h).
Proof.
  intros Ha Hk. unfold dict_pop. rewrite bind_eq, (read_dict_eq _ _ _ Ha).
  now rewrite Hk.
Qed.

Lemma strict_no_deferred (settings : Settings) (reg : registry)
    (env_vars global_vars : addr) :
  PARSER_STRICT settings = true ->
  terminal_constructors reg ->
  forall fuel config h v h',
    plain_store h -> is_deferred config = false ->
    parse_config settings reg fuel config env_vars global_vars h = Ok (v, h') ->
    plain_store h' /\ is_deferred v = false.
Proof.
  intros Hstrict Hreg fuel config h v h' Hok Hc Hrun.
  assert (Hp : preserves (fun v => is_deferred v = false)
                 (fun k => k <> "delay_resolve")
                 (parse_config settings reg fuel config env_vars global_vars)
                 (fun v => is_deferred v = false)).
  { apply preserves_parse_config; auto.
    - intros _ id m kwargs h0 v0 h0' Hfind Hkw Hcall.
      unfold call_module in Hcall.
      rewrite (dict_get_absent _ _ kwargs "delay_resolve" Hkw) in Hcall
        by (intros H; now apply H).
      unfold lift in Hcall.
      destruct (construct m kwargs) as [v1| |] eqn:Ec; try discriminate.
      injection Hcall as <- <-.
      apply (Hreg id m kwargs v1 Hfind); [| exact Ec].
      eapply Forall_impl; [exact Hkw |]. intros kv [_ H]. exact H.
    - intros Hlazy. congruence. }
  destruct (Hp h v h' Hok Hrun) as (H1 & _ & H3). auto.
Qed.

Lemma instantiate_node (settings : Settings) (reg : registry)
    (env_vars global_vars : addr) :
  forall fuel a h h1 d1 id m,
    for_items a
      (resolve_entry settings fuel
         (fun val => parse_config settings reg fuel val env_vars global_vars)
         env_vars global_vars a) h = Ok (tt, h1) ->
    h1 !! a = Some (ODict d1) ->
    dict_get d1 "_name" = Some (VStr id) -> id <> "" ->
    find_module reg id = Some m ->
    dict_get d1 "delay_resolve" = None ->
    parse_config settings reg (S fuel) (VRef a) env_vars global_vars h
    = if PARSER_STRICT settings
      then lift (construct m (dict_del d1 "_name"))
             (<[a := ODict (dict_del d1 "_name")]> h1)
      else Ok (VModule id (sig m) (dict_del d1 "_name"),
               <[a := ODict (dict_del d1 "_name")]> h1).
Proof.
  intros fuel a h h1 d1 id m Hloop Ha1 Hname Hid Hfind Hflag.
  assert (Hdict : exists d, h !! a = Some (ODict d)).
  { unfold for_items, bind, read_dict in Hloop.
    destruct (h !! a) as [[l|l|d]|]; try discriminate. eauto. }
  destruct Hdict as [d Ha].
  assert (Hflag' : dict_get (dict_del d1 "_name") "delay_resolve" = None).
  { rewrite dict_get_del_ne; [assumption | discriminate]. }
  assert (Ha2 : <[a := ODict (dict_del d1 "_name")]> h1 !! a
                = Some (ODict (dict_del d1 "_name"))).
  { apply list_lookup_insert_eq. eapply lookup_lt_Some; eauto. }
  simpl. rewrite bind_eq. unfold get_heap. simpl. rewrite Ha.
  rewrite bind_eq, Hloop.
  unfold instantiate.
  rewrite bind_eq, (dict_pop_some _ _ _ _ _ Ha1 Hname).
  rewrite bind_eq. simpl.
  assert (negb (String.eqb id "") = true) as ->.
  { apply negb_true_iff. now apply String.eqb_neq. }
  rewrite bind_eq. rewrite Hfind. unfold ret.
  rewrite bind_eq, (read_dict_eq _ _ _ Ha2). simpl.
  destruct (PARSER_STRICT settings).
  - unfold call_module. now rewrite Hflag'.
  - rewrite Hflag'. unfold call_module.
    rewrite (dict_get_app_none _ _ _ Hflag').
    unfold ret. now rewrite (dict_del_app_none _ _ _ Hflag').
Qed.



Lemma one_module_terminal : terminal_constructors one_module.
Proof.
  intros id m kwargs v Hfind _ Hc.
  unfold one_module, find_module in Hfind.
  destruct (String.eqb "m" id); [| discriminate].
  injection Hfind as <-. simpl in Hc.
  injection Hc as <-. reflexivity.
Qed.

Lemma module_doc_plain : plain_store module_doc.
Proof.
  unfold plain_store, heap_ok, module_doc.
  repeat (constructor; simpl; unfold entry_ok; simpl);
    try reflexivity; discriminate.
Qed.


(** ** The global variables of a sweep *)

Lemma check_all_resolved_heap py_str fuel :
  forall v h u h', check_all_resolved py_str fuel v h = Ok (u, h') -> h' = h.
Proof.
  induction fuel as [|fuel IH]; intros v h u h'; [discriminate |].
  assert (Heach : forall vs h u h',
             for_each (check_all_resolved py_str fuel) vs h = Ok (u, h') ->
             h' = h).
  { induction vs as [|w vs IHvs]; intros h0 u0 h0'; simpl.
    - now intros [= <- <-].
    - rewrite bind_eq.
      destruct (check_all_resolved py_str fuel w h0) as [[u1 h1]| |] eqn:E;
        try discriminate.
      apply IH in E. subst h1. apply IHvs. }
  simpl. rewrite bind_eq. unfold get_heap.
  destruct (list_addr h v) as [a|].
  - rewrite bind_eq. unfold read_list.
    destruct (h !! a) as [[l|l|d]|]; try discriminate. apply Heach.
  - destruct (dict_addr h v) as [a|].
    + rewrite bind_eq. unfold read_dict.
      destruct (h !! a) as [[l|l|d]|]; try discriminate. apply Heach.
    + destruct (String.eqb _ _); [discriminate |]. now intros [= <- <-].
Qed.

Section SweepInvariant.
Variable G : addr.

Local Abbreviation P := (fun v : value => v <> VRef G).
Local Abbreviation K := (fun _ : string => True).

Local Abbreviation scope_at := (scope_at G).
Local Abbreviation guarded := (guarded G).
Local Abbreviation memo_ok := (memo_ok G).

Lemma grows_scope h h' : grows P h h' -> scope_at h -> scope_at h'.
Proof.
  intros Hg [d Hd]. destruct (Hg G (fun H => H eq_refl) d Hd) as (d' & Hd' & _).
  now exists d'.
Qed.

Lemma guarded_of_preserves {A} (m : M A) (Q : A -> Prop) :
  preserves P K m Q -> guarded m Q.
Proof. intros Hm h a h' Hok _ H. now apply (Hm h a h'). Qed.

Lemma guarded_ret {A} (a : A) (Q : A -> Prop) : Q a -> guarded (ret a) Q.
Proof. intros HQ. now apply guarded_of_preserves, preserves_ret. Qed.

Lemma guarded_bind {A B} (m : M A) (f : A -> M B) (Q1 : A -> Prop)
    (Q2 : B -> Prop) :
  guarded m Q1 -> (forall a, Q1 a -> guarded (f a) Q2) ->
  guarded (bind m f) Q2.
Proof.
  intros Hm Hf h b h' Hok Hs H. rewrite bind_eq in H.
  destruct (m h) as [[a h1]| |] eqn:Em; try discriminate.
  destruct (Hm h a h1 Hok Hs Em) as (Hok1 & Hg1 & Ha).
  destruct (Hf a Ha h1 b h' Hok1 (grows_scope _ _ Hg1 Hs) H)
    as (Hok2 & Hg2 & Hb).
  split; [| split]; eauto using grows_trans.
Qed.

Lemma guarded_get_heap :
  guarded get_heap (fun h => heap_ok P K h /\ scope_at h).
Proof.
  intros h a h' Hok Hs [= <- <-]. split; [| split]; auto using grows_refl.
Qed.

Lemma guarded_alloc o : obj_ok P K o -> guarded (alloc o) (fun b => b <> G).
Proof.
  intros Ho h b h' Hok [d Hd] [= <- <-]. split; [| split].
  - apply Forall_app. split; auto.
  - intros g _ d0 Hd0. exists d0. split; auto.
    rewrite lookup_app_l; auto. eapply lookup_lt_Some; eauto.
  - apply lookup_lt_Some in Hd. lia.
Qed.

Lemma guarded_store b o :
  b <> G -> obj_ok P K o -> guarded (store b o) (fun _ => True).
Proof.
  intros Hb Ho h u h' Hok _ H. unfold store in H. injection H as H. subst h'.
  split; [| split]; auto.
  - now apply Forall_insert.
  - apply grows_insert_other. congruence.
Qed.

Lemma guarded_copy_items
    (copy : value -> list (addr * addr) -> M (value * list (addr * addr))) :
  (forall x memo, memo_ok memo ->
     guarded (copy x memo) (fun r => P (fst r) /\ memo_ok (snd r))) ->
  forall items memo, memo_ok memo ->
    guarded (copy_items copy items memo)
      (fun r => Forall P (fst r) /\ memo_ok (snd r)).
Proof.
  intros Hcopy items. induction items as [|x items IH]; intros memo Hm; simpl.
  - apply guarded_ret. auto.
  - eapply guarded_bind; [now apply Hcopy |].
    intros [v memo1] [Pv Hm1]. simpl in *.
    eapply guarded_bind; [now apply IH |].
    intros [vs memo2] [Pvs Hm2]. simpl in *.
    apply guarded_ret. simpl. auto.
Qed.

Lemma entry_ok_combine (keys : list string) (vs : list value) :
  Forall P vs -> Forall (entry_ok P K) (combine keys vs).
Proof.
  intros Hvs. revert keys.
  induction Hvs as [|v vs Pv _ IH]; intros [|k keys]; simpl; auto.
  constructor; [split; simpl; auto | apply IH].
Qed.

Lemma guarded_deepcopy fuel :
  forall x memo, memo_ok memo ->
    guarded (deepcopy fuel x memo) (fun r => P (fst r) /\ memo_ok (snd r)).
Proof.
  induction fuel as [|fuel IH]; intros x memo Hm; simpl.
  - intros h a h' _ _ H. discriminate.
  - destruct x; try (apply guarded_ret; simpl; split; [discriminate | auto]).
    + eapply guarded_bind; [now apply guarded_copy_items |].
      intros [vs memo1] [_ Hm1]. apply guarded_ret. simpl.
      split; [discriminate | auto].
    + destruct (memo_get memo a) as [b|] eqn:Hb.
      * apply guarded_ret. simpl. split; auto.
        intros [= ->]. now apply (Hm a G).
      * assert (Hm' : forall b, b <> G -> memo_ok ((a, b) :: memo)).
        { intros b Hne a' b'. simpl.
          destruct (Nat.eqb a a'); [now intros [= <-] | apply Hm]. }
        eapply guarded_bind; [apply guarded_get_heap |].
        intros h0 [Hok0 [d0 Hd0]].
        destruct (h0 !! a) as [[l|l|d]|] eqn:Ha.
        -- eapply guarded_bind; [apply guarded_alloc; constructor |].
           intros b Hne.
           eapply guarded_bind; [apply guarded_copy_items; auto |].
           intros [vs memo1] [Pvs Hm1]. simpl in *.
           eapply guarded_bind; [now apply guarded_store |].
           intros _ _. apply guarded_ret. simpl. split; auto. congruence.
        -- eapply guarded_bind; [apply guarded_alloc; constructor |].
           intros b Hne.
           eapply guarded_bind; [apply guarded_copy_items; auto |].
           intros [vs memo1] [Pvs Hm1]. simpl in *.
           eapply guarded_bind; [now apply guarded_store |].
           intros _ _. apply guarded_ret. simpl. split; auto. congruence.
        -- eapply guarded_bind; [apply guarded_alloc; constructor |].
           intros b Hne.
           eapply guarded_bind; [apply guarded_copy_items; auto |].
           intros [vs memo1] [Pvs Hm1]. simpl in *.
           eapply guarded_bind.
           { apply guarded_store; auto. simpl. now apply entry_ok_combine. }
           intros _ _. apply guarded_ret. simpl. split; auto. congruence.
        -- apply guarded_ret. simpl. split; auto.
           intros [= ->]. congruence.
Qed.

End SweepInvariant.

Lemma call_module_cases id m kwargs h v h' :
  call_module id m kwargs h = Ok (v, h') ->
  (exists params, v = VModule id (sig m) params) \/ construct m kwargs = Ok v.
Proof.
  unfold call_module, ret, lift.
  destruct (dict_get kwargs "delay_resolve") as [[ | [|] | | | | | | | | ]|];
    try (intros [= <- <-]; left; eauto; fail);
    destruct (construct m kwargs); intros [= <- <-]; now right.
Qed.

Section SweepFacts.
Variable G : addr.
Variable settings : Settings.
Variable reg : registry.
Variable py_str : heap -> value -> string.
Variable yaml_format : heap -> value -> string.
Hypothesis constructors_apart :
  forall id m kwargs v,
    find_module reg id = Some m -> construct m kwargs = Ok v -> v <> VRef G.

Local Abbreviation P := (fun v : value => v <> VRef G).
Local Abbreviation K := (fun _ : string => True).
Local Abbreviation guarded := (guarded G).

Lemma preserves_check fuel v :
  preserves P K (check_all_resolved py_str fuel v) (fun _ => True).
Proof.
  intros h u h' Hok H. apply check_all_resolved_heap in H. subst h'.
  split; [| split]; auto using grows_refl.
Qed.

Lemma preserves_sweep_parse fuel env_vars config :
  config <> VRef G ->
  preserves P K (parse_config settings reg fuel config env_vars G) P.
Proof.
  intros Hc. apply preserves_parse_config; auto; try discriminate.
  intros _ id m kwargs h v h' Hfind _ Hcall.
  destruct (call_module_cases _ _ _ _ _ _ Hcall) as [[params ->] | Hcons].
  - discriminate.
  - eapply constructors_apart; eauto.
Qed.

Lemma guarded_sweep_prepare fuel env_vars param :
  guarded (sweep_prepare py_str yaml_format fuel env_vars G param)
    (fun _ => True).
Proof.
  apply guarded_of_preserves. unfold sweep_prepare.
  eapply preserves_bind; [apply preserves_get_heap; discriminate |].
  intros h _.
  eapply preserves_bind with (Q1 := fun _ => True).
  - destruct (is_dict h param).
    + eapply preserves_weaken; [now apply preserves_merge_dict | auto].
    + apply preserves_raise.
  - intros _ _.
    eapply preserves_bind; [apply preserves_get_heap; discriminate |].
    intros h1 _. apply preserves_dict_setitem; auto; discriminate.
Qed.

Lemma guarded_sweep_resolve fuel config env_vars :
  guarded (sweep_resolve settings reg py_str fuel config env_vars G)
    (fun _ => True).
Proof.
  unfold sweep_resolve.
  eapply guarded_bind.
  { apply guarded_deepcopy. intros a b. discriminate. }
  intros [copy memo] [Pc _]. simpl in *.
  apply guarded_of_preserves.
  eapply preserves_bind; [now apply preserves_sweep_parse |].
  intros v Pv.
  eapply preserves_bind; [apply preserves_check |].
  intros _ _. now apply preserves_ret.
Qed.

Lemma guarded_sweep_iterations fuel config env_vars param_list idxs :
  guarded
    (sweep_iterations settings reg py_str yaml_format fuel config env_vars G
       param_list idxs) (fun _ => True).
Proof.
  unfold sweep_iterations.
  induction idxs as [|idx idxs IH]; simpl.
  - now apply guarded_ret.
  - eapply guarded_bind with (Q1 := fun _ => True);
      [| intros _ _; exact IH].
    eapply guarded_bind.
    { apply guarded_of_preserves, preserves_read_list. }
    intros l _. destruct (l !! idx) as [param|].
    + unfold sweep_iteration.
      eapply guarded_bind; [apply guarded_sweep_prepare |].
      intros _ _.
      eapply guarded_bind; [apply guarded_sweep_resolve |].
      intros _ _. apply guarded_ret. exact I.
    + apply guarded_ret. exact I.
Qed.

End SweepFacts.

Lemma run_tasks_sweep (settings : Settings) (reg : registry)
    (py_str yaml_format : heap -> value -> string) (fuel : nat)
    (config : value) (env_vars default_global_vars : addr)
    (loaded : value) (h : heap) (a : addr) (l : list value) :
  list_addr h loaded = Some a -> h !! a = Some (OList l) ->
  run_tasks settings reg py_str yaml_format fuel config env_vars
    default_global_vars (Some loaded) h
  = sweep_iterations settings reg py_str yaml_format fuel config env_vars
      (length h) a (seq 0 (length l)) (h ++ [ODict []]).
Proof.
  intros Hl Ha.
  assert (Ha' : (h ++ [ODict []]) !! a = Some (OList l)).
  { rewrite lookup_app_l; auto. eapply lookup_lt_Some; eauto. }
  assert (Hl' : list_addr (h ++ [ODict []]) loaded = Some a).
  { pose proof (list_addr_ref _ _ _ Hl) as ->. simpl. now rewrite Ha'. }
  unfold run_tasks. rewrite bind_eq. unfold alloc.
  rewrite bind_eq. unfold get_heap. rewrite bind_eq, Hl'. unfold ret.
  unfold for_enumerate. rewrite bind_eq, (read_list_eq _ _ _ Ha').
  reflexivity.
Qed.


Lemma sweep_store_unreferenced : unreferenced 5 sweep_store.
Proof.
  unfold unreferenced, heap_ok, sweep_store.
  repeat (constructor; simpl; unfold entry_ok; simpl); try exact I;
    discriminate.
Qed.


(** ** Substitution of variables *)

Lemma resolve_variable_eq env_vars global_vars (h : heap) g e name v :
  h !! global_vars = Some (ODict g) -> h !! env_vars = Some (ODict e) ->
  lookup_variable g e name = Some v ->
  resolve_variable env_vars global_vars name h = Ok (v, h).
Proof.
  intros Hg He Hv. unfold resolve_variable, lookup_variable in *.
  rewrite bind_eq, (read_dict_eq _ _ _ Hg).
  destruct (dict_get g (drop_first name)).
  - now injection Hv as ->.
  - rewrite bind_eq, (read_dict_eq _ _ _ He). now rewrite Hv.
Qed.

Lemma dict_setitem_eq a (h : heap) d k v :
  h !! a = Some (ODict d) ->
  dict_setitem a k v h = Ok (tt, <[a := ODict (dict_set d k v)]> h).
Proof.
  intros Ha. unfold dict_setitem. now rewrite bind_eq, (read_dict_eq _ _ _ Ha).
Qed.

Lemma list_setitem_eq a (h : heap) l idx v :
  h !! a = Some (OList l) -> idx < length l ->
  list_setitem a idx v h = Ok (tt, <[a := OList (<[idx := v]> l)]> h).
Proof.
  intros Ha Hi. unfold list_setitem.
  rewrite bind_eq, (read_list_eq _ _ _ Ha).
  destruct (decide (idx < length l)); [reflexivity | contradiction].
Qed.

Lemma dict_get_middle {V} (pre post : list (string * V)) k v :
  ~ In k (dict_keys pre) -> dict_get (pre ++ (k, v) :: post) k = Some v.
Proof.
  induction pre as [|[k' v'] pre IH]; simpl; intros Hk.
  - now rewrite String.eqb_refl.
  - destruct (String.eqb k' k) eqn:E.
    + apply String.eqb_eq in E. tauto.
    + apply IH. tauto.
Qed.

Lemma dict_set_middle {V} (pre post : list (string * V)) k v v' :
  ~ In k (dict_keys pre) ->
  dict_set (pre ++ (k, v) :: post) k v' = pre ++ (k, v') :: post.
Proof.
  induction pre as [|[k0 v0] pre IH]; simpl; intros Hk.
  - now rewrite String.eqb_refl.
  - destruct (String.eqb k0 k) eqn:E.
    + apply String.eqb_eq in E. tauto.
    + rewrite IH; tauto.
Qed.

Lemma flat_after_write (h : heap) a d d' v :
  h !! a = Some (ODict d) ->
  list_addr h v = None -> is_dict h v = false ->
  list_addr (<[a := ODict d']> h) v = None
  /\ is_dict (<[a := ODict d']> h) v = false.
Proof.
  intros Ha Hl Hd. destruct v; auto. unfold list_addr, is_dict in *.
  destruct (decide (a0 = a)) as [-> | Hne].
  - rewrite Ha in Hd. discriminate.
  - rewrite list_lookup_insert_ne by congruence. auto.
Qed.

Section SubstitutionFacts.
Variable settings : Settings.
Variable reg : registry.
Variables env_vars global_vars : addr.

(** The two substitution sites on an item of a list. *)
Lemma resolve_item_variable (rec : value -> M value) container idx val
    (h : heap) g e l v :
  is_variable settings val = true ->
  h !! global_vars = Some (ODict g) -> h !! env_vars = Some (ODict e) ->
  lookup_variable g e (str_of val) = Some v ->
  h !! container = Some (OList l) -> idx < length l ->
  resolve_item settings rec env_vars global_vars container idx val h
  = Ok (tt, <[container := OList (<[idx := v]> l)]> h).
Proof.
  intros Hvar Hg He Hv Hc Hi. unfold resolve_item.
  rewrite bind_eq. unfold get_heap. rewrite Hvar.
  rewrite bind_eq, (resolve_variable_eq _ _ _ _ _ _ _ Hg He Hv).
  now apply list_setitem_eq.
Qed.

(** The substitution site on a value of a dict. *)
Lemma resolve_entry_variable fuel (rec : value -> M value) config key val
    (h : heap) g e d v :
  is_variable settings val = true ->
  h !! global_vars = Some (ODict g) -> h !! env_vars = Some (ODict e) ->
  lookup_variable g e (str_of val) = Some v ->
  h !! config = Some (ODict d) ->
  resolve_entry settings fuel rec env_vars global_vars config key val h
  = Ok (tt, <[config := ODict (dict_set d key v)]> h).
Proof.
  intros Hvar Hg He Hv Hc. unfold resolve_entry.
  rewrite bind_eq. unfold get_heap. rewrite Hvar.
  rewrite bind_eq, (resolve_variable_eq _ _ _ _ _ _ _ Hg He Hv).
  now apply dict_setitem_eq.
Qed.

Lemma resolve_entry_plain fuel (rec : value -> M value) config key val
    (h : heap) :
  is_variable settings val = false ->
  list_addr h val = None -> is_dict h val = false ->
  resolve_entry settings fuel rec env_vars global_vars config key val h
  = Ok (tt, h).
Proof.
  intros Hvar Hl Hd. unfold resolve_entry.
  rewrite bind_eq. unfold get_heap. now rewrite Hvar, Hl, Hd.
Qed.

Lemma substituted_keys g e (d : list (string * value)) :
  dict_keys (map (substituted_entry settings g e) d) = dict_keys d.
Proof.
  unfold dict_keys. rewrite map_map. reflexivity.
Qed.

Lemma flat_entries_loop fuel (rec : value -> M value) a (h : heap) g e n :
  h !! global_vars = Some (ODict g) -> h !! env_vars = Some (ODict e) ->
  a <> global_vars -> a <> env_vars ->
  forall rest done,
    h !! a = Some (ODict (done ++ rest)) ->
    length (done ++ rest) = n ->
    NoDup (dict_keys (done ++ rest)) ->
    Forall (fun kv => flat_item settings h g e (snd kv)) rest ->
    for_each
      (fun k =>
         let* _ := check_size a n in
         let* d := read_dict a in
         match dict_get d k with
         | Some v =>
             resolve_entry settings fuel rec env_vars global_vars a k v
         | None =>
             raise (RuntimeError "dictionary keys changed during iteration")
         end) (dict_keys rest)
      (<[a := ODict (map (substituted_entry settings g e) done ++ rest)]> h)
    = Ok (tt, <[a := ODict (map (substituted_entry settings g e)
                              (done ++ rest))]> h).
Proof.
  intros Hg He Hag Hae rest.
  induction rest as [|[k v] rest IH]; intros done Ha Hn Hnd Hflat.
  - simpl. now rewrite !app_nil_r.
  - assert (Hlt : a < length h) by (eapply lookup_lt_Some; eauto).
    set (cur := map (substituted_entry settings g e) done ++ (k, v) :: rest).
    assert (Hcur : <[a := ODict cur]> h !! a = Some (ODict cur))
      by now apply list_lookup_insert_eq.
    assert (Hk : ~ In k (dict_keys (map (substituted_entry settings g e) done))).
    { rewrite substituted_keys. unfold dict_keys in *.
      rewrite map_app in Hnd. simpl in Hnd.
      apply NoDup_app in Hnd as (_ & Hdis & _).
      intros Hin. apply (Hdis k).
      - now apply list_elem_of_In.
      - left. }
    assert (Hg' : <[a := ODict cur]> h !! global_vars = Some (ODict g))
      by now rewrite list_lookup_insert_ne.
    assert (He' : <[a := ODict cur]> h !! env_vars = Some (ODict e))
      by now rewrite list_lookup_insert_ne.
    apply Forall_cons in Hflat as [Hv Hrest].
    simpl for_each. rewrite bind_eq.
    assert (Hstep :
      (let* _ := check_size a n in
       let* d := read_dict a in
       match dict_get d k with
       | Some v0 =>
           resolve_entry settings fuel rec env_vars global_vars a k v0
       | None =>
           raise (RuntimeError "dictionary keys changed during iteration")
       end) (<[a := ODict cur]> h)
      = Ok (tt, <[a := ODict (map (substituted_entry settings g e)
                                (done ++ [(k, v)]) ++ rest)]> h)).
    { rewrite bind_eq. unfold check_size.
      rewrite bind_eq, (read_dict_eq _ _ _ Hcur).
      assert (length cur = n) as ->.
      { unfold cur. rewrite <- Hn, !length_app, length_map. reflexivity. }
      destruct (decide (n = n)); [| congruence].
      unfold ret. rewrite bind_eq, (read_dict_eq _ _ _ Hcur).
      unfold cur at 1. rewrite (dict_get_middle _ _ _ _ Hk).
      rewrite map_app, <- app_assoc. simpl.
      unfold flat_item in Hv. simpl in Hv.
      unfold substituted_entry at 2. unfold substituted. simpl.
      destruct (is_variable settings v) eqn:Hvar.
      - destruct (lookup_variable g e (str_of v)) as [w|] eqn:Hw;
          [| congruence].
        rewrite (resolve_entry_variable _ _ _ _ _ _ _ _ _ _ Hvar Hg' He' Hw
                   Hcur).
        unfold cur. rewrite (dict_set_middle _ _ _ _ _ Hk).
        now rewrite list_insert_insert_eq.
      - destruct Hv as [Hl Hd].
        destruct (flat_after_write h a _ cur v Ha Hl Hd) as [Hl' Hd'].
        now rewrite (resolve_entry_plain _ _ _ _ _ _ Hvar Hl' Hd'). }
    rewrite Hstep.
    specialize (IH (done ++ [(k, v)])).
    rewrite <- !app_assoc in IH. simpl in IH.
    apply IH; auto.
Qed.

End SubstitutionFacts.

Lemma dict_get_none_keys {V} (d : list (string * V)) k :
  dict_get d k = None <-> ~ In k (dict_keys d).
Proof.
  induction d as [|[k' v'] d IH]; simpl; [tauto |].
  destruct (String.eqb k' k) eqn:E.
  - apply String.eqb_eq in E. split; [discriminate | tauto].
  - apply String.eqb_neq in E. rewrite IH. tauto.
Qed.

Section FlatDocuments.
Variable settings : Settings.
Variable reg : registry.
Variables env_vars global_vars : addr.

Lemma flat_mapping_resolves fuel a (h : heap) d g e :
  h !! a = Some (ODict d) ->
  h !! global_vars = Some (ODict g) -> h !! env_vars = Some (ODict e) ->
  a <> global_vars -> a <> env_vars ->
  NoDup (dict_keys d) -> dict_get d "_name" = None ->
  Forall (fun kv => flat_item settings h g e (snd kv)) d ->
  parse_config settings reg (S fuel) (VRef a) env_vars global_vars h
  = Ok (VRef a, <[a := ODict (map (substituted_entry settings g e) d)]> h).
Proof.
  intros Ha Hg He Hag Hae Hnd Hname Hflat.
  assert (Hlt : a < length h) by (eapply lookup_lt_Some; eauto).
  set (d' := map (substituted_entry settings g e) d).
  assert (Ha' : <[a := ODict d']> h !! a = Some (ODict d'))
    by now apply list_lookup_insert_eq.
  simpl. rewrite bind_eq. unfold get_heap. simpl. rewrite Ha.
  rewrite bind_eq. unfold for_items.
  rewrite bind_eq, (read_dict_eq _ _ _ Ha). rewrite bind_eq.
  pose proof (flat_entries_loop settings env_vars global_vars fuel
                (fun val => parse_config settings reg fuel val env_vars
                              global_vars)
                a h g e (length d) Hg He Hag Hae d [] Ha eq_refl Hnd Hflat)
    as Hloop.
  simpl in Hloop. rewrite (list_insert_id _ _ _ Ha) in Hloop.
  rewrite Hloop. fold d'.
  unfold check_size. rewrite bind_eq, (read_dict_eq _ _ _ Ha').
  assert (length d' = length d) as -> by (unfold d'; apply length_map).
  destruct (decide (length d = length d)); [| congruence].
  unfold ret, instantiate.
  assert (Hname' : dict_get d' "_name" = None).
  { apply dict_get_none_keys. unfold d'. rewrite substituted_keys.
    now apply dict_get_none_keys. }
  rewrite bind_eq, (dict_pop_none _ _ _ _ Ha' Hname').
  reflexivity.
Qed.

Lemma flat_items_loop (rec : value -> M value) a (h : heap) g e :
  h !! global_vars = Some (ODict g) -> h !! env_vars = Some (ODict e) ->
  a <> global_vars -> a <> env_vars ->
  forall rest done,
    h !! a = Some (OList (done ++ rest)) ->
    Forall (flat_item settings h g e) rest ->
    for_each
      (fun idx =>
         let* l := read_list a in
         match l !! idx with
         | Some v => resolve_item settings rec env_vars global_vars a idx v
         | None => ret tt
         end) (seq (length done) (length rest))
      (<[a := OList (map (substituted settings g e) done ++ rest)]> h)
    = Ok (tt, <[a := OList (map (substituted settings g e) (done ++ rest))]> h).
Proof.
  intros Hg He Hag Hae rest.
  induction rest as [|v rest IH]; intros done Ha Hflat.
  - simpl. now rewrite !app_nil_r.
  - assert (Hlt : a < length h) by (eapply lookup_lt_Some; eauto).
    set (cur := map (substituted settings g e) done ++ v :: rest).
    assert (Hcur : <[a := OList cur]> h !! a = Some (OList cur))
      by now apply list_lookup_insert_eq.
    assert (Hg' : <[a := OList cur]> h !! global_vars = Some (ODict g))
      by now rewrite list_lookup_insert_ne.
    assert (He' : <[a := OList cur]> h !! env_vars = Some (ODict e))
      by now rewrite list_lookup_insert_ne.
    assert (Hidx : cur !! length done = Some v).
    { unfold cur. apply list_lookup_middle. now rewrite length_map. }
    apply Forall_cons in Hflat as [Hv Hrest].
    simpl for_each. rewrite bind_eq.
    assert (Hstep :
      (let* l := read_list a in
       match l !! length done with
       | Some v0 =>
           resolve_item settings rec env_vars global_vars a (length done) v0
       | None => ret tt
       end) (<[a := OList cur]> h)
      = Ok (tt, <[a := OList (map (substituted settings g e) (done ++ [v])
                               ++ rest)]> h)).
    { rewrite bind_eq, (read_list_eq _ _ _ Hcur), Hidx.
      rewrite map_app, <- app_assoc. simpl.
      unfold flat_item in Hv. unfold substituted at 2.
      destruct (is_variable settings v) eqn:Hvar.
      - destruct (lookup_variable g e (str_of v)) as [w|] eqn:Hw;
          [| congruence].
        assert (Hi : length done < length cur).
        { eapply lookup_lt_Some; eauto. }
        rewrite (resolve_item_variable settings env_vars global_vars _ _ _ _
                   _ _ _ _ _ Hvar Hg' He' Hw Hcur Hi).
        rewrite list_insert_insert_eq. unfold cur.
        rewrite insert_app_r_alt by (rewrite length_map; lia).
        now rewrite length_map, Nat.sub_diag.
      - destruct Hv as [Hl Hd].
        unfold resolve_item. rewrite bind_eq. unfold get_heap. rewrite Hvar.
        assert (is_dict (<[a := OList cur]> h) v = false) as ->.
        { destruct v; auto. unfold list_addr, is_dict in *.
          destruct (decide (a0 = a)) as [-> | Hne].
          - now rewrite Hcur.
          - now rewrite list_lookup_insert_ne by congruence. }
        reflexivity. }
    rewrite Hstep.
    specialize (IH (done ++ [v])).
    rewrite <- !app_assoc in IH. simpl in IH.
    rewrite length_app in IH. simpl in IH.
    replace (S (length done)) with (length done + 1) by lia.
    apply IH; auto.
Qed.

Lemma flat_sequence_resolves fuel a (h : heap) l g e :
  h !! a = Some (OList l) ->
  h !! global_vars = Some (ODict g) -> h !! env_vars = Some (ODict e) ->
  a <> global_vars -> a <> env_vars ->
  Forall (flat_item settings h g e) l ->
  parse_config settings reg (S fuel) (VRef a) env_vars global_vars h
  = Ok (VRef a, <[a := OList (map (substituted settings g e) l)]> h).
Proof.
  intros Ha Hg He Hag Hae Hflat.
  simpl. rewrite bind_eq. unfold get_heap. simpl. rewrite Ha.
  rewrite bind_eq. unfold for_enumerate.
  rewrite bind_eq, (read_list_eq _ _ _ Ha).
  pose proof (flat_items_loop
                (fun val => parse_config settings reg fuel val env_vars
                              global_vars)
                a h g e Hg He Hag Hae l [] Ha Hflat) as Hloop.
  simpl in Hloop. rewrite (list_insert_id _ _ _ Ha) in Hloop.
  now rewrite Hloop.
Qed.

End FlatDocuments.

(** C9. Substitution is final.  At each site where [parse_config]
    substitutes a variable reference (an item of a list, a value of a
    dict), the value the tiers hold is stored as it is, whatever it is, and
    nothing else changes.  Hence a mapping or a sequence whose items are
    variable references or values that are neither lists nor dicts
    resolves, with any fuel and any registry, to itself with each
    reference replaced by the value it stands for: the store changes at
    the document only, so a substituted list or dict (with [_name] or not)
    is not visited and no module is called for it, and a substituted
    string that starts with the prefix stays. *)
Theorem substitution_is_final :
  forall (settings : Settings) (reg : registry) (env_vars global_vars : addr)
         (h : heap) (g e : list (string * value)),
    h !! global_vars = Some (ODict g) ->
    h !! env_vars = Some (ODict e) ->
    (forall rec container idx val l v,
        is_variable settings val = true ->
        lookup_variable g e (str_of val) = Some v ->
        h !! container = Some (OList l) -> idx < length l ->
        resolve_item settings rec env_vars global_vars container idx val h
        = Ok (tt, <[container := OList (<[idx := v]> l)]> h))
    /\ (forall fuel rec config key val d v,
          is_variable settings val = true ->
          lookup_variable g e (str_of val) = Some v ->
          h !! config = Some (ODict d) ->
          resolve_entry settings fuel rec env_vars global_vars config key val h
          = Ok (tt, <[config := ODict (dict_set d key v)]> h))
    /\ (forall fuel a d,
          h !! a = Some (ODict d) ->
          a <> global_vars -> a <> env_vars ->
          NoDup (dict_keys d) -> dict_get d "_name" = None ->
          Forall (fun kv => flat_item settings h g e (snd kv)) d ->
          parse_config settings reg (S fuel) (VRef a) env_vars global_vars h
          = Ok (VRef a,
                <[a := ODict (map (substituted_entry settings g e) d)]> h))
    /\ (forall fuel a l,
          h !! a = Some (OList l) ->
          a <> global_vars -> a <> env_vars ->
          Forall (flat_item settings h g e) l ->
          parse_config settings reg (S fuel) (VRef a) env_vars global_vars h
          = Ok (VRef a, <[a := OList (map (substituted settings g e) l)]> h)).
Proof.
  intros settings reg env_vars global_vars h g e Hg He.
  split; [| split; [| split]].
  - intros. eapply resolve_item_variable; eauto.
  - intros. eapply resolve_entry_variable; eauto.
  - intros. eapply flat_mapping_resolves; eauto.
  - intros. eapply flat_sequence_resolves; eauto.
Qed.

Lemma substitution_is_final_witness :
  parse_config default_settings one_module 1 (VRef 3) 0 1 substitution_doc
  = Ok (VRef 3,
        [ODict [];
         ODict [("net", VRef 2); ("loop", VStr "@loop")];
         ODict [("_name", VStr "m")];
         ODict [("a", VRef 2); ("b", VStr "@loop")]]).
Proof.
  destruct (substitution_is_final default_settings one_module 0 1
              substitution_doc
              [("net", VRef 2); ("loop", VStr "@loop")] [] eq_refl eq_refl)
    as (_ & _ & Hdoc & _).
  apply (Hdoc 0 3 [("a", VStr "@net"); ("b", VStr "@loop")]).
  - reflexivity.
  - lia.
  - lia.
  - apply (bool_decide_unpack _). vm_compute. exact I.
  - reflexivity.
  - repeat constructor; unfold flat_item; simpl; discriminate.
Defined.

(** ** Union-merge *)

Lemma dict_get_split {V} (d : list (string * V)) k v :
  dict_get d k = Some v ->
  exists pre post, d = pre ++ (k, v) :: post /\ ~ In k (dict_keys pre).
Proof.
  induction d as [|[k' v'] d IH]; simpl; [discriminate |].
  destruct (String.eqb k' k) eqn:E.
  - apply String.eqb_eq in E. subst k'. intros [= ->].
    exists [], d. simpl. tauto.
  - apply String.eqb_neq in E. intros H.
    destruct (IH H) as (pre & post & -> & Hk).
    exists ((k', v') :: pre), post. simpl. split; [reflexivity | tauto].
Qed.

Lemma dict_set_absent {V} (d : list (string * V)) k v :
  dict_get d k = None -> dict_set d k v = d ++ [(k, v)].
Proof.
  induction d as [|[k' v'] d IH]; simpl; [reflexivity |].
  destruct (String.eqb k' k); [discriminate |].
  intros H. now rewrite IH.
Qed.

Section ReifyEntries.
Variable rec : value -> option (mapping * list addr).

Lemma reify_entries_app l1 l2 :
  reify_entries rec (l1 ++ l2)
  = match reify_entries rec l1, reify_entries rec l2 with
    | Some (T1, F1), Some (T2, F2) => Some (T1 ++ T2, F1 ++ F2)
    | _, _ => None
    end.
Proof.
  induction l1 as [|[k v] l1 IH]; simpl.
  - destruct (reify_entries rec l2) as [[T2 F2]|]; reflexivity.
  - destruct (rec v) as [[t f]|]; [| reflexivity].
    rewrite IH.
    destruct (reify_entries rec l1) as [[T1 F1]|]; [| reflexivity].
    destruct (reify_entries rec l2) as [[T2 F2]|]; [| reflexivity].
    now rewrite app_assoc.
Qed.

Lemma reify_entries_keys l T F :
  reify_entries rec l = Some (T, F) -> dict_keys T = dict_keys l.
Proof.
  revert T F. induction l as [|[k v] l IH]; intros T F; simpl.
  - now intros [= <- <-].
  - destruct (rec v) as [[t f]|]; [| discriminate].
    destruct (reify_entries rec l) as [[T' F']|]; [| discriminate].
    intros [= <- <-]. simpl. now rewrite (IH T' F').
Qed.

Lemma reify_entries_ext (rec' : value -> option (mapping * list addr)) l :
  Forall (fun kv : string * value => rec' (snd kv) = rec (snd kv)) l ->
  reify_entries rec' l = reify_entries rec l.
Proof.
  induction 1 as [|[k v] l Hv _ IH]; simpl; [reflexivity |].
  simpl in Hv. now rewrite Hv, IH.
Qed.

Lemma reify_entries_footprint l T F (Q : addr -> Prop) :
  (forall v t f, rec v = Some (t, f) -> forall a, a ∈ f -> Q a) ->
  reify_entries rec l = Some (T, F) -> forall a, a ∈ F -> Q a.
Proof.
  intros Hrec. revert T F. induction l as [|[k v] l IH]; intros T F; simpl.
  - intros [= <- <-] a Ha. inversion Ha.
  - destruct (rec v) as [[t f]|] eqn:Ev; [| discriminate].
    destruct (reify_entries rec l) as [[T' F']|] eqn:El; [| discriminate].
    intros [= <- <-] a Ha. apply elem_of_app in Ha as [Ha | Ha].
    + eapply Hrec; eauto.
    + eapply IH; eauto.
Qed.

End ReifyEntries.

Lemma footprint_dicts fuel (h : heap) :
  forall v t f,
    reify_mapping fuel h v = Some (t, f) ->
    forall a, a ∈ f -> exists d, h !! a = Some (ODict d).
Proof.
  induction fuel as [|fuel IH]; intros v t f; simpl; [discriminate |].
  destruct v; try (intros [= <- <-] a Ha; inversion Ha).
  destruct (h !! a) as [[l|l|d]|] eqn:Hd;
    try (intros [= <- <-] a' Ha; inversion Ha).
  destruct (reify_entries (reify_mapping fuel h) d) as [[ts fs]|] eqn:E;
    [| discriminate].
  intros [= <- <-] a' Ha. apply elem_of_cons in Ha as [-> | Ha].
  - eauto.
  - apply (reify_entries_footprint (reify_mapping fuel h) d ts fs
             (fun a => exists d0, h !! a = Some (ODict d0))); eauto.
Qed.

Lemma reify_dict fuel (h : heap) v t f :
  reify_mapping fuel h v = Some (t, f) ->
  if is_dict h v then exists es, t = Mapping es else t = Leaf v /\ f = [].
Proof.
  destruct fuel as [|fuel]; simpl; [discriminate |].
  destruct v; simpl; try (intros [= <- <-]; auto).
  destruct (h !! a) as [[l|l|d]|]; try (intros [= <- <-]; auto).
  destruct (reify_entries (reify_mapping fuel h) d) as [[ts fs]|];
    [| discriminate].
  intros [= <- <-]. eauto.
Qed.

Lemma reify_frame fuel (h h' : heap) (w : list addr) :
  changed_only_in w h h' ->
  (forall a, a ∈ w -> exists d, h !! a = Some (ODict d)) ->
  forall v t f,
    reify_mapping fuel h v = Some (t, f) ->
    (forall a, a ∈ f -> a ∉ w) ->
    reify_mapping fuel h' v = Some (t, f).
Proof.
  intros Hch Hw. induction fuel as [|fuel IH]; intros v t f; simpl;
    [discriminate |].
  destruct v; auto.
  destruct (Hch a) as [Ha | Ha].
  - destruct (Hw a Ha) as [d Hd]. rewrite Hd.
    destruct (reify_entries (reify_mapping fuel h) d) as [[ts fs]|];
      [| discriminate].
    intros [= <- <-] Hf. exfalso. apply (Hf a); [left | assumption].
  - rewrite Ha. destruct (h !! a) as [[l|l|d]|]; auto.
    destruct (reify_entries (reify_mapping fuel h) d) as [[ts fs]|] eqn:E;
      [| discriminate].
    intros [= <- <-] Hf.
    assert (E' : reify_entries (reify_mapping fuel h') d = Some (ts, fs)).
    { clear Ha. revert ts fs E Hf.
      induction d as [|[k v] d IHd]; intros ts fs; simpl.
      - auto.
      - destruct (reify_mapping fuel h v) as [[t0 f0]|] eqn:Ev;
          [| discriminate].
        destruct (reify_entries (reify_mapping fuel h) d) as [[ts' fs']|]
          eqn:Ed; [| discriminate].
        intros [= <- <-] Hf.
        rewrite (IH v t0 f0 Ev).
        + rewrite (IHd ts' fs' eq_refl); [reflexivity |].
          intros a' Ha'. apply Hf. apply elem_of_cons in Ha' as [-> | Ha'].
          * left.
          * right. apply elem_of_app. now right.
        + intros a' Ha'. apply Hf. right. apply elem_of_app. now left. }
    now rewrite E'.
Qed.

Lemma reify_entries_frame fuel (h h' : heap) (w : list addr) :
  changed_only_in w h h' ->
  (forall a, a ∈ w -> exists d, h !! a = Some (ODict d)) ->
  forall l T F,
    reify_entries (reify_mapping fuel h) l = Some (T, F) ->
    (forall a, a ∈ F -> a ∉ w) ->
    reify_entries (reify_mapping fuel h') l = Some (T, F).
Proof.
  intros Hch Hw l. induction l as [|[k v] l IH]; intros T F; simpl; auto.
  destruct (reify_mapping fuel h v) as [[t0 f0]|] eqn:Ev; [| discriminate].
  destruct (reify_entries (reify_mapping fuel h) l) as [[ts' fs']|] eqn:El;
    [| discriminate].
  intros [= <- <-] Hf.
  rewrite (reify_frame fuel h h' w Hch Hw v t0 f0 Ev).
  - rewrite (IH ts' fs' eq_refl); [reflexivity |].
    intros a Ha. apply Hf. apply elem_of_app. now right.
  - intros a Ha. apply Hf. apply elem_of_app. now left.
Qed.

Lemma changed_only_in_trans (w1 w2 w : list addr) (h1 h2 h3 : heap) :
  changed_only_in w1 h1 h2 -> changed_only_in w2 h2 h3 ->
  (forall a, a ∈ w1 -> a ∈ w) -> (forall a, a ∈ w2 -> a ∈ w) ->
  changed_only_in w h1 h3.
Proof.
  intros H12 H23 Hw1 Hw2 a.
  destruct (H12 a) as [Ha | Ha]; [left; auto |].
  destruct (H23 a) as [Ha' | Ha']; [left; auto |].
  right. congruence.
Qed.

Lemma changed_only_in_insert (h : heap) a o :
  changed_only_in [a] h (<[a := o]> h).
Proof.
  intros b. destruct (decide (b = a)) as [-> | Hne].
  - left. left.
  - right. now apply list_lookup_insert_ne.
Qed.

Section FootprintLists.
Variables F1 X F2 Y R X' : list addr.
Hypothesis Hsub : forall a, a ∈ X' -> a ∈ X ++ Y.

Lemma nodup_replace :
  NoDup ((F1 ++ X ++ F2) ++ Y ++ R) -> NoDup X' ->
  NoDup ((F1 ++ X' ++ F2) ++ R).
Proof.
  rewrite !NoDup_app. intros Hnd Hx.
  assert (Hsub' : forall a, a ∈ X' -> a ∈ X \/ a ∈ Y).
  { intros a Ha. apply elem_of_app. auto. }
  set_solver.
Qed.

Lemma notin_replace a :
  a ∉ (F1 ++ X ++ F2) ++ Y ++ R -> a ∉ (F1 ++ X' ++ F2) ++ R.
Proof.
  assert (Hsub' : forall a, a ∈ X' -> a ∈ X \/ a ∈ Y).
  { intros b Hb. apply elem_of_app. auto. }
  set_solver.
Qed.

Lemma subset_replace a :
  a ∈ (F1 ++ X' ++ F2) ++ R -> a ∈ (F1 ++ X ++ F2) ++ Y ++ R.
Proof.
  assert (Hsub' : forall a, a ∈ X' -> a ∈ X \/ a ∈ Y).
  { intros b Hb. apply elem_of_app. auto. }
  set_solver.
Qed.

End FootprintLists.

Lemma changed_only_in_mono (w w' : list addr) (h h' : heap) :
  changed_only_in w h h' -> (forall a, a ∈ w -> a ∈ w') ->
  changed_only_in w' h h'.
Proof. intros H Hw a. destruct (H a); auto. Qed.

Lemma nodup_middle (F1 X F2 Y R : list addr) :
  NoDup ((F1 ++ X ++ F2) ++ Y ++ R) -> NoDup (X ++ Y).
Proof. rewrite !NoDup_app. set_solver. Qed.

Lemma nodup_apart_left (F1 X F2 Y R : list addr) :
  NoDup ((F1 ++ X ++ F2) ++ Y ++ R) -> forall a, a ∈ F1 -> a ∉ X ++ Y.
Proof. rewrite !NoDup_app. set_solver. Qed.

Lemma nodup_apart_right (F1 X F2 Y R : list addr) :
  NoDup ((F1 ++ X ++ F2) ++ Y ++ R) -> forall a, a ∈ F2 -> a ∉ X ++ Y.
Proof. rewrite !NoDup_app. set_solver. Qed.

Lemma union_merge_leaf (tdv tsv : mapping) :
  (forall es, tsv <> Mapping es) \/ (forall es, tdv <> Mapping es) ->
  union_merge tdv tsv = tdv.
Proof.
  intros [H | H]; destruct tdv, tsv; try reflexivity.
  - exfalso. now apply (H entries0).
  - exfalso. now apply (H entries).
Qed.

Section MergeStep.
Variable fuel : nat.
Hypothesis IHmerge :
  forall (h : heap) s d ts fs td fd u,
    reify_mapping fuel h (VRef s) = Some (Mapping ts, fs) ->
    reify_mapping fuel h (VRef d) = Some (Mapping td, fd) ->
    NoDup (fs ++ fd) -> keys_unique (Mapping td) = true ->
    union_truthy u = true ->
    exists h' fs',
      merge_dict fuel (VRef s) (VRef d) u h = Ok (VRef s, h')
      /\ reify_mapping fuel h' (VRef s)
         = Some (union_merge (Mapping td) (Mapping ts), fs')
      /\ NoDup fs' /\ (forall a, a ∈ fs' -> a ∈ fs ++ fd)
      /\ changed_only_in (fs ++ fd) h h'.
Variable s : addr.
Variable u : union_arg.
Hypothesis Hu : union_truthy u = true.

Lemma merge_item_step (hc : heap) cur tcur FCUR k dv tdv fdv R :
  hc !! s = Some (ODict cur) ->
  reify_entries (reify_mapping fuel hc) cur = Some (tcur, FCUR) ->
  reify_mapping fuel hc dv = Some (tdv, fdv) ->
  keys_unique tdv = true ->
  NoDup (FCUR ++ fdv ++ R) -> s ∉ FCUR ++ fdv ++ R ->
  exists hc' cur' FCUR',
    merge_item (merge_dict fuel) s u k dv hc = Ok (tt, hc')
    /\ hc' !! s = Some (ODict cur')
    /\ reify_entries (reify_mapping fuel hc') cur'
       = Some (dict_set tcur k
                 (match dict_get tcur k with
                  | Some tsv => union_merge tdv tsv
                  | None => tdv
                  end), FCUR')
    /\ NoDup (FCUR' ++ R)
    /\ (forall a, a ∈ FCUR' ++ R -> a ∈ FCUR ++ fdv ++ R)
    /\ changed_only_in (s :: FCUR ++ fdv) hc hc'.
Proof.
  intros Hs Hcur Hdv Hku Hnd Hsn.
  assert (Hlt : s < length hc) by (eapply lookup_lt_Some; eauto).
  assert (Hsw : forall a, a ∈ [s] -> exists d0, hc !! a = Some (ODict d0)).
  { intros a Ha. apply list_elem_of_singleton in Ha. subst. eauto. }
  unfold merge_item. rewrite bind_eq, (read_dict_eq _ _ _ Hs).
  destruct (dict_get cur k) as [sv|] eqn:Hk.
  - destruct (dict_get_split _ _ _ Hk) as (c1 & c2 & -> & Hk1).
    rewrite reify_entries_app in Hcur. simpl in Hcur.
    destruct (reify_entries (reify_mapping fuel hc) c1) as [[T1 F1]|] eqn:E1;
      [| discriminate].
    destruct (reify_mapping fuel hc sv) as [[tsv fsv]|] eqn:Esv;
      [| discriminate].
    destruct (reify_entries (reify_mapping fuel hc) c2) as [[T2 F2]|] eqn:E2;
      [| discriminate].
    injection Hcur as <- <-.
    assert (Hk1' : ~ In k (dict_keys T1)).
    { now rewrite (reify_entries_keys _ _ _ _ E1). }
    rewrite (dict_get_middle _ _ _ _ Hk1'), (dict_set_middle _ _ _ _ _ Hk1').
    rewrite bind_eq. unfold get_heap.
    destruct (is_dict hc sv && is_dict hc dv) eqn:Hboth.
    + apply andb_true_iff in Hboth as [Hd1 Hd2].
      pose proof (reify_dict _ _ _ _ _ Esv) as Hts. rewrite Hd1 in Hts.
      pose proof (reify_dict _ _ _ _ _ Hdv) as Htd. rewrite Hd2 in Htd.
      destruct Hts as [ss' ->]. destruct Htd as [dd' ->].
      destruct (is_dict_ref _ _ Hd1) as [a' ->].
      destruct (is_dict_ref _ _ Hd2) as [b' ->].
      destruct (IHmerge hc a' b' ss' fsv dd' fdv (UPath ([] ++ [k])) Esv Hdv
                  (nodup_middle _ _ _ _ _ Hnd) Hku eq_refl)
        as (hc' & fsv' & Hm & Hr & Hnd' & Hsub & Hch).
      assert (Hw : forall a, a ∈ fsv ++ fdv ->
                             exists d0, hc !! a = Some (ODict d0)).
      { intros a Ha. apply elem_of_app in Ha as [Ha | Ha].
        - exact (footprint_dicts _ _ _ _ _ Esv a Ha).
        - exact (footprint_dicts _ _ _ _ _ Hdv a Ha). }
      rewrite bind_eq, Hm.
      exists hc', (c1 ++ (k, VRef a') :: c2), (F1 ++ fsv' ++ F2).
      split; [reflexivity |]. split; [| split; [| split; [| split]]].
      * destruct (Hch s) as [Ha | Ha]; [| congruence].
        exfalso. apply Hsn. set_solver.
      * rewrite reify_entries_app. simpl.
        rewrite (reify_entries_frame fuel hc hc' _ Hch Hw c1 T1 F1 E1).
        2: { eapply nodup_apart_left; eauto. }
        rewrite Hr.
        rewrite (reify_entries_frame fuel hc hc' _ Hch Hw c2 T2 F2 E2).
        2: { eapply nodup_apart_right; eauto. }
        reflexivity.
      * now apply (nodup_replace F1 fsv F2 fdv R fsv').
      * intros a. now apply subset_replace.
      * eapply changed_only_in_mono; [exact Hch |]. set_solver.
    + assert (Hleaf : union_merge tdv tsv = tdv).
      { apply union_merge_leaf. apply andb_false_iff in Hboth as [Hd | Hd].
        - left. pose proof (reify_dict _ _ _ _ _ Esv) as H.
          rewrite Hd in H. destruct H as [-> _]. discriminate.
        - right. pose proof (reify_dict _ _ _ _ _ Hdv) as H.
          rewrite Hd in H. destruct H as [-> _]. discriminate. }
      rewrite Hleaf, (dict_setitem_eq _ _ _ _ _ Hs).
      rewrite (dict_set_middle _ _ _ _ _ Hk1).
      pose proof (changed_only_in_insert hc s
                    (ODict (c1 ++ (k, dv) :: c2))) as Hch.
      eexists _, (c1 ++ (k, dv) :: c2), (F1 ++ fdv ++ F2).
      split; [reflexivity |]. split; [| split; [| split; [| split]]].
      * now apply list_lookup_insert_eq.
      * rewrite reify_entries_app. simpl.
        rewrite (reify_entries_frame fuel hc _ _ Hch Hsw c1 T1 F1 E1).
        2: { set_solver. }
        rewrite (reify_frame fuel hc _ _ Hch Hsw dv tdv fdv Hdv).
        2: { set_solver. }
        rewrite (reify_entries_frame fuel hc _ _ Hch Hsw c2 T2 F2 E2).
        2: { set_solver. }
        reflexivity.
      * apply (nodup_replace F1 fsv F2 fdv R fdv); auto.
        -- set_solver.
        -- rewrite !NoDup_app in Hnd. tauto.
      * intros a. apply subset_replace. set_solver.
      * eapply changed_only_in_mono; [exact Hch |]. set_solver.
  - rewrite Hu, (dict_setitem_eq _ _ _ _ _ Hs), (dict_set_absent _ _ _ Hk).
    assert (Hk' : dict_get tcur k = None).
    { apply dict_get_none_keys. rewrite (reify_entries_keys _ _ _ _ Hcur).
      now apply dict_get_none_keys. }
    rewrite Hk', (dict_set_absent _ _ _ Hk').
    pose proof (changed_only_in_insert hc s (ODict (cur ++ [(k, dv)]))) as Hch.
    eexists _, (cur ++ [(k, dv)]), (FCUR ++ fdv ++ []).
    split; [reflexivity |]. split; [| split; [| split; [| split]]].
    + now apply list_lookup_insert_eq.
    + rewrite reify_entries_app. simpl.
      rewrite (reify_entries_frame fuel hc _ _ Hch Hsw cur tcur FCUR Hcur).
      2: { set_solver. }
      rewrite (reify_frame fuel hc _ _ Hch Hsw dv tdv fdv Hdv).
      2: { set_solver. }
      reflexivity.
    + now rewrite app_nil_r, <- app_assoc.
    + intros a. rewrite app_nil_r, <- app_assoc. auto.
    + eapply changed_only_in_mono; [exact Hch |]. set_solver.
Qed.

End MergeStep.

Lemma entries_footprint_dicts fuel (h : heap) l T F :
  reify_entries (reify_mapping fuel h) l = Some (T, F) ->
  forall a, a ∈ F -> exists d, h !! a = Some (ODict d).
Proof.
  intros H.
  apply (reify_entries_footprint (reify_mapping fuel h) l T F
           (fun a => exists d, h !! a = Some (ODict d))); auto.
  intros v t f. apply footprint_dicts.
Qed.

Lemma for_each_cons {X} (body : X -> M unit) x xs (h : heap) :
  for_each body (x :: xs) h
  = match body x h with
    | Ok (_, h') => for_each body xs h'
    | Raise e => Raise e
    | OutOfFuel => OutOfFuel
    end.
Proof. reflexivity. Qed.

Section MergeLoop.
Variable fuel : nat.
Hypothesis IHmerge :
  forall (h : heap) s d ts fs td fd u,
    reify_mapping fuel h (VRef s) = Some (Mapping ts, fs) ->
    reify_mapping fuel h (VRef d) = Some (Mapping td, fd) ->
    NoDup (fs ++ fd) -> keys_unique (Mapping td) = true ->
    union_truthy u = true ->
    exists h' fs',
      merge_dict fuel (VRef s) (VRef d) u h = Ok (VRef s, h')
      /\ reify_mapping fuel h' (VRef s)
         = Some (union_merge (Mapping td) (Mapping ts), fs')
      /\ NoDup fs' /\ (forall a, a ∈ fs' -> a ∈ fs ++ fd)
      /\ changed_only_in (fs ++ fd) h h'.
Variables s d : addr.
Variable u : union_arg.
Hypothesis Hu : union_truthy u = true.
Variable dd : list (string * value).
Hypothesis Hdd : NoDup (dict_keys dd).

Lemma merge_loop :
  forall rest pre (hc : heap) cur tcur FCUR trest FR,
    dd = pre ++ rest ->
    hc !! s = Some (ODict cur) -> hc !! d = Some (ODict dd) ->
    reify_entries (reify_mapping fuel hc) cur = Some (tcur, FCUR) ->
    reify_entries (reify_mapping fuel hc) rest = Some (trest, FR) ->
    forallb (fun kv : string * mapping => keys_unique (snd kv)) trest = true ->
    NoDup (FCUR ++ FR ++ [d]) -> s ∉ FCUR ++ FR ++ [d] ->
    exists h' cur' FCUR',
      for_each
        (fun k =>
           let* _ := check_size d (length dd) in
           let* d0 := read_dict d in
           match dict_get d0 k with
           | Some v => merge_item (merge_dict fuel) s u k v
           | None =>
               raise (RuntimeError "dictionary keys changed during iteration")
           end) (dict_keys rest) hc = Ok (tt, h')
      /\ h' !! s = Some (ODict cur') /\ h' !! d = Some (ODict dd)
      /\ reify_entries (reify_mapping fuel h') cur'
         = Some (merge_entries (fun dv sv => union_merge dv sv) trest tcur,
                 FCUR')
      /\ NoDup (FCUR' ++ [d])
      /\ (forall a, a ∈ FCUR' -> a ∈ FCUR ++ FR)
      /\ changed_only_in (s :: FCUR ++ FR) hc h'.
Proof.
  induction rest as [|[k dv] rest IH];
    intros pre hc cur tcur FCUR trest FR Hpre Hs Hd Hcur Hrest Hku Hnd Hsn.
  - simpl in Hrest. injection Hrest as <- <-.
    exists hc, cur, FCUR. simpl.
    split; [reflexivity |]. split; [assumption |]. split; [assumption |].
    split; [assumption |]. split; [| split].
    + exact Hnd.
    + intros a Ha. rewrite app_nil_r. exact Ha.
    + intros a. now right.
  - simpl in Hrest.
    destruct (reify_mapping fuel hc dv) as [[tdv fdv]|] eqn:Edv;
      [| discriminate].
    destruct (reify_entries (reify_mapping fuel hc) rest) as [[trest' FR']|]
      eqn:Erest; [| discriminate].
    injection Hrest as <- <-.
    simpl in Hku. apply andb_true_iff in Hku as [Hku1 Hku2].
    assert (Hnd1 : NoDup (FCUR ++ fdv ++ FR' ++ [d])).
    { now rewrite <- app_assoc in Hnd. }
    assert (Hsn1 : s ∉ FCUR ++ fdv ++ FR' ++ [d]).
    { now rewrite <- app_assoc in Hsn. }
    destruct (merge_item_step fuel IHmerge s u Hu hc cur tcur FCUR k dv tdv
                fdv (FR' ++ [d]) Hs Hcur Edv Hku1 Hnd1 Hsn1)
      as (hc' & cur' & FCUR' & Hstep & Hs' & Hcur' & Hnd' & Hsub' & Hch').
    assert (Hkpre : ~ In k (dict_keys pre)).
    { subst dd. unfold dict_keys in Hdd. rewrite map_app in Hdd.
      apply NoDup_app in Hdd as (_ & Hdis & _).
      intros Hin. apply (Hdis k); [now apply list_elem_of_In | left]. }
    assert (Hget : dict_get dd k = Some dv).
    { subst dd. now apply dict_get_middle. }
    assert (Hd' : hc' !! d = Some (ODict dd)).
    { destruct (Hch' d) as [Ha | Ha]; [| congruence].
      exfalso. rewrite !NoDup_app in Hnd1. set_solver. }
    assert (Hw : forall a, a ∈ s :: FCUR ++ fdv ->
                           exists d0, hc !! a = Some (ODict d0)).
    { intros a Ha. apply elem_of_cons in Ha as [-> | Ha]; [eauto |].
      apply elem_of_app in Ha as [Ha | Ha].
      - exact (entries_footprint_dicts _ _ _ _ _ Hcur a Ha).
      - exact (footprint_dicts _ _ _ _ _ Edv a Ha). }
    assert (Erest' : reify_entries (reify_mapping fuel hc') rest
                     = Some (trest', FR')).
    { apply (reify_entries_frame fuel hc hc' _ Hch' Hw); auto.
      rewrite !NoDup_app in Hnd1. set_solver. }
    assert (Hsn' : s ∉ FCUR' ++ FR' ++ [d]).
    { intros Hin. apply Hsn1. now apply Hsub'. }
    destruct (IH (pre ++ [(k, dv)]) hc' cur'
                (dict_set tcur k
                   (match dict_get tcur k with
                    | Some tsv => union_merge tdv tsv
                    | None => tdv
                    end)) FCUR' trest' FR')
      as (h' & cur'' & FCUR'' & Hloop & Hs'' & Hd'' & Hcur'' & Hnd'' & Hsub''
          & Hch''); auto.
    { rewrite <- app_assoc. exact Hpre. }
    exists h', cur'', FCUR''.
    split; [| split; [| split; [| split; [| split; [| split]]]]]; auto.
    + change (dict_keys ((k, dv) :: rest)) with (k :: dict_keys rest).
      rewrite for_each_cons.
      rewrite bind_eq. unfold check_size.
      rewrite bind_eq, (read_dict_eq _ _ _ Hd).
      destruct (decide (length dd = length dd)); [| congruence].
      unfold ret. rewrite bind_eq, (read_dict_eq _ _ _ Hd), Hget.
      rewrite Hstep. exact Hloop.
    + intros a Ha. specialize (Hsub'' a Ha).
      assert (Hin : a ∈ FCUR' ++ FR' ++ [d]) by set_solver.
      specialize (Hsub' a Hin).
      assert (a <> d).
      { intros ->. rewrite !NoDup_app in Hnd''.
        destruct Hnd'' as (_ & Hdis & _). apply (Hdis d Ha). left. }
      set_solver.
    + eapply changed_only_in_trans; [exact Hch' | exact Hch'' | |].
      * set_solver.
      * intros a Ha. apply elem_of_cons in Ha as [-> | Ha]; [left |].
        assert (Hin : a ∈ FCUR' ++ FR' ++ [d]) by set_solver.
        specialize (Hsub' a Hin).
        assert (a <> d).
        { intros ->. rewrite !NoDup_app in Hnd'.
          destruct Hnd' as (_ & Hdis & _).
          apply elem_of_app in Ha as [Ha | Ha].
          - apply (Hdis d Ha). set_solver.
          - rewrite !NoDup_app in Hnd1. set_solver. }
        set_solver.
Qed.

End MergeLoop.

(** Every key of the merged entries, looked up: a key of the difference has
    the merged value where the source has the key too and the difference's
    value where it has not; every other key keeps the source's value. *)
Lemma merge_entries_lookup (f : mapping -> mapping -> mapping) dd :
  NoDup (dict_keys dd) ->
  forall ss k,
    dict_get (merge_entries f dd ss) k
    = match dict_get dd k, dict_get ss k with
      | Some dv, Some sv => Some (f dv sv)
      | Some dv, None => Some dv
      | None, r => r
      end.
Proof.
  induction dd as [|[k0 dv] dd IH]; intros Hnd ss k; simpl.
  - reflexivity.
  - change (dict_keys ((k0, dv) :: dd)) with (k0 :: dict_keys dd) in Hnd.
    apply NoDup_cons in Hnd as [Hk0 Hnd].
    rewrite (IH Hnd).
    destruct (String.eqb k0 k) eqn:E.
    + apply String.eqb_eq in E. subst k.
      assert (dict_get dd k0 = None) as ->.
      { apply dict_get_none_keys. intros Hin. apply Hk0.
        now apply list_elem_of_In. }
      rewrite dict_get_set_eq. now destruct (dict_get ss k0).
    + apply String.eqb_neq in E.
      now rewrite (dict_get_set_ne _ _ _ _ E).
Qed.

(** On separated stores [merge_dict] computes [union_merge]: the source
    dict afterwards stands for the union-merge of the two mappings, and only
    dicts of the two mappings were written. *)
Lemma merge_refines fuel :
  forall (h : heap) s d ts fs td fd u,
    reify_mapping fuel h (VRef s) = Some (Mapping ts, fs) ->
    reify_mapping fuel h (VRef d) = Some (Mapping td, fd) ->
    NoDup (fs ++ fd) -> keys_unique (Mapping td) = true ->
    union_truthy u = true ->
    exists h' fs',
      merge_dict fuel (VRef s) (VRef d) u h = Ok (VRef s, h')
      /\ reify_mapping fuel h' (VRef s)
         = Some (union_merge (Mapping td) (Mapping ts), fs')
      /\ NoDup fs' /\ (forall a, a ∈ fs' -> a ∈ fs ++ fd)
      /\ changed_only_in (fs ++ fd) h h'.
Proof.
  induction fuel as [|fuel IH]; intros h s d ts fs td fd u Hs Hd Hnd Hku Hu.
  - discriminate.
  - simpl in Hs, Hd.
    destruct (h !! s) as [[| |cur]|] eqn:Es; try discriminate.
    destruct (reify_entries (reify_mapping fuel h) cur) as [[ts0 fs0]|]
      eqn:Ecur; [| discriminate].
    injection Hs as <- <-.
    destruct (h !! d) as [[| |dd]|] eqn:Ed; try discriminate.
    destruct (reify_entries (reify_mapping fuel h) dd) as [[td0 fd0]|]
      eqn:Edd; [| discriminate].
    injection Hd as <- <-.
    simpl in Hku. apply andb_true_iff in Hku as [Hk1 Hk2].
    apply bool_decide_eq_true in Hk1.
    rewrite (reify_entries_keys _ _ _ _ Edd) in Hk1.
    assert (Hperm : fs0 ++ fd0 ++ [d] ≡ₚ fs0 ++ d :: fd0).
    { apply Permutation_app_head. symmetry. apply Permutation_cons_append. }
    simpl in Hnd. apply NoDup_cons in Hnd as [Hsn Hnd1].
    rewrite <- Hperm in Hsn, Hnd1.
    destruct (merge_loop fuel IH s d u Hu dd Hk1 dd [] h cur ts0 fs0 td0 fd0
                eq_refl Es Ed Ecur Edd Hk2 Hnd1 Hsn)
      as (h' & cur' & FCUR' & Hloop & Hs' & Hd' & Hcur' & Hnd' & Hsub & Hch).
    exists h', (s :: FCUR').
    split; [| split; [| split; [| split]]].
    + simpl. rewrite bind_eq. unfold for_items.
      rewrite bind_eq, (read_dict_eq _ _ _ Ed).
      rewrite bind_eq, Hloop.
      unfold check_size. rewrite bind_eq, (read_dict_eq _ _ _ Hd').
      destruct (decide (length dd = length dd)); [| congruence].
      reflexivity.
    + simpl. rewrite Hs', Hcur'. reflexivity.
    + apply NoDup_cons. split.
      * intros Hin. apply Hsn. specialize (Hsub _ Hin). set_solver.
      * rewrite NoDup_app in Hnd'. tauto.
    + intros a Ha. apply elem_of_cons in Ha as [-> | Ha]; [left |].
      specialize (Hsub _ Ha). set_solver.
    + eapply changed_only_in_mono; [exact Hch |]. set_solver.
Qed.




(** * Further properties of the code *)

(** ** Strings *)

Lemma string_app_cons c (s t : string) :
  String c s +:+ t = String c (s +:+ t).
Proof. reflexivity. Qed.

Lemma string_app_nil_r (s : string) : s +:+ EmptyString = s.
Proof.
  induction s as [|c s IH]; [reflexivity |].
  now rewrite string_app_cons, IH.
Qed.

Lemma string_app_assoc (s t u : string) : (s +:+ t) +:+ u = s +:+ (t +:+ u).
Proof.
  induction s as [|c s IH]; [reflexivity |].
  now rewrite !string_app_cons, IH.
Qed.

Lemma string_length_app (s t : string) :
  String.length (s +:+ t) = String.length s + String.length t.
Proof.
  induction s as [|c s IH]; [reflexivity |].
  rewrite string_app_cons. simpl. now rewrite IH.
Qed.

Lemma concat_cons_char sep c p ps :
  String.concat sep (String c p :: ps) = String c (String.concat sep (p :: ps)).
Proof. destruct ps; reflexivity. Qed.

Lemma concat_cons sep p q qs :
  String.concat sep (p :: q :: qs)
  = p +:+ sep +:+ String.concat sep (q :: qs).
Proof. reflexivity. Qed.

(** ** [indent_text] *)

Lemma split_lines_nonempty text : split_lines text <> [].
Proof.
  destruct text as [|c rest]; simpl; [discriminate |].
  destruct (Ascii.eqb c newline_char); [discriminate |].
  destruct (split_lines rest); discriminate.
Qed.

Lemma join_split_lines text : String.concat newline (split_lines text) = text.
Proof.
  induction text as [|c rest IH]; [reflexivity |]. simpl.
  destruct (Ascii.eqb c newline_char) eqn:E.
  - apply Ascii.eqb_eq in E. subst c.
    pose proof (split_lines_nonempty rest) as Hne.
    destruct (split_lines rest) as [|l ls]; [congruence |].
    rewrite concat_cons, IH. reflexivity.
  - pose proof (split_lines_nonempty rest) as Hne.
    destruct (split_lines rest) as [|l ls]; [congruence |].
    rewrite concat_cons_char, IH. reflexivity.
Qed.

Lemma split_lines_no_newline text :
  Forall (fun l => ~ has_char newline_char l) (split_lines text).
Proof.
  induction text as [|c rest IH]; simpl.
  - constructor; [| constructor]. intros [].
  - destruct (Ascii.eqb c newline_char) eqn:E.
    + constructor; [intros [] | exact IH].
    + apply Ascii.eqb_neq in E.
      destruct (split_lines rest) as [|l ls].
      * constructor; [| constructor]. intros [H | []]. congruence.
      * apply Forall_cons in IH as [Hl Hls]. constructor; [| exact Hls].
        intros [H | H]; [congruence | now apply Hl].
Qed.

Lemma split_lines_line l text :
  ~ has_char newline_char l ->
  split_lines (l +:+ text)
  = match split_lines text with
    | first :: others => (l +:+ first) :: others
    | [] => [l]
    end.
Proof.
  induction l as [|c l IH]; intros Hl.
  - change (EmptyString +:+ text) with text.
    pose proof (split_lines_nonempty text).
    destruct (split_lines text); [congruence | reflexivity].
  - rewrite string_app_cons. simpl.
    destruct (Ascii.eqb c newline_char) eqn:E.
    + apply Ascii.eqb_eq in E. subst c. exfalso. apply Hl. now left.
    + rewrite IH by (intros H; apply Hl; now right).
      now destruct (split_lines text).
Qed.

Lemma split_lines_newline text :
  split_lines (String newline_char text) = EmptyString :: split_lines text.
Proof. reflexivity. Qed.

Lemma split_join_lines ls :
  ls <> [] -> Forall (fun l => ~ has_char newline_char l) ls ->
  split_lines (String.concat newline ls) = ls.
Proof.
  induction ls as [|l ls IH]; intros Hne Hls; [congruence |].
  apply Forall_cons in Hls as [Hl Hls].
  destruct ls as [|l' ls].
  - simpl. rewrite <- (string_app_nil_r l) at 1.
    rewrite (split_lines_line _ _ Hl). simpl. now rewrite string_app_nil_r.
  - rewrite concat_cons. rewrite (split_lines_line _ _ Hl).
    change (newline +:+ String.concat newline (l' :: ls))
      with (String newline_char (String.concat newline (l' :: ls))).
    rewrite split_lines_newline.
    rewrite IH by (auto; discriminate).
    now rewrite string_app_nil_r.
Qed.

Lemma spaces_no_newline n : ~ has_char newline_char (spaces n).
Proof.
  induction n as [|n IH]; [intros [] |].
  intros [H | H]; [discriminate | now apply IH].
Qed.

Lemma has_char_app c (s t : string) :
  has_char c (s +:+ t) <-> has_char c s \/ has_char c t.
Proof.
  unfold has_char. induction s as [|a s IH]; [cbn; tauto |].
  rewrite string_app_cons. simpl. rewrite IH. tauto.
Qed.

Lemma spaces_add a b : spaces (a + b) = spaces a +:+ spaces b.
Proof.
  induction a as [|a IH]; [reflexivity |].
  simpl. now rewrite string_app_cons, IH.
Qed.

(** X1. The lines of an indented text are the lines of the text, each
    behind [indent] spaces: no line is added, dropped or merged. *)
Theorem indent_text_lines (text : string) (indent : nat) :
  split_lines (indent_text text indent)
  = map (fun v => spaces indent +:+ v) (split_lines text).
Proof.
  unfold indent_text. apply split_join_lines.
  - pose proof (split_lines_nonempty text).
    destruct (split_lines text); [congruence | discriminate].
  - apply Forall_map. eapply Forall_impl; [apply split_lines_no_newline |].
    intros l Hl H. apply has_char_app in H as [H | H]; [| now apply Hl].
    now apply (spaces_no_newline indent).
Qed.

Lemma indent_text_add (text : string) (a b : nat) :
  indent_text (indent_text text a) b = indent_text text (b + a).
Proof.
  unfold indent_text at 1.
  assert (Hlines : split_lines (indent_text text a)
                   = map (fun v => spaces a +:+ v) (split_lines text)).
  { unfold indent_text. apply split_join_lines.
    - pose proof (split_lines_nonempty text).
      destruct (split_lines text); [congruence | discriminate].
    - apply Forall_map. eapply Forall_impl; [apply split_lines_no_newline |].
      intros l Hl H. apply has_char_app in H as [H | H]; [| now apply Hl].
      now apply (spaces_no_newline a). }
  rewrite Hlines, map_map. unfold indent_text. f_equal.
  apply map_ext. intros v. now rewrite spaces_add, string_app_assoc.
Qed.

(** X2. Indenting by [a] and then by [b] is indenting once by
    [max a 0 + max b 0]: by the sum when neither is negative, while a
    negative indent, for which [' ' * indent] is empty, adds nothing and
    takes nothing away. *)
Theorem indent_text_twice (text : string) (a b : Z) :
  indent_text_int (indent_text_int text a) b
  = indent_text_int text (Z.max a 0 + Z.max b 0).
Proof.
  unfold indent_text_int. rewrite indent_text_add. f_equal. lia.
Qed.

(** X3. Indenting by nothing gives the text back: joining the lines of a
    text by newlines undoes the split. *)
Theorem indent_text_zero (text : string) : indent_text text 0 = text.
Proof.
  unfold indent_text. rewrite <- (join_split_lines text) at 2. f_equal.
  rewrite <- (map_id (split_lines text)) at 2. now apply map_ext.
Qed.

(** ** [encode_id] and [decode_id] *)

Lemma prefix_app (p t : string) : String.prefix p (p +:+ t) = true.
Proof.
  induction p as [|c p IH]; [now destruct t |].
  rewrite string_app_cons. simpl.
  destruct (ascii_dec c c); [exact IH | congruence].
Qed.

Lemma prefix_split (p s : string) :
  String.prefix p s = true -> exists rest, s = p +:+ rest.
Proof.
  revert s. induction p as [|c p IH]; intros s H.
  - now exists s.
  - destruct s as [|b s]; [discriminate |]. simpl in H.
    destruct (ascii_dec c b) as [<- |]; [| discriminate].
    destruct (IH s H) as [rest ->]. now exists rest.
Qed.

Lemma prefix_longer (p x y : string) :
  String.length p <= String.length x ->
  String.prefix p (x +:+ y) = String.prefix p x.
Proof.
  revert x. induction p as [|c p IH]; intros x Hlen.
  - now destruct (x +:+ y), x.
  - destruct x as [|b x]; [simpl in Hlen; lia |].
    rewrite string_app_cons. simpl.
    destruct (ascii_dec c b); [| reflexivity].
    apply IH. simpl in Hlen. lia.
Qed.

Lemma split_from_cons sep c s :
  split_from sep 0 (String c s)
  = if String.prefix sep (String c s)
    then EmptyString :: split_from sep (String.length sep - 1) s
    else match split_from sep 0 s with
         | piece :: pieces => String c piece :: pieces
         | [] => [String c EmptyString]
         end.
Proof. reflexivity. Qed.

Lemma split_from_nonempty sep skip s : split_from sep skip s <> [].
Proof.
  revert skip. induction s as [|c s IH]; intros skip; [simpl; discriminate |].
  destruct skip; [| exact (IH skip)].
  destruct (String.prefix sep (String c s)) eqn:E.
  - rewrite split_from_cons, E. discriminate.
  - rewrite split_from_cons, E.
    destruct (split_from sep 0 s); discriminate.
Qed.

Lemma split_from_skip sep (x rest : string) :
  split_from sep (String.length x) (x +:+ rest) = split_from sep 0 rest.
Proof. induction x as [|c x IH]; [reflexivity | exact IH]. Qed.

Lemma split_from_match sep rest :
  sep <> EmptyString ->
  split_from sep 0 (sep +:+ rest) = EmptyString :: split_from sep 0 rest.
Proof.
  intros Hsep. destruct sep as [|c sep']; [congruence |].
  rewrite string_app_cons.
  rewrite split_from_cons.
  rewrite <- string_app_cons, prefix_app.
  replace (String.length (String c sep') - 1) with (String.length sep')
    by (simpl; lia).
  now rewrite split_from_skip.
Qed.

Lemma split_from_step sep c s :
  String.prefix sep (String c s) = false ->
  split_from sep 0 (String c s)
  = match split_from sep 0 s with
    | piece :: pieces => String c piece :: pieces
    | [] => [String c EmptyString]
    end.
Proof. intros H. now rewrite split_from_cons, H. Qed.

(** Joining the pieces by the separator gives the string back. *)
Lemma join_split_from sep :
  sep <> EmptyString ->
  forall n s, String.length s <= n ->
    String.concat sep (split_from sep 0 s) = s.
Proof.
  intros Hsep. induction n as [|n IH]; intros s Hlen.
  - destruct s; [reflexivity | simpl in Hlen; lia].
  - destruct s as [|c s]; [reflexivity |].
    destruct (String.prefix sep (String c s)) eqn:E.
    + destruct (prefix_split _ _ E) as [rest Hrest].
      rewrite Hrest, (split_from_match _ _ Hsep).
      pose proof (split_from_nonempty sep 0 rest) as Hne.
      destruct (split_from sep 0 rest) as [|p ps] eqn:Es; [congruence |].
      rewrite concat_cons. rewrite <- Es, IH; [reflexivity |].
      assert (String.length (String c s) = String.length (sep +:+ rest))
        by now rewrite Hrest.
      rewrite string_length_app in H. simpl in H, Hlen.
      destruct sep; [congruence | simpl in H; lia].
    + rewrite (split_from_step _ _ _ E).
      pose proof (split_from_nonempty sep 0 s) as Hne.
      destruct (split_from sep 0 s) as [|p ps] eqn:Es; [congruence |].
      rewrite concat_cons_char. rewrite <- Es, IH; [reflexivity |].
      simpl in Hlen. lia.
Qed.

Lemma occursb_cons sep c t :
  occursb sep (String c t) = String.prefix sep (String c t) || occursb sep t.
Proof. reflexivity. Qed.

Lemma split_from_whole sep t :
  occursb sep t = false -> split_from sep 0 t = [t].
Proof.
  induction t as [|c t IH]; intros H; [reflexivity |].
  rewrite occursb_cons in H. apply orb_false_iff in H as [Hp Ht].
  rewrite (split_from_step _ _ _ Hp), (IH Ht). reflexivity.
Qed.

Lemma drop_last_last sep :
  sep <> EmptyString ->
  exists l, sep = drop_last sep +:+ String l EmptyString.
Proof.
  induction sep as [|c sep IH]; intros H; [congruence |].
  destruct sep as [|b sep].
  - now exists c.
  - destruct IH as [l Hl]; [discriminate |]. exists l.
    change (drop_last (String c (String b sep)))
      with (String c (drop_last (String b sep))).
    rewrite string_app_cons, <- Hl. reflexivity.
Qed.

Lemma split_from_first sep a t :
  sep <> EmptyString ->
  occursb sep (a +:+ drop_last sep) = false ->
  split_from sep 0 ((a +:+ sep) +:+ t) = a :: split_from sep 0 t.
Proof.
  intros Hsep. induction a as [|c a IH]; intros H.
  - now apply split_from_match.
  - rewrite string_app_cons, occursb_cons in H.
    apply orb_false_iff in H as [Hp Ha].
    rewrite !string_app_cons.
    rewrite split_from_step.
    + now rewrite (IH Ha).
    + destruct (drop_last_last sep Hsep) as [l Hl].
      rewrite <- Hp. rewrite <- !string_app_cons.
      rewrite Hl at 2. rewrite <- string_app_assoc, string_app_assoc.
      apply prefix_longer.
      rewrite string_length_app. simpl.
      assert (String.length sep
              = String.length (drop_last sep +:+ String l EmptyString))
        by now rewrite <- Hl.
      rewrite string_length_app in H. simpl in H. lia.
Qed.

Lemma split_from_two sep a b :
  sep <> EmptyString ->
  occursb sep (a +:+ drop_last sep) = false -> occursb sep b = false ->
  split_from sep 0 ((a +:+ sep) +:+ b) = [a; b].
Proof.
  intros Hsep Ha Hb.
  now rewrite (split_from_first _ _ _ Hsep Ha), (split_from_whole _ _ Hb).
Qed.

Lemma occursb_app_r sep a t :
  occursb sep (a +:+ t) = false -> occursb sep a = false.
Proof.
  induction a as [|c a IH]; intros H.
  - destruct sep as [|b sep]; [now destruct t | reflexivity].
  - rewrite string_app_cons, occursb_cons in H.
    apply orb_false_iff in H as [Hp H].
    rewrite occursb_cons, (IH H), orb_false_r.
    destruct (String.prefix sep (String c a)) eqn:E; [| reflexivity].
    destruct (prefix_split _ _ E) as [rest Hrest].
    rewrite <- string_app_cons in Hp.
    rewrite Hrest, string_app_assoc, prefix_app in Hp. discriminate.
Qed.

(** X4. Decoding an encoded id gives the namespace and the key back, in
    either order of writing, when the separator occurs neither in the
    namespace nor in the key, followed by the separator without its last
    character. *)
Theorem decode_encode_id (st : NamespaceSettings) (namespace key : string) :
  NAMESPACE_SEP st <> EmptyString ->
  occursb (NAMESPACE_SEP st) (namespace +:+ drop_last (NAMESPACE_SEP st))
  = false ->
  occursb (NAMESPACE_SEP st) (key +:+ drop_last (NAMESPACE_SEP st)) = false ->
  decode_id st (encode_id st namespace key) = Ok [namespace; key].
Proof.
  intros Hsep Hn Hk. unfold decode_id, encode_id, str_split.
  destruct (String.eqb (NAMESPACE_SEP st) EmptyString) eqn:E;
    [apply String.eqb_eq in E; congruence |].
  destruct (NAMESPACE_ORDER_REVERSE st).
  - rewrite (split_from_two _ _ _ Hsep Hk (occursb_app_r _ _ _ Hn)).
    reflexivity.
  - rewrite (split_from_two _ _ _ Hsep Hn (occursb_app_r _ _ _ Hk)).
    reflexivity.
Qed.

Lemma decode_encode_id_witness :
  decode_id {| NAMESPACE_SEP := "::"; NAMESPACE_ORDER_REVERSE := true |}
    (encode_id {| NAMESPACE_SEP := "::"; NAMESPACE_ORDER_REVERSE := true |}
       "vision" "resnet")
  = Ok ["vision"; "resnet"].
Proof.
  apply (decode_encode_id
           {| NAMESPACE_SEP := "::"; NAMESPACE_ORDER_REVERSE := true |}
           "vision" "resnet").
  - discriminate.
  - reflexivity.
  - reflexivity.
Defined.

Lemma list_ascii_app (s t : string) :
  list_ascii_of_string (s +:+ t)
  = list_ascii_of_string s ++ list_ascii_of_string t.
Proof.
  induction s as [|c s IH]; [reflexivity |].
  rewrite string_app_cons. simpl. now rewrite IH.
Qed.

Lemma prefix_char c b s :
  String.prefix (String c EmptyString) (String b s)
  = if ascii_dec c b then true else false.
Proof. simpl. destruct (ascii_dec c b); [now destruct s | reflexivity]. Qed.

(** With a separator of one character there is one piece more than the
    character occurs. *)
Lemma split_from_char_length c s :
  length (split_from (String c EmptyString) 0 s)
  = S (count_occ ascii_dec (list_ascii_of_string s) c).
Proof.
  induction s as [|b s IH]; [reflexivity |].
  rewrite split_from_cons, prefix_char. simpl count_occ.
  destruct (ascii_dec c b) as [<- | Hne].
  - destruct (ascii_dec c c); [| congruence]. simpl. now rewrite IH.
  - destruct (ascii_dec b c); [congruence |].
    rewrite <- IH. now destruct (split_from (String c EmptyString) 0 s).
Qed.

Lemma occursb_char c s :
  ~ has_char c s -> occursb (String c EmptyString) s = false.
Proof.
  induction s as [|b s IH]; intros H; [reflexivity |].
  rewrite occursb_cons, prefix_char.
  destruct (ascii_dec c b) as [<- |].
  - exfalso. apply H. now left.
  - apply IH. intros Hin. apply H. now right.
Qed.

(** X5. With a separator of one character, as the default ['.'] is, an
    encoded id decodes to the namespace and the key it was made of exactly
    when the character occurs in neither of them. *)
Theorem decode_encode_id_char (st : NamespaceSettings) (c : ascii)
    (namespace key : string) :
  NAMESPACE_SEP st = String c EmptyString ->
  decode_id st (encode_id st namespace key) = Ok [namespace; key]
  <-> ~ has_char c namespace /\ ~ has_char c key.
Proof.
  intros Hsep. unfold decode_id, encode_id, str_split. rewrite Hsep.
  change (String.eqb (String c EmptyString) EmptyString) with false.
  cbv iota. split.
  - intros H.
    assert (Hlen : forall a b : string,
               length (split_from (String c EmptyString) 0
                         ((a +:+ String c EmptyString) +:+ b)) = 2 ->
               ~ has_char c a /\ ~ has_char c b).
    { intros a b Hl. rewrite split_from_char_length in Hl.
      rewrite !list_ascii_app, !count_occ_app in Hl. simpl in Hl.
      destruct (ascii_dec c c); [| congruence].
      unfold has_char. split; apply (count_occ_not_In ascii_dec); lia. }
    destruct (NAMESPACE_ORDER_REVERSE st).
    + injection H as H.
      apply (f_equal (@length string)) in H. rewrite length_rev in H.
      destruct (Hlen _ _ H). tauto.
    + injection H as H.
      apply (f_equal (@length string)) in H. now apply Hlen.
  - intros [Hn Hk].
    assert (Hsp : forall a b : string,
               ~ has_char c a -> ~ has_char c b ->
               split_from (String c EmptyString) 0
                 ((a +:+ String c EmptyString) +:+ b) = [a; b]).
    { intros a b Ha Hb. apply split_from_two; [discriminate | |].
      - simpl drop_last. rewrite string_app_nil_r. now apply occursb_char.
      - now apply occursb_char. }
    destruct (NAMESPACE_ORDER_REVERSE st).
    + now rewrite (Hsp _ _ Hk Hn).
    + now rewrite (Hsp _ _ Hn Hk).
Qed.

Lemma decode_encode_id_char_witness :
  decode_id default_namespace_settings
    (encode_id default_namespace_settings "vision" "resnet")
  = Ok ["vision"; "resnet"]
  <-> ~ has_char "."%char "vision" /\ ~ has_char "."%char "resnet".
Proof.
  apply (decode_encode_id_char default_namespace_settings "."%char
           "vision" "resnet").
  reflexivity.
Defined.

(** X6. Decoding loses nothing: the pieces of an id, joined by the
    separator in the order [encode_id] writes them, are the id; so whenever
    an id decodes to a namespace and a key, encoding the two gives the id
    back. *)
Theorem decode_id_lossless (st : NamespaceSettings) (unique_id : string) :
  NAMESPACE_SEP st <> EmptyString ->
  (exists parts,
      decode_id st unique_id = Ok parts
      /\ String.concat (NAMESPACE_SEP st)
           (if NAMESPACE_ORDER_REVERSE st then rev parts else parts)
         = unique_id)
  /\ (forall namespace key,
        decode_id st unique_id = Ok [namespace; key] ->
        encode_id st namespace key = unique_id).
Proof.
  intros Hsep.
  assert (Hjoin : String.concat (NAMESPACE_SEP st)
                    (split_from (NAMESPACE_SEP st) 0 unique_id) = unique_id).
  { now apply (join_split_from _ Hsep (String.length unique_id)). }
  unfold decode_id, encode_id, str_split.
  destruct (String.eqb (NAMESPACE_SEP st) EmptyString) eqn:E;
    [apply String.eqb_eq in E; congruence |].
  split.
  - eexists. split; [reflexivity |].
    destruct (NAMESPACE_ORDER_REVERSE st); [rewrite rev_involutive |];
      exact Hjoin.
  - intros namespace key H. injection H as H.
    destruct (NAMESPACE_ORDER_REVERSE st).
    + apply (f_equal (@rev string)) in H. rewrite rev_involutive in H.
      rewrite H in Hjoin. simpl in Hjoin.
      now rewrite string_app_assoc.
    + rewrite H in Hjoin. simpl in Hjoin. now rewrite string_app_assoc.
Qed.

Lemma decode_id_lossless_witness :
  (exists parts,
      decode_id default_namespace_settings "a.b.c" = Ok parts
      /\ String.concat "." parts = "a.b.c")
  /\ (forall namespace key,
        decode_id default_namespace_settings "a.b.c" = Ok [namespace; key] ->
        encode_id default_namespace_settings namespace key = "a.b.c").
Proof.
  apply (decode_id_lossless default_namespace_settings "a.b.c").
  discriminate.
Defined.

(** ** [merge_dict] without [union] *)

Lemma merge_item_known rec s u k dv (hc : heap) cur sv :
  hc !! s = Some (ODict cur) -> dict_get cur k = Some sv ->
  merge_item rec s u k dv hc = merge_item rec s (UBool true) k dv hc.
Proof.
  intros Hs Hk. unfold merge_item.
  rewrite !bind_eq, (read_dict_eq _ _ _ Hs), Hk. reflexivity.
Qed.

Lemma merge_item_unknown rec s u k dv (hc : heap) cur :
  hc !! s = Some (ODict cur) -> dict_get cur k = None ->
  union_truthy u = false ->
  merge_item rec s u k dv hc = Ok (tt, hc).
Proof.
  intros Hs Hk Hu. unfold merge_item.
  rewrite !bind_eq, (read_dict_eq _ _ _ Hs), Hk, Hu. reflexivity.
Qed.

Lemma reify_entries_get fuel (h : heap) cur tcur F k :
  reify_entries (reify_mapping fuel h) cur = Some (tcur, F) ->
  (dict_get cur k = None <-> dict_get tcur k = None).
Proof.
  intros H. rewrite !dict_get_none_keys.
  now rewrite (reify_entries_keys _ _ _ _ H).
Qed.

Lemma dict_set_keys_present {V} (d : list (string * V)) k v w :
  dict_get d k = Some w -> dict_keys (dict_set d k v) = dict_keys d.
Proof.
  induction d as [|[k' v'] d IH]; intros H; [discriminate |].
  simpl in *. destruct (String.eqb k' k); [reflexivity |].
  simpl. f_equal. now apply IH.
Qed.

Lemma update_entries_keys dd :
  forall ss, dict_keys (update_entries dd ss) = dict_keys ss.
Proof.
  induction dd as [|[k dv] dd IH]; intros ss; [reflexivity |].
  simpl. rewrite IH. destruct (dict_get ss k) eqn:E; [| reflexivity].
  now apply (dict_set_keys_present _ _ _ _ E).
Qed.

Lemma update_entries_lookup dd :
  NoDup (dict_keys dd) ->
  forall ss k,
    dict_get (update_entries dd ss) k
    = match dict_get ss k, dict_get dd k with
      | Some sv, Some dv => Some (union_merge dv sv)
      | r, _ => r
      end.
Proof.
  induction dd as [|[k0 dv] dd IH]; intros Hnd ss k.
  - simpl. now destruct (dict_get ss k).
  - change (dict_keys ((k0, dv) :: dd)) with (k0 :: dict_keys dd) in Hnd.
    apply NoDup_cons in Hnd as [Hk0 Hnd].
    simpl. rewrite (IH Hnd).
    destruct (String.eqb k0 k) eqn:E.
    + apply String.eqb_eq in E. subst k.
      assert (dict_get dd k0 = None) as ->.
      { apply dict_get_none_keys. intros Hin. apply Hk0.
        now apply list_elem_of_In. }
      destruct (dict_get ss k0) as [sv|] eqn:Es.
      * now rewrite dict_get_set_eq.
      * now rewrite Es.
    + apply String.eqb_neq in E.
      destruct (dict_get ss k0) as [sv|] eqn:Es; [| reflexivity].
      now rewrite (dict_get_set_ne _ _ _ _ E).
Qed.

Section MergeKnownKeys.
Variable fuel : nat.
Variables s d : addr.
Variable u : union_arg.
Hypothesis Hu : union_truthy u = false.
Variable dd : list (string * value).
Hypothesis Hdd : NoDup (dict_keys dd).

Lemma merge_loop_known :
  forall rest pre (hc : heap) cur tcur FCUR trest FR,
    dd = pre ++ rest ->
    hc !! s = Some (ODict cur) -> hc !! d = Some (ODict dd) ->
    reify_entries (reify_mapping fuel hc) cur = Some (tcur, FCUR) ->
    reify_entries (reify_mapping fuel hc) rest = Some (trest, FR) ->
    forallb (fun kv : string * mapping => keys_unique (snd kv)) trest = true ->
    NoDup (FCUR ++ FR ++ [d]) -> s ∉ FCUR ++ FR ++ [d] ->
    exists h' cur' FCUR',
      for_each
        (fun k =>
           let* _ := check_size d (length dd) in
           let* d0 := read_dict d in
           match dict_get d0 k with
           | Some v => merge_item (merge_dict fuel) s u k v
           | None =>
               raise (RuntimeError "dictionary keys changed during iteration")
           end) (dict_keys rest) hc = Ok (tt, h')
      /\ h' !! s = Some (ODict cur') /\ h' !! d = Some (ODict dd)
      /\ reify_entries (reify_mapping fuel h') cur'
         = Some (update_entries trest tcur, FCUR')
      /\ NoDup (FCUR' ++ [d])
      /\ (forall a, a ∈ FCUR' -> a ∈ FCUR ++ FR)
      /\ changed_only_in (s :: FCUR ++ FR) hc h'.
Proof.
  induction rest as [|[k dv] rest IH];
    intros pre hc cur tcur FCUR trest FR Hpre Hs Hd Hcur Hrest Hku Hnd Hsn.
  - simpl in Hrest. injection Hrest as <- <-.
    exists hc, cur, FCUR. simpl.
    split; [reflexivity |]. split; [assumption |]. split; [assumption |].
    split; [assumption |]. split; [| split].
    + exact Hnd.
    + intros a Ha. rewrite app_nil_r. exact Ha.
    + intros a. now right.
  - simpl in Hrest.
    destruct (reify_mapping fuel hc dv) as [[tdv fdv]|] eqn:Edv;
      [| discriminate].
    destruct (reify_entries (reify_mapping fuel hc) rest) as [[trest' FR']|]
      eqn:Erest; [| discriminate].
    injection Hrest as <- <-.
    simpl in Hku. apply andb_true_iff in Hku as [Hku1 Hku2].
    assert (Hnd1 : NoDup (FCUR ++ fdv ++ FR' ++ [d])).
    { now rewrite <- app_assoc in Hnd. }
    assert (Hsn1 : s ∉ FCUR ++ fdv ++ FR' ++ [d]).
    { now rewrite <- app_assoc in Hsn. }
    assert (Hkpre : ~ In k (dict_keys pre)).
    { subst dd. unfold dict_keys in Hdd. rewrite map_app in Hdd.
      apply NoDup_app in Hdd as (_ & Hdis & _).
      intros Hin. apply (Hdis k); [now apply list_elem_of_In | left]. }
    assert (Hget : dict_get dd k = Some dv).
    { subst dd. now apply dict_get_middle. }
    assert (Hbody : forall hc',
               merge_item (merge_dict fuel) s u k dv hc = Ok (tt, hc') ->
               (let* _ := check_size d (length dd) in
                let* d0 := read_dict d in
                match dict_get d0 k with
                | Some v => merge_item (merge_dict fuel) s u k v
                | None =>
                    raise (RuntimeError
                             "dictionary keys changed during iteration")
                end) hc = Ok (tt, hc')).
    { intros hc' Hstep. rewrite bind_eq. unfold check_size.
      rewrite bind_eq, (read_dict_eq _ _ _ Hd).
      destruct (decide (length dd = length dd)); [| congruence].
      unfold ret. rewrite bind_eq, (read_dict_eq _ _ _ Hd), Hget.
      exact Hstep. }
    change (dict_keys ((k, dv) :: rest)) with (k :: dict_keys rest).
    rewrite for_each_cons.
    destruct (dict_get cur k) as [sv|] eqn:Hk.
    + destruct (dict_get tcur k) as [tsv|] eqn:Htk.
      2: { apply (reify_entries_get _ _ _ _ _ k Hcur) in Htk. congruence. }
      destruct (merge_item_step fuel (merge_refines fuel) s (UBool true)
                  eq_refl hc cur tcur FCUR k dv tdv fdv (FR' ++ [d])
                  Hs Hcur Edv Hku1 Hnd1 Hsn1)
        as (hc' & cur' & FCUR' & Hstep & Hs' & Hcur' & Hnd' & Hsub' & Hch').
      rewrite Htk in Hcur'.
      rewrite <- (merge_item_known _ _ u _ _ _ _ _ Hs Hk) in Hstep.
      rewrite (Hbody _ Hstep).
      assert (Hd' : hc' !! d = Some (ODict dd)).
      { destruct (Hch' d) as [Ha | Ha]; [| congruence].
        exfalso. rewrite !NoDup_app in Hnd1. set_solver. }
      assert (Hw : forall a, a ∈ s :: FCUR ++ fdv ->
                             exists d0, hc !! a = Some (ODict d0)).
      { intros a Ha. apply elem_of_cons in Ha as [-> | Ha]; [eauto |].
        apply elem_of_app in Ha as [Ha | Ha].
        - exact (entries_footprint_dicts _ _ _ _ _ Hcur a Ha).
        - exact (footprint_dicts _ _ _ _ _ Edv a Ha). }
      assert (Erest' : reify_entries (reify_mapping fuel hc') rest
                       = Some (trest', FR')).
      { apply (reify_entries_frame fuel hc hc' _ Hch' Hw); auto.
        rewrite !NoDup_app in Hnd1. set_solver. }
      assert (Hsn' : s ∉ FCUR' ++ FR' ++ [d]).
      { intros Hin. apply Hsn1. now apply Hsub'. }
      destruct (IH (pre ++ [(k, dv)]) hc' cur'
                  (dict_set tcur k (union_merge tdv tsv)) FCUR' trest' FR')
        as (h' & cur'' & FCUR'' & Hloop & Hs'' & Hd'' & Hcur'' & Hnd''
            & Hsub'' & Hch''); auto.
      { rewrite <- app_assoc. exact Hpre. }
      exists h', cur'', FCUR''.
      split; [exact Hloop |]. split; [exact Hs'' |]. split; [exact Hd'' |].
      split; [| split; [exact Hnd'' | split]].
      * simpl. rewrite Htk. exact Hcur''.
      * intros a Ha. specialize (Hsub'' a Ha).
        assert (Hin : a ∈ FCUR' ++ FR' ++ [d]) by set_solver.
        specialize (Hsub' a Hin).
        assert (a <> d).
        { intros ->. rewrite !NoDup_app in Hnd''.
          destruct Hnd'' as (_ & Hdis & _). apply (Hdis d Ha). left. }
        set_solver.
      * eapply changed_only_in_trans; [exact Hch' | exact Hch'' | |].
        -- set_solver.
        -- intros a Ha. apply elem_of_cons in Ha as [-> | Ha]; [left |].
           assert (Hin : a ∈ FCUR' ++ FR' ++ [d]) by set_solver.
           specialize (Hsub' a Hin).
           assert (a <> d).
           { intros ->. rewrite !NoDup_app in Hnd'.
             destruct Hnd' as (_ & Hdis & _).
             apply elem_of_app in Ha as [Ha | Ha].
             - apply (Hdis d Ha). set_solver.
             - rewrite !NoDup_app in Hnd1. set_solver. }
           set_solver.
    + assert (Htk : dict_get tcur k = None).
      { now apply (reify_entries_get _ _ _ _ _ k Hcur). }
      rewrite (Hbody hc (merge_item_unknown _ _ _ _ _ _ _ Hs Hk Hu)).
      assert (Hsl : FCUR ++ FR' ++ [d] `sublist_of` FCUR ++ fdv ++ FR' ++ [d]).
      { apply sublist_app; [reflexivity |].
        apply sublist_inserts_l. reflexivity. }
      assert (Hnd2 : NoDup (FCUR ++ FR' ++ [d])).
      { exact (sublist_NoDup _ _ Hnd1 Hsl). }
      assert (Hsn2 : s ∉ FCUR ++ FR' ++ [d]).
      { intros Hin. apply Hsn1. exact (elem_of_sublist _ _ _ Hin Hsl). }
      destruct (IH (pre ++ [(k, dv)]) hc cur tcur FCUR trest' FR')
        as (h' & cur'' & FCUR'' & Hloop & Hs'' & Hd'' & Hcur'' & Hnd''
            & Hsub'' & Hch''); auto.
      { rewrite <- app_assoc. exact Hpre. }
      exists h', cur'', FCUR''.
      split; [exact Hloop |]. split; [exact Hs'' |]. split; [exact Hd'' |].
      split; [| split; [exact Hnd'' | split]].
      * simpl. rewrite Htk. exact Hcur''.
      * intros a Ha. specialize (Hsub'' a Ha).
        apply elem_of_app in Hsub'' as [Hin | Hin];
          rewrite !elem_of_app; tauto.
      * eapply changed_only_in_mono; [exact Hch'' |].
        intros a Ha. apply elem_of_cons in Ha as [-> | Ha]; [left |].
        right. apply elem_of_app in Ha as [Hin | Hin];
          rewrite !elem_of_app; tauto.
Qed.

End MergeKnownKeys.

(** X7. [merge_dict] with a falsy [union], on a store where the source and
    the difference are mappings that share no dict: the source keeps its
    keys, in their order, and gains none; under a key both have, the value
    is the union-merge of the two, so that below the top level the keys of
    the difference are added all the same, the recursive call being given a
    non-empty path where [union] is expected. *)
Theorem merge_dict_known_keys fuel (h : heap) s d ts fs td fd u :
  reify_mapping fuel h (VRef s) = Some (Mapping ts, fs) ->
  reify_mapping fuel h (VRef d) = Some (Mapping td, fd) ->
  NoDup (fs ++ fd) -> keys_unique (Mapping td) = true ->
  union_truthy u = false ->
  exists h' fs' tm,
    merge_dict fuel (VRef s) (VRef d) u h = Ok (VRef s, h')
    /\ reify_mapping fuel h' (VRef s) = Some (Mapping tm, fs')
    /\ dict_keys tm = dict_keys ts
    /\ (forall k,
          dict_get tm k
          = match dict_get ts k, dict_get td k with
            | Some sv, Some dv => Some (union_merge dv sv)
            | r, _ => r
            end)
    /\ changed_only_in (fs ++ fd) h h'.
Proof.
  intros Hs Hd Hnd Hku Hu.
  destruct fuel as [|fuel]; [discriminate |].
  simpl in Hs, Hd.
  destruct (h !! s) as [[| |cur]|] eqn:Es; try discriminate.
  destruct (reify_entries (reify_mapping fuel h) cur) as [[ts0 fs0]|]
    eqn:Ecur; [| discriminate].
  injection Hs as <- <-.
  destruct (h !! d) as [[| |dd]|] eqn:Ed; try discriminate.
  destruct (reify_entries (reify_mapping fuel h) dd) as [[td0 fd0]|]
    eqn:Edd; [| discriminate].
  injection Hd as <- <-.
  simpl in Hku. apply andb_true_iff in Hku as [Hk1 Hk2].
  apply bool_decide_eq_true in Hk1.
  pose proof Hk1 as Hk1'.
  rewrite (reify_entries_keys _ _ _ _ Edd) in Hk1.
  assert (Hperm : fs0 ++ fd0 ++ [d] ≡ₚ fs0 ++ d :: fd0).
  { apply Permutation_app_head. symmetry. apply Permutation_cons_append. }
  simpl in Hnd. apply NoDup_cons in Hnd as [Hsn Hnd1].
  rewrite <- Hperm in Hsn, Hnd1.
  destruct (merge_loop_known fuel s d u Hu dd Hk1 dd [] h cur ts0 fs0 td0 fd0
              eq_refl Es Ed Ecur Edd Hk2 Hnd1 Hsn)
    as (h' & cur' & FCUR' & Hloop & Hs' & Hd' & Hcur' & Hnd' & Hsub & Hch).
  exists h', (s :: FCUR'), (update_entries td0 ts0).
  split; [| split; [| split; [| split]]].
  - simpl. rewrite bind_eq. unfold for_items.
    rewrite bind_eq, (read_dict_eq _ _ _ Ed).
    rewrite bind_eq, Hloop.
    unfold check_size. rewrite bind_eq, (read_dict_eq _ _ _ Hd').
    destruct (decide (length dd = length dd)); [| congruence].
    reflexivity.
  - simpl. rewrite Hs', Hcur'. reflexivity.
  - apply update_entries_keys.
  - intros k. now apply update_entries_lookup.
  - eapply changed_only_in_mono; [exact Hch |]. set_solver.
Qed.

Lemma merge_dict_known_keys_witness :
  exists h' fs' tm,
    merge_dict 3 (VRef 1) (VRef 3) (UBool false) merge_store
    = Ok (VRef 1, h')
    /\ reify_mapping 3 h' (VRef 1) = Some (Mapping tm, fs')
    /\ dict_keys tm
       = dict_keys [("opt", Mapping [("lr", Leaf (VInt 1));
                                     ("wd", Leaf (VInt 0))]);
                    ("seed", Leaf (VInt 7))]
    /\ (forall k,
          dict_get tm k
          = match
              dict_get [("opt", Mapping [("lr", Leaf (VInt 1));
                                         ("wd", Leaf (VInt 0))]);
                        ("seed", Leaf (VInt 7))] k,
              dict_get [("opt", Mapping [("lr", Leaf (VInt 2))]);
                        ("tag", Leaf (VStr "x"))] k
            with
            | Some sv, Some dv => Some (union_merge dv sv)
            | r, _ => r
            end)
    /\ changed_only_in ([1; 0] ++ [3; 2]) merge_store h'.
Proof.
  apply (merge_dict_known_keys 3 merge_store 1 3 _ [1; 0] _ [3; 2]
           (UBool false)).
  - vm_compute. reflexivity.
  - vm_compute. reflexivity.
  - apply (bool_decide_unpack _). vm_compute. exact I.
  - vm_compute. reflexivity.
  - reflexivity.
Defined.

(** ** The matcher stops at the first item that decides *)

Lemma any_map_first {X} (f : X -> res bool) pre y post r :
  Forall (fun x => f x = Ok false) pre -> f y = r -> r <> Ok false ->
  any_map f (pre ++ y :: post) = r.
Proof.
  intros Hpre Hy Hr. induction Hpre as [|x pre Hx _ IH]; simpl.
  - rewrite Hy. destruct r as [[|]| |]; congruence.
  - now rewrite Hx.
Qed.

Lemma all_map_first {X} (f : X -> res bool) pre y post r :
  Forall (fun x => f x = Ok true) pre -> f y = r -> r <> Ok true ->
  all_map f (pre ++ y :: post) = r.
Proof.
  intros Hpre Hy Hr. induction Hpre as [|x pre Hx _ IH]; simpl.
  - rewrite Hy. destruct r as [[|]| |]; congruence.
  - now rewrite Hx.
Qed.

(** X8. A [Union] is decided by its first alternative that does not
    evaluate to [False]: when that one matches the value matches, whatever
    the alternatives behind it are, and when it raises the matcher raises
    the same, although an alternative behind it might match. *)
Theorem union_first_decides (h : heap) (var : value)
    (pre post : list Annotation) (y : Annotation) (r : res bool) :
  Forall (fun x => is_annotation_matched h var x = Ok false) pre ->
  is_annotation_matched h var y = r -> r <> Ok false ->
  is_annotation_matched h var (AUnion (Some (pre ++ y :: post))) = r.
Proof.
  intros Hpre Hy Hr. simpl.
  now apply (any_map_first (fun y => is_annotation_matched h var y)).
Qed.

Lemma union_first_decides_witness :
  is_annotation_matched [] (VInt 3)
    (AUnion (Some ([AClass C_str] ++ AOther "typing.Generic"
                     :: [AClass C_int])))
  = Raise (NotImplementedError
             "The annotation type typing.Generic is not supported").
Proof.
  apply (union_first_decides [] (VInt 3) [AClass C_str] [AClass C_int]
           (AOther "typing.Generic")).
  - repeat constructor.
  - reflexivity.
  - discriminate.
Defined.

(** X9. [List[elem]] and [Set[elem]] are decided by the first member that
    does not match: the result is that member's, [False] or an exception,
    and the members behind it are not looked at. *)
Theorem container_first_decides (h : heap) (a : addr)
    (pre post : list value) (x : value) (elem : Annotation)
    (more : list Annotation) (annotation : Annotation) (r : res bool) :
  (h !! a = Some (OList (pre ++ x :: post))
   /\ annotation = AList (Some (elem :: more)))
  \/ (h !! a = Some (OSet (pre ++ x :: post))
      /\ annotation = ASet (Some (elem :: more))) ->
  Forall (fun v => is_annotation_matched h v elem = Ok true) pre ->
  is_annotation_matched h x elem = r -> r <> Ok true ->
  is_annotation_matched h (VRef a) annotation = r.
Proof.
  intros [[Ha ->] | [Ha ->]] Hpre Hx Hr; simpl; rewrite Ha;
    now apply (all_map_first (fun v => is_annotation_matched h v elem)).
Qed.

Lemma container_first_decides_witness :
  is_annotation_matched [OList ([VInt 1] ++ VStr "a" :: [VObject "x"])]
    (VRef 0) (AList (Some [AClass C_int])) = Ok false.
Proof.
  apply (container_first_decides
           [OList ([VInt 1] ++ VStr "a" :: [VObject "x"])] 0 [VInt 1]
           [VObject "x"] (VStr "a") (AClass C_int) []).
  - left. split; reflexivity.
  - repeat constructor.
  - reflexivity.
  - discriminate.
Defined.

(** ** A module name that is falsy *)

Lemma dict_get_map {V W} (f : V -> W) (d : list (string * V)) k :
  dict_get (map (fun kv => (fst kv, f (snd kv))) d) k
  = option_map f (dict_get d k).
Proof.
  induction d as [|[k' v] d IH]; [reflexivity |].
  simpl. destruct (String.eqb k' k); [reflexivity | exact IH].
Qed.

(** X10. A mapping whose values are variable references or scalars and
    whose [_name], after substitution, is falsy ([None], the empty string,
    zero, ...) resolves to itself without that key: the name is popped, no
    module is looked up, and the dict comes back as a plain mapping. *)
Theorem falsy_name_dropped (settings : Settings) (reg : registry)
    (env_vars global_vars : addr) (fuel : nat) (a : addr) (h : heap)
    (d g e : list (string * value)) (name : value) :
  h !! a = Some (ODict d) ->
  h !! global_vars = Some (ODict g) -> h !! env_vars = Some (ODict e) ->
  a <> global_vars -> a <> env_vars ->
  NoDup (dict_keys d) ->
  Forall (fun kv => flat_item settings h g e (snd kv)) d ->
  dict_get d "_name" = Some name ->
  truthy (<[a := ODict (dict_del (map (substituted_entry settings g e) d)
                          "_name")]> h)
    (substituted settings g e name) = false ->
  parse_config settings reg (S fuel) (VRef a) env_vars global_vars h
  = Ok (VRef a,
        <[a := ODict (dict_del (map (substituted_entry settings g e) d)
                        "_name")]> h).
Proof.
  intros Ha Hg He Hag Hae Hnd Hflat Hname Hfalsy.
  assert (Hlt : a < length h) by (eapply lookup_lt_Some; eauto).
  set (d' := map (substituted_entry settings g e) d) in *.
  assert (Ha' : <[a := ODict d']> h !! a = Some (ODict d'))
    by now apply list_lookup_insert_eq.
  simpl. rewrite bind_eq. unfold get_heap. simpl. rewrite Ha.
  rewrite bind_eq. unfold for_items.
  rewrite bind_eq, (read_dict_eq _ _ _ Ha). rewrite bind_eq.
  pose proof (flat_entries_loop settings env_vars global_vars fuel
                (fun val => parse_config settings reg fuel val env_vars
                              global_vars)
                a h g e (length d) Hg He Hag Hae d [] Ha eq_refl Hnd Hflat)
    as Hloop.
  simpl in Hloop. rewrite (list_insert_id _ _ _ Ha) in Hloop.
  rewrite Hloop. fold d'.
  unfold check_size. rewrite bind_eq, (read_dict_eq _ _ _ Ha').
  assert (length d' = length d) as -> by (unfold d'; apply length_map).
  destruct (decide (length d = length d)); [| congruence].
  unfold ret, instantiate.
  assert (Hname' : dict_get d' "_name" = Some (substituted settings g e name)).
  { unfold d', substituted_entry.
    rewrite (dict_get_map (substituted settings g e)), Hname. reflexivity. }
  rewrite bind_eq, (dict_pop_some _ _ _ _ _ Ha' Hname').
  rewrite list_insert_insert_eq.
  rewrite bind_eq. unfold get_heap. rewrite Hfalsy. reflexivity.
Qed.

Lemma falsy_name_dropped_witness :
  parse_config default_settings [] 1 (VRef 2) 0 1 unnamed_doc
  = Ok (VRef 2,
        <[2 := ODict (dict_del
                        (map (substituted_entry default_settings
                                [("lr", VInt 3)] [])
                           [("_name", VStr EmptyString); ("lr", VStr "@lr")])
                        "_name")]> unnamed_doc).
Proof.
  apply (falsy_name_dropped default_settings [] 0 1 0 2 unnamed_doc
           [("_name", VStr EmptyString); ("lr", VStr "@lr")]
           [("lr", VInt 3)] [] (VStr EmptyString)).
  - reflexivity.
  - reflexivity.
  - reflexivity.
  - discriminate.
  - discriminate.
  - apply (bool_decide_unpack _). vm_compute. exact I.
  - repeat constructor; vm_compute; try discriminate; auto.
  - reflexivity.
  - reflexivity.
Defined.

(** ** Degenerate parameter files *)

(** X11. A parameter file that holds neither a list nor a dict, such as the
    [None] of an empty file or a number, is taken as a list of one
    parameter, and the sweep stops on it with [TypeError] before the config
    is copied or parsed.  Unless the content is a tuple, the message is the
    one of line 125, quoting the content; a tuple is taken by [%] as the
    sequence of its arguments. *)
Theorem scalar_parameter_file (settings : Settings) (reg : registry)
    (py_str yaml_format : heap -> value -> string) (fuel : nat)
    (config : value) (env_vars default_global_vars : addr)
    (loaded : value) (h : heap) :
  (forall a, loaded <> VRef a) ->
  run_tasks settings reg py_str yaml_format fuel config env_vars
    default_global_vars (Some loaded) h
  = Raise (bad_parameter_error py_str
             ((h ++ [ODict []]) ++ [OList [loaded]]) loaded)
  /\ (exists message,
        bad_parameter_error py_str
          ((h ++ [ODict []]) ++ [OList [loaded]]) loaded
        = TypeError message)
  /\ ((forall items, loaded <> VTuple items) ->
      bad_parameter_error py_str
        ((h ++ [ODict []]) ++ [OList [loaded]]) loaded
      = TypeError
          ("Parameter file should define a list of Dict[str, Any]. Got "
             +:+ dquote
             +:+ py_str ((h ++ [ODict []]) ++ [OList [loaded]]) loaded
             +:+ dquote +:+ " in it.")).
Proof.
  intros Href.
  assert (Hl : forall h0, list_addr h0 loaded = None).
  { intros h0. destruct loaded; try reflexivity. now destruct (Href a). }
  assert (Hd : forall h0, is_dict h0 loaded = false).
  { intros h0. destruct loaded; try reflexivity. now destruct (Href a). }
  split; [| split].
  - unfold run_tasks. rewrite bind_eq. unfold alloc.
    rewrite bind_eq. unfold get_heap. rewrite bind_eq, Hl.
    unfold for_enumerate.
    assert (Hp : ((h ++ [ODict []]) ++ [OList [loaded]])
                   !! length (h ++ [ODict []]) = Some (OList [loaded])).
    { now apply list_lookup_middle. }
    rewrite bind_eq, (read_list_eq _ _ _ Hp).
    simpl seq. rewrite for_each_cons.
    rewrite bind_eq, (read_list_eq _ _ _ Hp).
    change ([loaded] !! 0) with (Some loaded).
    unfold sweep_iteration, sweep_prepare.
    rewrite !bind_eq. unfold get_heap. rewrite Hd. reflexivity.
  - unfold bad_parameter_error.
    destruct loaded as [| | | | |[|item [|item' items]]| | | |]; eauto.
  - intros Htuple. unfold bad_parameter_error, bad_parameter_message.
    destruct loaded; try reflexivity. now destruct (Htuple items).
Qed.

Lemma scalar_parameter_file_witness :
  run_tasks default_settings [] no_text no_text 5 (VRef 0) 1 2 (Some VNone)
    [ODict []; ODict []; ODict []]
  = Raise (bad_parameter_error no_text
             (([ODict []; ODict []; ODict []] ++ [ODict []])
                ++ [OList [VNone]]) VNone)
  /\ (exists message,
        bad_parameter_error no_text
          (([ODict []; ODict []; ODict []] ++ [ODict []])
             ++ [OList [VNone]]) VNone
        = TypeError message)
  /\ ((forall items, VNone <> VTuple items) ->
      bad_parameter_error no_text
        (([ODict []; ODict []; ODict []] ++ [ODict []])
           ++ [OList [VNone]]) VNone
      = TypeError
          ("Parameter file should define a list of Dict[str, Any]. Got "
             +:+ dquote
             +:+ no_text (([ODict []; ODict []; ODict []] ++ [ODict []])
                            ++ [OList [VNone]]) VNone
             +:+ dquote +:+ " in it.")).
Proof.
  apply (scalar_parameter_file default_settings [] no_text no_text 5
           (VRef 0) 1 2 VNone [ODict []; ODict []; ODict []]).
  intros a. discriminate.
Defined.

(** X12. A sweep over an empty list of parameters does nothing but create
    the dict of global variables: the config is neither parsed nor checked,
    so whatever it holds unresolved goes unreported. *)
Theorem empty_parameter_list (settings : Settings) (reg : registry)
    (py_str yaml_format : heap -> value -> string) (fuel : nat)
    (config : value) (env_vars default_global_vars : addr)
    (l : addr) (h : heap) :
  h !! l = Some (OList []) ->
  run_tasks settings reg py_str yaml_format fuel config env_vars
    default_global_vars (Some (VRef l)) h
  = Ok (tt, h ++ [ODict []]).
Proof.
  intros Hl.
  assert (Hl' : (h ++ [ODict []]) !! l = Some (OList [])).
  { rewrite lookup_app_l; auto. eapply lookup_lt_Some; eauto. }
  unfold run_tasks. rewrite bind_eq. unfold alloc.
  rewrite bind_eq. unfold get_heap. rewrite bind_eq.
  unfold list_addr. rewrite Hl'. unfold ret.
  unfold for_enumerate. rewrite bind_eq, (read_list_eq _ _ _ Hl').
  reflexivity.
Qed.

Lemma empty_parameter_list_witness :
  run_tasks default_settings [] no_text no_text 0 (VRef 1) 0 0
    (Some (VRef 2)) [ODict []; ODict [("_name", VStr "m")]; OList []]
  = Ok (tt, [ODict []; ODict [("_name", VStr "m")]; OList []] ++ [ODict []]).
Proof.
  apply (empty_parameter_list default_settings [] no_text no_text 0
           (VRef 1) 0 0 2 [ODict []; ODict [("_name", VStr "m")]; OList []]).
  reflexivity.
Defined.

(** ** Resolving twice, and the reference that fails first *)

Section FlatPrefix.
Variable settings : Settings.
Variables env_vars global_vars : addr.

Lemma resolve_variable_fail (h : heap) g e name :
  h !! global_vars = Some (ODict g) -> h !! env_vars = Some (ODict e) ->
  lookup_variable g e name = None ->
  resolve_variable env_vars global_vars name h
  = Raise (TypeError (unresolved_message name)).
Proof.
  intros Hg He Hv. unfold resolve_variable, lookup_variable in *.
  rewrite bind_eq, (read_dict_eq _ _ _ Hg).
  destruct (dict_get g (drop_first name)); [discriminate |].
  rewrite bind_eq, (read_dict_eq _ _ _ He). now rewrite Hv.
Qed.

Lemma flat_entry_step fuel (rec : value -> M value) a (h : heap) d0 g e n
    done k v rest :
  h !! global_vars = Some (ODict g) -> h !! env_vars = Some (ODict e) ->
  a <> global_vars -> a <> env_vars ->
  h !! a = Some (ODict d0) ->
  length (done ++ (k, v) :: rest) = n ->
  ~ In k (dict_keys done) ->
  flat_item settings h g e v ->
  (let* _ := check_size a n in
   let* d := read_dict a in
   match dict_get d k with
   | Some v0 => resolve_entry settings fuel rec env_vars global_vars a k v0
   | None => raise (RuntimeError "dictionary keys changed during iteration")
   end)
    (<[a := ODict (map (substituted_entry settings g e) done
                     ++ (k, v) :: rest)]> h)
  = Ok (tt, <[a := ODict (map (substituted_entry settings g e)
                            (done ++ [(k, v)]) ++ rest)]> h).
Proof.
  intros Hg He Hag Hae Ha Hn Hkd Hv.
  assert (Hlt : a < length h) by (eapply lookup_lt_Some; eauto).
  set (cur := map (substituted_entry settings g e) done ++ (k, v) :: rest).
  assert (Hcur : <[a := ODict cur]> h !! a = Some (ODict cur))
    by now apply list_lookup_insert_eq.
  assert (Hk : ~ In k (dict_keys (map (substituted_entry settings g e) done)))
    by now rewrite substituted_keys.
  assert (Hg' : <[a := ODict cur]> h !! global_vars = Some (ODict g))
    by now rewrite list_lookup_insert_ne.
  assert (He' : <[a := ODict cur]> h !! env_vars = Some (ODict e))
    by now rewrite list_lookup_insert_ne.
  rewrite bind_eq. unfold check_size.
  rewrite bind_eq, (read_dict_eq _ _ _ Hcur).
  assert (length cur = n) as ->.
  { unfold cur. rewrite <- Hn, !length_app, length_map. reflexivity. }
  destruct (decide (n = n)); [| congruence].
  unfold ret. rewrite bind_eq, (read_dict_eq _ _ _ Hcur).
  unfold cur at 1. rewrite (dict_get_middle _ _ _ _ Hk).
  rewrite map_app, <- app_assoc. simpl.
  unfold flat_item in Hv.
  unfold substituted_entry at 2. unfold substituted. simpl.
  destruct (is_variable settings v) eqn:Hvar.
  - destruct (lookup_variable g e (str_of v)) as [w|] eqn:Hw;
      [| congruence].
    rewrite (resolve_entry_variable settings env_vars global_vars
               _ _ _ _ _ _ _ _ _ _ Hvar Hg' He' Hw Hcur).
    unfold cur. rewrite (dict_set_middle _ _ _ _ _ Hk).
    now rewrite list_insert_insert_eq.
  - destruct Hv as [Hl Hd].
    destruct (flat_after_write h a _ cur v Ha Hl Hd) as [Hl' Hd'].
    now rewrite (resolve_entry_plain settings env_vars global_vars
                   _ _ _ _ _ _ Hvar Hl' Hd').
Qed.

Lemma missing_entry_step fuel (rec : value -> M value) a (h : heap) g e n
    done k v rest :
  h !! global_vars = Some (ODict g) -> h !! env_vars = Some (ODict e) ->
  a <> global_vars -> a <> env_vars ->
  a < length h ->
  length (done ++ (k, v) :: rest) = n ->
  ~ In k (dict_keys done) ->
  is_variable settings v = true ->
  lookup_variable g e (str_of v) = None ->
  (let* _ := check_size a n in
   let* d := read_dict a in
   match dict_get d k with
   | Some v0 => resolve_entry settings fuel rec env_vars global_vars a k v0
   | None => raise (RuntimeError "dictionary keys changed during iteration")
   end)
    (<[a := ODict (map (substituted_entry settings g e) done
                     ++ (k, v) :: rest)]> h)
  = Raise (TypeError (unresolved_message (str_of v))).
Proof.
  intros Hg He Hag Hae Hlt Hn Hkd Hvar Hw.
  set (cur := map (substituted_entry settings g e) done ++ (k, v) :: rest).
  assert (Hcur : <[a := ODict cur]> h !! a = Some (ODict cur))
    by now apply list_lookup_insert_eq.
  assert (Hk : ~ In k (dict_keys (map (substituted_entry settings g e) done)))
    by now rewrite substituted_keys.
  assert (Hg' : <[a := ODict cur]> h !! global_vars = Some (ODict g))
    by now rewrite list_lookup_insert_ne.
  assert (He' : <[a := ODict cur]> h !! env_vars = Some (ODict e))
    by now rewrite list_lookup_insert_ne.
  rewrite bind_eq. unfold check_size.
  rewrite bind_eq, (read_dict_eq _ _ _ Hcur).
  assert (length cur = n) as ->.
  { unfold cur. rewrite <- Hn, !length_app, length_map. reflexivity. }
  destruct (decide (n = n)); [| congruence].
  unfold ret. rewrite bind_eq, (read_dict_eq _ _ _ Hcur).
  unfold cur at 1. rewrite (dict_get_middle _ _ _ _ Hk).
  unfold resolve_entry. rewrite bind_eq. unfold get_heap. rewrite Hvar.
  rewrite bind_eq, (resolve_variable_fail _ _ _ _ Hg' He' Hw). reflexivity.
Qed.

Lemma flat_entries_fail fuel (rec : value -> M value) a (h : heap) d0 g e n
    k v post :
  h !! global_vars = Some (ODict g) -> h !! env_vars = Some (ODict e) ->
  a <> global_vars -> a <> env_vars ->
  h !! a = Some (ODict d0) ->
  is_variable settings v = true ->
  lookup_variable g e (str_of v) = None ->
  forall pre done,
    length (done ++ pre ++ (k, v) :: post) = n ->
    NoDup (dict_keys (done ++ pre ++ (k, v) :: post)) ->
    Forall (fun kv => flat_item settings h g e (snd kv)) pre ->
    for_each
      (fun k =>
         let* _ := check_size a n in
         let* d := read_dict a in
         match dict_get d k with
         | Some v =>
             resolve_entry settings fuel rec env_vars global_vars a k v
         | None =>
             raise (RuntimeError "dictionary keys changed during iteration")
         end) (dict_keys (pre ++ (k, v) :: post))
      (<[a := ODict (map (substituted_entry settings g e) done
                       ++ pre ++ (k, v) :: post)]> h)
    = Raise (TypeError (unresolved_message (str_of v))).
Proof.
  intros Hg He Hag Hae Ha Hvar Hw.
  assert (Hlt : a < length h) by (eapply lookup_lt_Some; eauto).
  assert (Hfresh : forall (done rest : list (string * value)) k0 v0,
             NoDup (dict_keys (done ++ (k0, v0) :: rest)) ->
             ~ In k0 (dict_keys done)).
  { intros done rest k0 v0 Hnd. unfold dict_keys in *.
    rewrite map_app in Hnd. simpl in Hnd.
    apply NoDup_app in Hnd as (_ & Hdis & _).
    intros Hin. apply (Hdis k0); [now apply list_elem_of_In | left]. }
  induction pre as [|[k1 v1] pre IH]; intros done Hn Hnd Hflat.
  - cbn [app]. change (dict_keys ((k, v) :: post)) with (k :: dict_keys post).
    rewrite for_each_cons.
    rewrite (missing_entry_step fuel rec a h g e n done k v post); auto.
    eapply Hfresh; eauto.
  - apply Forall_cons in Hflat as [Hv1 Hflat].
    change (dict_keys (((k1, v1) :: pre) ++ (k, v) :: post))
      with (k1 :: dict_keys (pre ++ (k, v) :: post)).
    rewrite for_each_cons.
    change (((k1, v1) :: pre) ++ (k, v) :: post)
      with ((k1, v1) :: (pre ++ (k, v) :: post)).
    rewrite (flat_entry_step fuel rec a h d0 g e n done k1 v1
               (pre ++ (k, v) :: post)); auto.
    + apply IH; auto.
      * rewrite <- app_assoc. exact Hn.
      * rewrite <- app_assoc. exact Hnd.
    + eapply Hfresh; eauto.
Qed.

End FlatPrefix.

(** X13. Resolving a resolved mapping again changes nothing: where the
    values of a flat mapping, once its references are substituted, are
    neither references nor lists nor dicts, a second [parse_config] returns
    the mapping as the first left it. *)
Theorem resolved_mapping_stays (settings : Settings) (reg : registry)
    (env_vars global_vars : addr) (fuel fuel' : nat) (a : addr) (h : heap)
    (d g e : list (string * value)) :
  h !! a = Some (ODict d) ->
  h !! global_vars = Some (ODict g) -> h !! env_vars = Some (ODict e) ->
  a <> global_vars -> a <> env_vars ->
  NoDup (dict_keys d) -> dict_get d "_name" = None ->
  Forall (fun kv => flat_item settings h g e (snd kv)) d ->
  Forall (fun kv : string * value =>
            is_variable settings (snd kv) = false
            /\ list_addr h (snd kv) = None /\ is_dict h (snd kv) = false)
    (map (substituted_entry settings g e) d) ->
  exists h',
    parse_config settings reg (S fuel) (VRef a) env_vars global_vars h
    = Ok (VRef a, h')
    /\ h' !! a = Some (ODict (map (substituted_entry settings g e) d))
    /\ parse_config settings reg (S fuel') (VRef a) env_vars global_vars h'
       = Ok (VRef a, h').
Proof.
  intros Ha Hg He Hag Hae Hnd Hname Hflat Hres.
  assert (Hlt : a < length h) by (eapply lookup_lt_Some; eauto).
  set (d' := map (substituted_entry settings g e) d) in *.
  exists (<[a := ODict d']> h).
  split; [now apply flat_mapping_resolves |].
  assert (Ha' : <[a := ODict d']> h !! a = Some (ODict d'))
    by now apply list_lookup_insert_eq.
  split; [exact Ha' |].
  assert (Hsame : map (substituted_entry settings g e) d' = d').
  { rewrite <- (map_id d') at 2. apply map_ext_in.
    intros [k v] Hin. rewrite List.Forall_forall in Hres.
    destruct (Hres _ Hin) as [Hvar _]. simpl in Hvar.
    unfold substituted_entry, substituted. simpl. now rewrite Hvar. }
  rewrite (flat_mapping_resolves settings reg env_vars global_vars fuel' a
             (<[a := ODict d']> h) d' g e); auto.
  - now rewrite Hsame, list_insert_insert_eq.
  - now rewrite list_lookup_insert_ne.
  - now rewrite list_lookup_insert_ne.
  - unfold d'. now rewrite substituted_keys.
  - apply dict_get_none_keys. unfold d'. rewrite substituted_keys.
    now apply dict_get_none_keys.
  - eapply Forall_impl; [exact Hres |].
    intros [k v] (Hvar & Hl & Hd). simpl in *.
    unfold flat_item. rewrite Hvar.
    now apply (flat_after_write h a d).
Qed.

Lemma resolved_mapping_stays_witness :
  exists h',
    parse_config default_settings [] 1 (VRef 2) 0 1
      [ODict []; ODict [("lr", VInt 3)]; ODict [("lr", VStr "@lr")]]
    = Ok (VRef 2, h')
    /\ h' !! 2
       = Some (ODict (map (substituted_entry default_settings
                             [("lr", VInt 3)] [])
                        [("lr", VStr "@lr")]))
    /\ parse_config default_settings [] 1 (VRef 2) 0 1 h' = Ok (VRef 2, h').
Proof.
  apply (resolved_mapping_stays default_settings [] 0 1 0 0 2
           [ODict []; ODict [("lr", VInt 3)]; ODict [("lr", VStr "@lr")]]
           [("lr", VStr "@lr")] [("lr", VInt 3)] []).
  - reflexivity.
  - reflexivity.
  - reflexivity.
  - discriminate.
  - discriminate.
  - apply (bool_decide_unpack _). vm_compute. exact I.
  - reflexivity.
  - repeat constructor; vm_compute; discriminate.
  - repeat constructor.
Defined.

(** X14. The reference that fails first is the one reported: in a mapping
    whose entries up to some key are resolvable references or scalars, and
    whose value under that key is a reference neither tier resolves,
    [parse_config] raises [TypeError] for that reference, whatever comes
    behind it. *)
Theorem first_unresolved_reference (settings : Settings) (reg : registry)
    (env_vars global_vars : addr) (fuel : nat) (a : addr) (h : heap)
    (g e pre post : list (string * value)) (k name : string) :
  h !! a = Some (ODict (pre ++ (k, VStr name) :: post)) ->
  h !! global_vars = Some (ODict g) -> h !! env_vars = Some (ODict e) ->
  a <> global_vars -> a <> env_vars ->
  NoDup (dict_keys (pre ++ (k, VStr name) :: post)) ->
  Forall (fun kv => flat_item settings h g e (snd kv)) pre ->
  is_variable settings (VStr name) = true ->
  lookup_variable g e name = None ->
  parse_config settings reg (S fuel) (VRef a) env_vars global_vars h
  = Raise (TypeError
             ("Could not resolve variable " +:+ dquote +:+ name +:+ dquote
                +:+ ".")).
Proof.
  intros Ha Hg He Hag Hae Hnd Hflat Hvar Hw.
  simpl. rewrite bind_eq. unfold get_heap. simpl. rewrite Ha.
  rewrite bind_eq. unfold for_items.
  rewrite bind_eq, (read_dict_eq _ _ _ Ha). rewrite bind_eq.
  pose proof (flat_entries_fail settings env_vars global_vars fuel
                (fun val => parse_config settings reg fuel val env_vars
                              global_vars)
                a h _ g e (length (pre ++ (k, VStr name) :: post))
                k (VStr name) post Hg He Hag Hae Ha Hvar Hw pre []
                eq_refl Hnd Hflat) as Hloop.
  simpl in Hloop. rewrite (list_insert_id _ _ _ Ha) in Hloop.
  rewrite Hloop. reflexivity.
Qed.

Lemma first_unresolved_reference_witness :
  parse_config default_settings [] 1 (VRef 2) 0 1 two_missing_doc
  = Raise (TypeError
             ("Could not resolve variable " +:+ dquote +:+ "@x" +:+ dquote
                +:+ ".")).
Proof.
  apply (first_unresolved_reference default_settings [] 0 1 0 2
           two_missing_doc [("lr", VInt 3)] [] [("a", VStr "@lr")]
           [("c", VStr "@y")] "b" "@x").
  - reflexivity.
  - reflexivity.
  - reflexivity.
  - discriminate.
  - discriminate.
  - apply (bool_decide_unpack _). vm_compute. exact I.
  - repeat constructor. vm_compute. discriminate.
  - reflexivity.
  - reflexivity.
Defined.
